(** * passat.py: the per-password classification pipeline

    A shallow embedding of [src/passat.py]: the module-level tables
    ([SYMBOLS], [stats_regex], [trans], [line_re]) and the body of the
    line loop of [main], followed by the properties of the pipeline.

    Python strings are sequences of Unicode code points; they are modelled
    as lists of [N].  Counters ([collections.Counter]) are finite maps to
    [Z] whose missing keys read as [0]. *)

From Stdlib Require Import ZArith NArith Ascii String List Bool Lia.
From stdpp Require Import base option list gmap sets fin_maps.

Local Open Scope Z_scope.

(* ===================================================================== *)
(** ** Strings *)
(* ===================================================================== *)

Abbreviation char := N.
Abbreviation str := (list N).

Definition ch (a : ascii) : char := N_of_ascii a.
Arguments ch a%_char : simpl never.

Fixpoint codes (s : string) : str :=
  match s with
  | EmptyString => []
  | String a s' => N_of_ascii a :: codes s'
  end.
Arguments codes s%_string.

Definition dquote : char := 34%N.
Definition backslash : char := 92%N.
Definition newline : char := 10%N.

Definition inb (c : char) (s : str) : bool := existsb (N.eqb c) s.

(** [s.startswith(prefix)] *)
Fixpoint startswith (prefix s : str) : bool :=
  match prefix, s with
  | [], _ => true
  | _ :: _, [] => false
  | a :: prefix', b :: s' => N.eqb a b && startswith prefix' s'
  end.

(** [s.ljust(width, fill)] *)
Definition ljust (s : str) (width : nat) (fill : char) : str :=
  s ++ repeat fill (width - length s).

(** Escape processing of a (non-raw) Python string literal, for the
    escapes that occur in this program: a backslash followed by a
    backslash or a quote denotes that character; an unrecognised escape
    such as [\d], [\-] or [\]] keeps its backslash. *)
Fixpoint unescape (s : str) : str :=
  match s with
  | [] => []
  | c :: s' =>
      if N.eqb c backslash then
        match s' with
        | d :: s'' =>
            if N.eqb d backslash || N.eqb d dquote || N.eqb d (ch "'")
            then d :: unescape s''
            else c :: d :: unescape s''
        | [] => [c]
        end
      else c :: unescape s'
  end.

(** The text of a string literal of the source, after escape processing. *)
Definition lit (s : string) : str := unescape (codes s).
Arguments lit s%_string.

(* ===================================================================== *)
(** ** Regular expressions

    The patterns of the program are compiled by Python's [re] module.
    [parse] follows the parser of that module on the syntax the program
    uses: literals, [.], [^], [$], character sets with ranges, escapes
    and negation, the category [\d], groups [( )], [(?: )], lookahead
    [(?= )] and the repeats [?], [*], [+] with their lazy forms.  Any
    other syntax is refused ([None]). *)
(* ===================================================================== *)

Inductive citem : Type :=
| CLit (c : char)
| CRange (lo hi : char)
| CDigit.

Inductive re : Type :=
| Empty
| Lit (c : char)
| Any
| In_ (negate : bool) (items : list citem)
| Bol
| Eol
| Seq (r1 r2 : re)
| Opt (greedy : bool) (r : re)
| Star (greedy : bool) (r : re)
| Plus (greedy : bool) (r : re)
| Group (idx : nat) (r : re)
| Look (r : re).

Definition is_ascii_letter (c : char) : bool :=
  ((ch "a" <=? c) && (c <=? ch "z") || (ch "A" <=? c) && (c <=? ch "Z"))%N.

Definition is_ascii_digit (c : char) : bool :=
  ((ch "0" <=? c) && (c <=? ch "9"))%N.

(** An escape: the character [d] that follows the backslash. [\d] is the
    digit category; a letter or digit other than that is not handled
    here; any other character stands for itself. *)
Definition parse_escape (d : char) : option citem :=
  if N.eqb d (ch "d") then Some CDigit
  else if is_ascii_letter d || is_ascii_digit d then None
  else Some (CLit d).

(** One member of a set, read from the start of [s]. *)
Definition parse_member (s : str) : option (citem * str) :=
  match s with
  | [] => None
  | c :: s1 =>
      if N.eqb c backslash then
        match s1 with
        | d :: s2 => match parse_escape d with
                     | Some i => Some (i, s2)
                     | None => None
                     end
        | [] => None
        end
      else Some (CLit c, s1)
  end.

(** The body of a set, after the opening bracket and an optional [^]:
    a closing bracket ends the set unless it is its first member; a
    member followed by [-] and another member is a range. *)
Fixpoint parse_set (fuel : nat) (s : str) (acc : list citem)
  : option (list citem * str) :=
  match fuel with
  | O => None
  | S f =>
      match s with
      | [] => None
      | c :: s1 =>
          if N.eqb c (ch "]") && match acc with [] => false | _ => true end
          then Some (rev acc, s1)
          else
            match parse_member s with
            | None => None
            | Some (code1, s2) =>
                match s2 with
                | m :: s3 =>
                    if N.eqb m (ch "-") then
                      match s3 with
                      | [] => None
                      | d :: s4 =>
                          if N.eqb d (ch "]")
                          then Some (rev (CLit (ch "-") :: code1 :: acc), s4)
                          else
                            match code1, parse_member s3 with
                            | CLit lo, Some (CLit hi, s5) =>
                                if (hi <? lo)%N then None
                                else parse_set f s5 (CRange lo hi :: acc)
                            | _, _ => None
                            end
                      end
                    else parse_set f s2 (code1 :: acc)
                | [] => parse_set f s2 (code1 :: acc)
                end
            end
      end
  end.

(** The repeat that follows an item, if any. *)
Definition parse_repeat (item : re) (s : str) : option (re * str) :=
  let lazy (s' : str) : bool * str :=
    match s' with
    | q :: s'' => if N.eqb q (ch "?") then (false, s'') else (true, s')
    | [] => (true, s')
    end in
  let repeatable := match item with Bol | Eol => false | _ => true end in
  match s with
  | c :: s1 =>
      if N.eqb c (ch "?") then
        if repeatable then let '(g, s2) := lazy s1 in Some (Opt g item, s2) else None
      else if N.eqb c (ch "*") then
        if repeatable then let '(g, s2) := lazy s1 in Some (Star g item, s2) else None
      else if N.eqb c (ch "+") then
        if repeatable then let '(g, s2) := lazy s1 in Some (Plus g item, s2) else None
      else if N.eqb c (ch "{") then None
      else Some (item, s)
  | [] => Some (item, s)
  end.

(** A sequence of items up to the end of the pattern or a closing
    parenthesis (left in the remainder); [n] is the number of capturing
    groups opened so far. *)
Fixpoint parse (fuel : nat) (s : str) (n : nat) : option (re * str * nat) :=
  match fuel with
  | O => None
  | S f =>
      match s with
      | [] => Some (Empty, s, n)
      | c :: s1 =>
          if N.eqb c (ch ")") then Some (Empty, s, n)
          else
            let item : option (re * str * nat) :=
              if N.eqb c (ch ".") then Some (Any, s1, n)
              else if N.eqb c (ch "^") then Some (Bol, s1, n)
              else if N.eqb c (ch "$") then Some (Eol, s1, n)
              else if N.eqb c (ch "|") || N.eqb c (ch "*") || N.eqb c (ch "+")
                      || N.eqb c (ch "?") || N.eqb c (ch "{") then None
              else if N.eqb c backslash then
                match s1 with
                | d :: s2 => match parse_escape d with
                             | Some CDigit => Some (In_ false [CDigit], s2, n)
                             | Some (CLit x) => Some (Lit x, s2, n)
                             | _ => None
                             end
                | [] => None
                end
              else if N.eqb c (ch "[") then
                let '(negate, s2) :=
                  match s1 with
                  | x :: s2 => if N.eqb x (ch "^") then (true, s2) else (false, s1)
                  | [] => (false, s1)
                  end in
                match parse_set (length s2) s2 [] with
                | Some (items, s3) => Some (In_ negate items, s3, n)
                | None => None
                end
              else if N.eqb c (ch "(") then
                let close (wrap : re -> re) (body : option (re * str * nat)) :=
                  match body with
                  | Some (r, x :: s3, n') =>
                      if N.eqb x (ch ")") then Some (wrap r, s3, n') else None
                  | _ => None
                  end in
                match s1 with
                | q :: k :: s2 =>
                    if N.eqb q (ch "?") then
                      if N.eqb k (ch ":") then close (fun r => r) (parse f s2 n)
                      else if N.eqb k (ch "=") then close Look (parse f s2 n)
                      else None
                    else close (Group (S n)) (parse f s1 (S n))
                | _ => close (Group (S n)) (parse f s1 (S n))
                end
              else Some (Lit c, s1, n) in
            match item with
            | None => None
            | Some (r, s2, n') =>
                match parse_repeat r s2 with
                | None => None
                | Some (r', s3) =>
                    match parse f s3 n' with
                    | Some (rest, s4, n'') => Some (Seq r' rest, s4, n'')
                    | None => None
                    end
                end
            end
      end
  end.

(** [re.compile(pattern)]: the whole pattern must be consumed. *)
Definition compile (pattern : str) : option re :=
  match parse (S (length pattern)) pattern 0 with
  | Some (r, [], _) => Some r
  | _ => None
  end.

(** [SYMBOLS], line 14.  The source literal is spelled out here: the
    characters up to and including the three backslashes, the escaped
    double quote, and the remainder.  Escape processing turns the pair of
    backslashes into one and the escaped quote into a quote, and keeps the
    backslashes that precede the hyphen and the closing bracket. *)
Definition SYMBOLS : str :=
  unescape (codes "~`!@#$%^&*()_\-+=}\]{[|\\\" ++ [dquote] ++ codes "':;?/>.<, ").


(** What the Unicode database decides: [\d] of a pattern compiled with
    [re.UNICODE] is the decimal-digit category, and [str.isnumeric] and
    [str.isalpha] are the predicates of the letter-frequency analysis. *)
Class UnicodeData := {
  isdecimal : char -> bool;
  isnumeric : char -> bool;
  isalpha : char -> bool
}.

(** Captured groups, the most recent first. *)
Abbreviation caps := (list (nat * str)).

Fixpoint group (i : nat) (g : caps) : option str :=
  match g with
  | [] => None
  | (j, v) :: g' => if Nat.eqb i j then Some v else group i g'
  end.

Section Matcher.
Context `{UnicodeData}.

Definition citem_match (x : char) (i : citem) : bool :=
  match i with
  | CLit c => N.eqb x c
  | CRange lo hi => ((lo <=? x) && (x <=? hi))%N
  | CDigit => isdecimal x
  end.

Definition set_match (negate : bool) (items : list citem) (x : char) : bool :=
  xorb negate (existsb (citem_match x) items).

(** The loop of [*] and [+]: [body] matches one more item and must
    consume input to go round again; a greedy loop prefers another
    round, a lazy one prefers to leave.  [n] bounds the rounds by the
    input that is left. *)
Fixpoint repeat_loop
    (body : str -> caps -> (str -> caps -> option caps) -> option caps)
    (greedy : bool) (k : str -> caps -> option caps)
    (n : nat) (s : str) (g : caps) : option caps :=
  match n with
  | O => k s g
  | S n' =>
      let again (_ : unit) :=
        body s g (fun s' g' =>
          if (length s' <? length s)%nat
          then repeat_loop body greedy k n' s' g' else None) in
      if greedy then
        match again tt with Some r => Some r | None => k s g end
      else
        match k s g with Some r => Some r | None => again tt end
  end.

(** A backtracking matcher in continuation-passing style: [mtch r inp s
    g k] matches [r] at the suffix [s] of the input [inp] and hands the
    rest of the input to [k]; alternatives are tried in the order of
    Python's engine. *)
Fixpoint mtch (r : re) (inp s : str) (g : caps)
    (k : str -> caps -> option caps) {struct r} : option caps :=
  match r with
  | Empty => k s g
  | Lit c =>
      match s with
      | x :: s' => if N.eqb x c then k s' g else None
      | [] => None
      end
  | Any =>
      match s with
      | x :: s' => if N.eqb x newline then None else k s' g
      | [] => None
      end
  | In_ negate items =>
      match s with
      | x :: s' => if set_match negate items x then k s' g else None
      | [] => None
      end
  | Bol => if (length s =? length inp)%nat then k s g else None
  | Eol =>
      match s with
      | [] => k s g
      | [x] => if N.eqb x newline then k s g else None
      | _ => None
      end
  | Seq r1 r2 => mtch r1 inp s g (fun s' g' => mtch r2 inp s' g' k)
  | Opt greedy r1 =>
      if greedy then
        match mtch r1 inp s g k with Some r => Some r | None => k s g end
      else
        match k s g with Some r => Some r | None => mtch r1 inp s g k end
  | Star greedy r1 => repeat_loop (mtch r1 inp) greedy k (length s) s g
  | Plus greedy r1 =>
      mtch r1 inp s g (fun s' g' =>
        repeat_loop (mtch r1 inp) greedy k (length s') s' g')
  | Group i r1 =>
      mtch r1 inp s g (fun s' g' =>
        k s' ((i, take (length s - length s') s) :: g'))
  | Look r1 =>
      match mtch r1 inp s g (fun _ g' => Some g') with
      | Some g' => k s g'
      | None => None
      end
  end.

(** [pattern.match(p)]: a match at the start of [p]. *)
Definition re_match (r : re) (p : str) : option caps :=
  mtch r p p [] (fun _ g => Some g).

(** [pattern.search(p)]: the first position of [p] with a match. *)
Fixpoint search_from (r : re) (inp s : str) : option caps :=
  match mtch r inp s [] (fun _ g => Some g) with
  | Some g => Some g
  | None =>
      match s with
      | [] => None
      | _ :: s' => search_from r inp s'
      end
  end.

Definition re_search (r : re) (p : str) : option caps := search_from r p p.

End Matcher.

(* ===================================================================== *)
(** ** Module-level tables *)
(* ===================================================================== *)

(** [stats_regex], lines 16-49, in the order of the source. *)
Definition stats_regex : list (str * str) :=
  [ (lit "Contains: 123", lit "123");
    (lit "Contains: 1234", lit "1234");
    (lit "Contains: space", lit " ");
    (lit "Has: All lowercase", lit "^[a-z]+$");
    (lit "Has: All num", lit "^[\d]+$");
    (lit "Has: All uppercase", lit "^[A-Z]+$");
    (lit "Has: First capital, last number", lit "^[A-Z].*\d$");
    (lit "Has: First capital, last symbol", lit "^[A-Z].*[" ++ SYMBOLS ++ lit "]$");
    (lit "Has: Four digits at the end", lit "[^\d]\d\d\d\d$");
    (lit "Has: Single digit at the end", lit "[^\d]\d$");
    (lit "Has: Three digits at the end", lit "[^\d]\d\d\d$");
    (lit "Has: Two digits at the end", lit "[^\d]\d\d$");
    (lit "Has: Upper + lower + num + symbol",
     lit "^(?=.*[a-z])(?=.*[A-Z])(?=.*\d)(?=.*[" ++ SYMBOLS ++ lit "]).*$");
    (lit "Has: Lower + num + symbol",
     lit "^(?=.*[a-z])(?=.*\d)(?=.*[" ++ SYMBOLS ++ lit "])[a-z\d" ++ SYMBOLS ++ lit "]*$");
    (lit "Has: Upper + num + symbol",
     lit "^(?=.*[A-Z])(?=.*\d)(?=.*[" ++ SYMBOLS ++ lit "])[A-Z\d" ++ SYMBOLS ++ lit "]*$");
    (lit "Has: Upper + lower + num", lit "^(?=.*[a-z])(?=.*[A-Z])(?=.*\d)[A-Za-z\d]*$");
    (lit "Has: Alpha + num", lit "^(?=.*[a-zA-Z])(?=.*\d)[A-Za-z\d]*$");
    (lit "Has: Alpha + symbol",
     lit "^(?=.*[a-zA-Z])(?=.*[" ++ SYMBOLS ++ lit "])[A-Za-z" ++ SYMBOLS ++ lit "]*$");
    (lit "Has: Upper + lower + symbol",
     lit "^(?=.*[a-z])(?=.*[A-Z])(?=.*[" ++ SYMBOLS ++ lit "])[A-Za-z" ++ SYMBOLS ++ lit "]*$");
    (lit "Has: Upper + lower", lit "^(?=.*[a-z])(?=.*[A-Z])[A-Za-z]*$");
    (lit "Last digit is '0'", lit "0$");
    (lit "Last digits are '020'", lit "020$");
    (lit "Last digits are '19xx'", lit "19\d\d$");
    (lit "Last digits are '20'", lit "20$");
    (lit "Last digits are '2020'", lit "2020$");
    (lit "Last digits are '20xx'", lit "20\d\d$");
    (lit "Seq: 1 upper > lower > num or symbol", lit "^[A-Z][a-z]+[\d" ++ SYMBOLS ++ lit "]+$");
    (lit "Seq: 1 upper > lower > num", lit "^[A-Z][a-z]+[\d]+$");
    (lit "Seq: aplha > num > alpha", lit "^[A-Za-z]+\d+[A-Za-z]+$");
    (lit "Seq: aplha > num > symbol", lit "^[A-Za-z]+\d+[" ++ SYMBOLS ++ lit "]+$");
    (lit "Seq: aplha > num", lit "^[A-Za-z]+\d+$");
    (lit "Seq: aplha > symbol > num", lit "^[A-Za-z]+[" ++ SYMBOLS ++ lit "]+\d+$") ].

(** [stats], line 51: every pattern compiled, in the same order (a
    pattern the parser refuses would be left out; [stats_all_compiled]
    below shows that none is). *)
Definition stats : list (str * re) :=
  omap (fun kv => match compile (snd kv) with
                  | Some r => Some (fst kv, r)
                  | None => None
                  end) stats_regex.

(** [tr_from], [tr_to] and [trans], lines 62-64. *)
Definition tr_from : str :=
  lit "abcdefghijklmnopqrstuvwxyzABCDEFGHIJKLMNOPQRSTUVWXYZ0123456789" ++ SYMBOLS.

Definition tr_to : str :=
  ljust (lit "aaaaaaaaaaaaaaaaaaaaaaaaaaAAAAAAAAAAAAAAAAAAAAAAAAAA1111111111")
        (length tr_from) (ch "@").

(** [str.maketrans(x, y)]: a dictionary filled in the order of the
    characters of [x], a later entry replacing an earlier one. *)
Definition maketrans (x y : str) : gmap N N :=
  fold_left (fun m kv => <[fst kv := snd kv]> m) (zip x y) ∅.

Definition trans : gmap N N := maketrans tr_from tr_to.

(** [p.translate(table)]: a character without an entry is kept. *)
Definition translate (table : gmap N N) (p : str) : str :=
  map (fun c => default c (table !! c)) p.

(** [line_re], line 68 ([line_re_compiled] below shows that the pattern
    compiles to this value). *)
Definition line_re : re :=
  default Empty (compile (lit "(?:.*?:)?(?:.*?:)?(.*)$")).


(* ===================================================================== *)
(** ** Counters, exceptions and external collaborators *)
(* ===================================================================== *)

(** [collections.Counter]: a missing key reads as zero, and [c[k] += n]
    stores the sum under [k]. *)
Section Counter.
Context {K : Type} `{Countable K}.

Definition get (c : gmap K Z) (k : K) : Z := default 0 (c !! k).

Definition incr (k : K) (n : Z) (c : gmap K Z) : gmap K Z :=
  <[k := get c k + n]> c.

(** The sum of all counts. *)
Definition total (c : gmap K Z) : Z :=
  map_fold (fun _ v acc => v + acc) 0 c.
End Counter.

(** The exceptions the line loop can raise; none is caught. *)
Inductive exn : Type :=
| BinasciiError      (* binascii.unhexlify: odd length or non-hex digit *)
| ValueError         (* binascii.unhexlify: non-ASCII text *)
| AttributeError     (* [.group] of a failed match *)
| KeyError.          (* [word2category[...]] *)

Inductive result (A : Type) : Type :=
| OK (a : A)
| Raise (e : exn).
Arguments OK {A} a.
Arguments Raise {A} e.

(** [fuzzywuzzy.process.extract(query, choices)]: the ranked matches, each
    a word of the choices with its score. *)
Class FuzzyWuzzy := {
  extract : str -> gset str -> list (str * Z)
}.

(* ===================================================================== *)
(** ** Reading lines and recovering passwords *)
(* ===================================================================== *)

(** The line boundaries of [str.splitlines]. *)
Definition is_linebreak (c : char) : bool :=
  inb c [10; 11; 12; 13; 28; 29; 30; 133; 8232; 8233]%N.

(** [text.splitlines()]: [cur] holds the current line, reversed. *)
Fixpoint splitlines_aux (cur : str) (text : str) : list str :=
  match text with
  | [] => match cur with [] => [] | _ => [rev cur] end
  | c :: text' =>
      if is_linebreak c then
        match text' with
        | d :: text'' =>
            if N.eqb c 13 && N.eqb d 10
            then rev cur :: splitlines_aux [] text''
            else rev cur :: splitlines_aux [] text'
        | [] => rev cur :: splitlines_aux [] text'
        end
      else splitlines_aux (c :: cur) text'
  end.

Definition splitlines (text : str) : list str := splitlines_aux [] text.

Definition hexval (c : char) : option N :=
  if ((ch "0" <=? c) && (c <=? ch "9"))%N then Some (c - ch "0")%N
  else if ((ch "a" <=? c) && (c <=? ch "f"))%N then Some (c - ch "a" + 10)%N
  else if ((ch "A" <=? c) && (c <=? ch "F"))%N then Some (c - ch "A" + 10)%N
  else None.

Fixpoint unhex_pairs (s : str) : option (list N) :=
  match s with
  | [] => Some []
  | [_] => None
  | a :: b :: rest =>
      match hexval a, hexval b, unhex_pairs rest with
      | Some hi, Some lo, Some bytes => Some ((16 * hi + lo)%N :: bytes)
      | _, _, _ => None
      end
  end.

(** [binascii.unhexlify(s)] on text: the bytes, as numbers below 256. *)
Definition unhexlify (s : str) : result (list N) :=
  if existsb (fun c => (128 <=? c)%N) s then Raise ValueError
  else if Nat.odd (length s) then Raise BinasciiError
  else match unhex_pairs s with
       | Some bytes => OK bytes
       | None => Raise BinasciiError
       end.

(** [bytes.decode("latin1")]: byte [b] is the character of code [b]. *)
Definition decode_latin1 (bytes : list N) : str := bytes.

(** Lines 177-178: [$HEX[...]] passwords are converted. *)
Definition recover (p : str) : result str :=
  if startswith (lit "$HEX[") p && bool_decide (last p = Some (ch "]")) then
    match unhexlify (drop 5 (take (length p - 1) p)) with
    | OK bytes => OK (decode_latin1 bytes)
    | Raise e => Raise e
    end
  else OK p.

(* ===================================================================== *)
(** ** The category dictionary, lines 119-129 *)
(* ===================================================================== *)

(** The items of the loaded JSON object: category name and its words. *)
Abbreviation categories_t := (list (str * list str)).

Definition words (categories : categories_t) : gset str :=
  list_to_set (concat (map snd categories)).

Definition cats_of (categories : categories_t) (w : str) : list str :=
  map fst (filter (fun cv => w ∈ snd cv) categories).

Definition word2category (categories : categories_t) : gmap str (list str) :=
  set_fold (fun w m => <[w := cats_of categories w]> m) ∅ (words categories).

(* ===================================================================== *)
(** ** The line loop of [main], lines 132-246 *)
(* ===================================================================== *)

#[global] Instance result_ret : MRet result := fun _ a => OK a.
#[global] Instance result_bind : MBind result := fun _ _ f r =>
  match r with
  | OK a => f a
  | Raise e => Raise e
  end.

(** The command-line switches the loop reads ([verbose] only prints). *)
Record args : Type := {
  freq : bool;
  no_categories : bool
}.

(** The ten counters of lines 132-141. *)
Record counters : Type := {
  cnt : gmap str Z;
  cnt_length : gmap Z Z;
  cnt_pwd : gmap str Z;
  cnt_root : gmap str Z;
  cnt_regex : gmap str Z;
  cnt_symbol : gmap char Z;
  cnt_alpha : gmap char Z;
  cnt_num : gmap char Z;
  cnt_totals : gmap str Z;
  cnt_pattern : gmap str Z
}.

Definition empty_counters : counters :=
  {| cnt := ∅; cnt_length := ∅; cnt_pwd := ∅; cnt_root := ∅; cnt_regex := ∅;
     cnt_symbol := ∅; cnt_alpha := ∅; cnt_num := ∅; cnt_totals := ∅;
     cnt_pattern := ∅ |}.

(** The variables of the loop over the lines of one file. *)
Record loop_state : Type := {
  ctrs : counters;
  progress : Z;
  valid_passwords : Z
}.

(** The variables that live across files. *)
Record run_state : Type := {
  run_ctrs : counters;
  grand_total : Z;
  total_valid_passwords : Z
}.

(** Lines 132-146: empty counters and zero totals. *)
Definition start : run_state :=
  {| run_ctrs := empty_counters; grand_total := 0; total_valid_passwords := 0 |}.

Definition no_category : str := lit "no_category".

(** The letter counters: [cnt_num], [cnt_alpha], [cnt_symbol], [cnt_totals]. *)
Abbreviation letter_counters :=
  (gmap char Z * gmap char Z * gmap char Z * gmap str Z)%type.

Section Pipeline.
Context `{UnicodeData} `{FuzzyWuzzy}.
Variable a : args.
Variable categories : categories_t.

(** Line 167: the password field of a line; [None] is Python's [None]. *)
Definition line_password (l : str) : result (option str) :=
  match re_match line_re l with
  | Some g => OK (group 1 g)
  | None => Raise AttributeError
  end.

(** Lines 192-200: one letter of the password. *)
Definition count_letter (acc : letter_counters) (letter : char)
  : letter_counters :=
  let '(num, alpha, symbol, totals) := acc in
  if isnumeric letter then
    (incr letter 1 num, alpha, symbol, incr (lit "num") 1 totals)
  else if isalpha letter then
    (num, incr letter 1 alpha, symbol, incr (lit "alpha") 1 totals)
  else
    (num, alpha, incr letter 1 symbol, incr (lit "symbol") 1 totals).

(** Lines 189-200: the letter frequency analysis. *)
Definition letter_frequency (p : str) (acc : letter_counters)
  : letter_counters :=
  if freq a then
    let '(num, alpha, symbol, totals) := acc in
    fold_left count_letter p
      (num, alpha, symbol, incr (lit "chars") (Z.of_nat (length p)) totals)
  else acc.

(** Lines 210-212: every rule that finds a match is counted. *)
Definition match_rules (p : str) (c : gmap str Z) : gmap str Z :=
  fold_left (fun c kv =>
               if bool_decide (is_Some (re_search (snd kv) p))
               then incr (fst kv) 1 c else c)
            stats c.

(** Lines 226-228: one fuzzy match [m], a word and its score. *)
Definition fuzzy_step (acc : gmap str Z * gset str) (m : str * Z)
  : result (gmap str Z * gset str) :=
  let '(root, pw_categories) := acc in
  if 80 <? snd m then
    match word2category categories !! fst m with
    | Some cats => OK (incr (fst m) 1 root, pw_categories ∪ list_to_set cats)
    | None => Raise KeyError
    end
  else OK acc.

(** Lines 223-228: the loop over the matches. *)
Fixpoint fuzzy_loop (mall : list (str * Z)) (acc : gmap str Z * gset str)
  : result (gmap str Z * gset str) :=
  match mall with
  | [] => OK acc
  | m :: mall' => acc' ← fuzzy_step acc m; fuzzy_loop mall' acc'
  end.

(** Lines 230-231: the labels that are counted for the password. *)
Definition labels (pw_categories : gset str) : list str :=
  if bool_decide (pw_categories = ∅) then [no_category]
  else elements pw_categories.

(** Line 217: the condition of the fuzzy matching. *)
Definition reaches_categories (p : str) : bool :=
  (3 <? length p)%nat && negb (no_categories a)
  && negb (bool_decide (words categories = ∅)).

(** Lines 217-235: fuzzy matching to categories, on [cnt_root] and [cnt]. *)
Definition categorize (p : str) (root c : gmap str Z)
  : result (gmap str Z * gmap str Z) :=
  if reaches_categories p then
    '(root', pw_categories) ←
       fuzzy_loop (extract p (words categories)) (root, ∅);
    mret (root', fold_left (fun c k => incr k 1 c) (labels pw_categories) c)
  else mret (root, c).

(** Lines 180-235: the statistics of one recovered password. *)
Definition classify (p : str) (c : counters) : result counters :=
  let cnt_length' := incr (Z.of_nat (length p)) 1 (cnt_length c) in
  let cnt_pwd' := incr p 1 (cnt_pwd c) in
  let '(cnt_num', cnt_alpha', cnt_symbol', cnt_totals') :=
    letter_frequency p (cnt_num c, cnt_alpha c, cnt_symbol c, cnt_totals c) in
  let pwd_pat := translate trans p in
  let cnt_pattern' := incr pwd_pat 1 (cnt_pattern c) in
  let cnt_regex' := match_rules p (cnt_regex c) in
  '(cnt_root', cnt') ← categorize p (cnt_root c) (cnt c);
  mret {| cnt := cnt'; cnt_length := cnt_length'; cnt_pwd := cnt_pwd';
          cnt_root := cnt_root'; cnt_regex := cnt_regex';
          cnt_symbol := cnt_symbol'; cnt_alpha := cnt_alpha';
          cnt_num := cnt_num'; cnt_totals := cnt_totals';
          cnt_pattern := cnt_pattern' |}.

(** Lines 159-243: the body of the loop over the lines. *)
Definition process_line (st : loop_state) (l : str) : result loop_state :=
  let progress' := progress st + 1 in
  p ← line_password l;
  match p with
  | None | Some [] =>
      (* skip empty passwords *)
      mret {| ctrs := ctrs st; progress := progress';
              valid_passwords := valid_passwords st |}
  | Some p =>
      let valid_passwords' := valid_passwords st + 1 in
      p ← recover p;
      c ← classify p (ctrs st);
      mret {| ctrs := c; progress := progress';
              valid_passwords := valid_passwords' |}
  end.

Fixpoint process_lines (lines : list str) (st : loop_state)
  : result loop_state :=
  match lines with
  | [] => OK st
  | l :: lines' => st' ← process_line st l; process_lines lines' st'
  end.

(** Lines 155-247: one input file, once its lines are read. *)
Definition process_file_lines (rs : run_state) (lines : list str)
  : result run_state :=
  let total := Z.of_nat (length lines) in
  st ← process_lines lines
         {| ctrs := run_ctrs rs; progress := 0; valid_passwords := 0 |};
  mret {| run_ctrs := ctrs st;
          grand_total := grand_total rs + total;
          total_valid_passwords :=
            total_valid_passwords rs + valid_passwords st |}.

(** Lines 148-247: one input file, given its text. *)
Definition process_file (rs : run_state) (text : str) : result run_state :=
  process_file_lines rs (splitlines text).

Fixpoint process_files (files : list str) (rs : run_state)
  : result run_state :=
  match files with
  | [] => OK rs
  | f :: files' => rs' ← process_file rs f; process_files files' rs'
  end.

(** Lines 132-247: the run over all input files. *)
Definition run (files : list str) : result run_state :=
  process_files files start.

End Pipeline.


(** The symbol class of the rule patterns: the members of the set the
    pattern [[{SYMBOLS}]] compiles to. *)
Definition symbol_class : list citem :=
  match compile (lit "[" ++ SYMBOLS ++ lit "]") with
  | Some (Seq (In_ _ items) _) => items
  | _ => []
  end.

(** The part of a line after its first colon, if it has one. *)
Fixpoint after_colon (s : str) : option str :=
  match s with
  | [] => None
  | c :: s' => if N.eqb c (ch ":") then Some s' else after_colon s'
  end.

(** Stripping one leading colon-delimited prefix, when there is one. *)
Definition strip_prefix (s : str) : str := default s (after_colon s).

(** The two parts of [line_re]: an optional prefix up to a colon, and
    the captured rest of the line. *)
Definition prefix_re : re := Seq (Star false Any) (Seq (Lit (ch ":")) Empty).
Definition tail_re : re :=
  Seq (Group 1 (Seq (Star true Any) Empty)) (Seq Eol Empty).

(** One round of a loop over [.]: any character but a newline is
    consumed. *)
Definition any_step
    (body : str → caps → (str → caps → option caps) → option caps) : Prop :=
  ∀ s g k, body s g k =
           match s with
           | [] => None
           | x :: s' => if N.eqb x newline then None else k s' g
           end.

(** The lines whose password reaches the fuzzy matching: a non-empty
    password field that is recovered to a password for which the
    condition of line 217 holds. *)
Definition categorized_line `{UnicodeData} (a : args) (categories : categories_t)
    (l : str) : bool :=
  match line_password l with
  | OK (Some (x :: p)) =>
      match recover (x :: p) with
      | OK p' => reaches_categories a categories p'
      | Raise _ => false
      end
  | _ => false
  end.

(** The letter counters agree: every counted character is in exactly one
    of the three tables, and the totals add up. *)
Definition letters_consistent (c : counters) : Prop :=
  get (cnt_totals c) (lit "chars") =
    get (cnt_totals c) (lit "num") + get (cnt_totals c) (lit "alpha")
    + get (cnt_totals c) (lit "symbol") ∧
  get (cnt_totals c) (lit "num") = total (cnt_num c) ∧
  get (cnt_totals c) (lit "alpha") = total (cnt_alpha c) ∧
  get (cnt_totals c) (lit "symbol") = total (cnt_symbol c).


(** A loop state with another progress count. *)
Definition with_progress (st : loop_state) (n : Z) : loop_state :=
  {| ctrs := ctrs st; progress := n; valid_passwords := valid_passwords st |}.

(** How many of the lines reach the fuzzy matching. *)
Definition categorized_count `{UnicodeData} (a : args) (categories : categories_t)
    (lines : list str) : Z :=
  Z.of_nat (length (List.filter (categorized_line a categories) lines)).

(** The letter counters [(num, alpha, symbol, totals)] agree once
    [pending] more characters are classified. *)
Definition letters_ok (pending : Z) (acc : letter_counters) : Prop :=
  let '(num, alpha, symbol, totals) := acc in
  get totals (lit "chars") =
    get totals (lit "num") + get totals (lit "alpha")
    + get totals (lit "symbol") + pending ∧
  get totals (lit "num") = total num ∧
  get totals (lit "alpha") = total alpha ∧
  get totals (lit "symbol") = total symbol.

(** Whether a character is in the symbol class of the rules exactly when
    the masker maps it to the symbol marker. *)
Definition same_symbol_status (c : char) : bool :=
  eqb (existsb (fun i => match i with CLit x => N.eqb c x | _ => false end)
               symbol_class)
      (bool_decide (trans !! c = Some (ch "@"))).

(** A database and a matcher to evaluate the pipeline on ASCII examples:
    the ASCII digits and letters, and a matcher that scores a word 100
    when it equals the password, 80 when it is a prefix of it and 0
    otherwise. *)
Definition ascii_unicode : UnicodeData :=
  {| isdecimal := is_ascii_digit;
     isnumeric := is_ascii_digit;
     isalpha := is_ascii_letter |}.

Definition prefix_fuzzy : FuzzyWuzzy :=
  {| extract := fun p ws =>
       map (fun w => (w, if bool_decide (w = p) then 100
                         else if startswith w p then 80 else 0))
           (elements ws) |}.

Definition sample_categories : categories_t :=
  [ (lit "animal", [lit "tiger"; lit "lion"]);
    (lit "team", [lit "tiger"; lit "lions"]) ].

Definition sample_args : args := {| freq := true; no_categories := false |}.

(* ===================================================================== *)
(** ** Notions used to state the properties of a run *)
(* ===================================================================== *)

(** No count of [c] is larger in [c'] than in [c]. *)
Definition map_le {K : Type} `{Countable K} (c c' : gmap K Z) : Prop :=
  ∀ k, get c k ≤ get c' k.

Definition counters_le (c c' : counters) : Prop :=
  map_le (cnt c) (cnt c') ∧ map_le (cnt_length c) (cnt_length c') ∧
  map_le (cnt_pwd c) (cnt_pwd c') ∧ map_le (cnt_root c) (cnt_root c') ∧
  map_le (cnt_regex c) (cnt_regex c') ∧ map_le (cnt_symbol c) (cnt_symbol c') ∧
  map_le (cnt_alpha c) (cnt_alpha c') ∧ map_le (cnt_num c) (cnt_num c') ∧
  map_le (cnt_totals c) (cnt_totals c') ∧ map_le (cnt_pattern c) (cnt_pattern c').

(** Every stored count is at least one. *)
Definition positive {K : Type} `{Countable K} (c : gmap K Z) : Prop :=
  ∀ k v, c !! k = Some v → 1 ≤ v.

(** The sum of key times count of a counter with integer keys. *)
Definition weighted (c : gmap Z Z) : Z :=
  map_fold (fun k v acc => k * v + acc) 0 c.

(** The lines that count as valid passwords: those with a non-empty
    password field (lines 167-173). *)
Definition valid_line `{UnicodeData} (l : str) : bool :=
  match line_password l with
  | OK (Some (_ :: _)) => true
  | _ => false
  end.

(** All lines of the input files, in the order they are read. *)
Definition all_lines (files : list str) : list str :=
  concat (map splitlines files).

(** The three letter tables store counts of at least one. *)
Definition letters_positive (c : counters) : Prop :=
  positive (cnt_num c) ∧ positive (cnt_alpha c) ∧ positive (cnt_symbol c).

(** The class marker of a character, by the ranges the masker is meant
    to implement: lowercase, uppercase, digit, symbol; any other
    character stands for itself. *)
Definition shape_char (c : char) : char :=
  if ((ch "a" <=? c) && (c <=? ch "z"))%N then ch "a"
  else if ((ch "A" <=? c) && (c <=? ch "Z"))%N then ch "A"
  else if ((ch "0" <=? c) && (c <=? ch "9"))%N then ch "1"
  else if inb c SYMBOLS then ch "@"
  else c.

(** The candidate [$HEX[payload]]. *)
Definition hex_wrap (payload : str) : str := lit "$HEX[" ++ payload ++ lit "]".

(* ===================================================================== *)
(** ** The progress bar, lines 87-98 *)
(* ===================================================================== *)

(** [s.rjust(width, fill)] *)
Definition rjust (s : str) (width : nat) (fill : char) : str :=
  repeat fill (width - length s) ++ s.

(** The decimal digits of a natural number, most significant first. *)
Fixpoint digits (fuel : nat) (n : N) (acc : str) : str :=
  match fuel with
  | O => acc
  | S f =>
      let acc' := (ch "0" + n mod 10)%N :: acc in
      if (n <? 10)%N then acc' else digits f (n / 10)%N acc'
  end.

(** The format [d] of an integer. *)
Definition format_d (n : Z) : str :=
  if n <? 0 then ch "-" :: digits (S (N.size_nat (Z.to_N (- n)))) (Z.to_N (- n)) []
  else digits (S (N.size_nat (Z.to_N n))) (Z.to_N n) [].

(** [progbar(curr, total, full_progbar)] with [progbar.last_frac] as
    state: [None] is the [ZeroDivisionError] of [//]; otherwise the new
    [last_frac] and the message printed, if any. *)
Definition progbar (curr total full_progbar last_frac : Z)
  : option (Z * option str) :=
  if total =? 0 then None
  else
    let frac := curr * 100 / total in
    if frac =? last_frac then Some (last_frac, None)
    else
      let filled_progbar :=
        ljust (repeat (ch "#") (Z.to_nat (frac * full_progbar / 100)))
              (Z.to_nat full_progbar) (ch " ") in
      let msg := lit "Completed: [" ++ filled_progbar ++ lit "] "
                 ++ lit "[" ++ rjust (format_d frac) 3 (ch " ") ++ lit "%]" in
      Some (frac, Some msg).

(** The calls of line 243 for one file: [progbar(progress, total)] at
    each of the progress counts [currs], in turn; the messages printed. *)
Fixpoint progbar_calls (currs : list Z) (total last_frac : Z)
  : option (Z * list str) :=
  match currs with
  | [] => Some (last_frac, [])
  | curr :: currs' =>
      match progbar curr total 40 last_frac with
      | None => None
      | Some (last_frac', out) =>
          match progbar_calls currs' total last_frac' with
          | None => None
          | Some (last, outs) =>
              Some (last, match out with Some msg => msg :: outs | None => outs end)
          end
      end
  end.

(** The message of the progress bar at a percentage, for a bar of 40. *)
Definition progbar_msg (frac : Z) : str :=
  lit "Completed: ["
  ++ ljust (repeat (ch "#") (Z.to_nat (frac * 40 / 100))) 40 (ch " ")
  ++ lit "] " ++ lit "[" ++ rjust (format_d frac) 3 (ch " ") ++ lit "%]".

(** Progress counts that never go down. *)
Fixpoint ascending (l : list Z) : Prop :=
  match l with
  | [] => True
  | c :: l' => Forall (Z.le c) l' ∧ ascending l'
  end.

(* ===================================================================== *)
(** ** What a pattern matches *)
(* ===================================================================== *)

(** Zero or more rounds of [B], each consuming input. *)
Inductive star_sem (B : str → str → Prop) : str → str → Prop :=
| star_done (s : str) : star_sem B s s
| star_more (s s1 s' : str) :
    B s s1 → (length s1 < length s)%nat → star_sem B s1 s' → star_sem B s s'.

(** [sem r inp s s']: the pattern [r] matches at the suffix [s] of the
    input [inp] and leaves [s']. *)
Fixpoint sem `{UnicodeData} (r : re) (inp s s' : str) : Prop :=
  match r with
  | Empty => s' = s
  | Lit c => s = c :: s'
  | Any => ∃ x, s = x :: s' ∧ x ≠ newline
  | In_ negate items => ∃ x, s = x :: s' ∧ set_match negate items x = true
  | Bol => s' = s ∧ length s = length inp
  | Eol => s' = s ∧ (s = [] ∨ s = [newline])
  | Seq r1 r2 => ∃ m, sem r1 inp s m ∧ sem r2 inp m s'
  | Opt _ r1 => s' = s ∨ sem r1 inp s s'
  | Star _ r1 => star_sem (sem r1 inp) s s'
  | Plus _ r1 => ∃ m, sem r1 inp s m ∧ star_sem (sem r1 inp) m s'
  | Group _ r1 => sem r1 inp s s'
  | Look r1 => s' = s ∧ ∃ m, sem r1 inp s m
  end.

(** A continuation that succeeds exactly on the rests in [K], whatever
    the captures. *)
Definition accepts (k : str → caps → option caps) (K : str → Prop) : Prop :=
  ∀ s g, is_Some (k s g) ↔ K s.

(* ===================================================================== *)
(** ** The shapes of the rule patterns *)
(* ===================================================================== *)

(** The sets of the rule patterns: [a-z], [A-Z] and [\d]. *)
Definition lower_items : list citem := [CRange (ch "a") (ch "z")].
Definition upper_items : list citem := [CRange (ch "A") (ch "Z")].
Definition digit_items : list citem := [CDigit].

(** A character is in the set [[items]]. *)
Definition in_set `{UnicodeData} (items : list citem) (x : char) : Prop :=
  set_match false items x = true.

(** A password that consists of one non-empty run of characters for each
    of the sets, in their order. *)
Fixpoint runs `{UnicodeData} (sets : list (list citem)) (p : str) : Prop :=
  match sets with
  | [] => p = []
  | items :: sets' =>
      ∃ u v, p = u ++ v ∧ u ≠ [] ∧ Forall (in_set items) u ∧ runs sets' v
  end.

(** The pattern [[s1]+[s2]+...$]. *)
Fixpoint chain (sets : list (list citem)) : re :=
  match sets with
  | [] => Seq Eol Empty
  | items :: sets' => Seq (Plus true (In_ false items)) (chain sets')
  end.

(** The pattern [(?=.*[s1])(?=.*[s2])...] followed by [rest]. *)
Fixpoint looks (sets : list (list citem)) (rest : re) : re :=
  match sets with
  | [] => rest
  | items :: sets' =>
      Seq (Look (Seq (Star true Any) (Seq (In_ false items) Empty)))
          (looks sets' rest)
  end.

(** The pattern of a literal text. *)
Fixpoint literal (w : str) : re :=
  match w with
  | [] => Empty
  | c :: w' => Seq (Lit c) (literal w')
  end.

(** A pattern for one character: what it asks of the character. *)
Definition single_ok `{UnicodeData} (r : re) (x : char) : Prop :=
  match r with
  | Lit c => x = c
  | Any => x ≠ newline
  | In_ negate items => set_match negate items x = true
  | _ => False
  end.

Definition is_single (r : re) : bool :=
  match r with
  | Lit _ | Any | In_ _ _ => true
  | _ => false
  end.

(** The pattern of one-character patterns in a row, up to the end. *)
Fixpoint singles (rs : list re) : re :=
  match rs with
  | [] => Seq Eol Empty
  | r :: rs' => Seq r (singles rs')
  end.

(** The rule [name] of [stats] finds a match in the password: the
    condition of line 211 for that rule. *)
Definition rule_matches `{UnicodeData} (name : str) (p : str) : Prop :=
  ∃ r, (name, r) ∈ stats ∧ is_Some (re_search r p).

(** The set [A-Za-z] of the rule patterns. *)
Definition alpha_items : list citem := upper_items ++ lower_items.

(** The one-character patterns [\d] and [[^\d]]. *)
Definition a_digit : re := In_ false digit_items.
Definition no_digit : re := In_ true digit_items.

(** A loop state with the progress and valid-password counts moved. *)
Definition shift_counts (st : loop_state) (dp dv : Z) : loop_state :=
  {| ctrs := ctrs st; progress := progress st + dp;
     valid_passwords := valid_passwords st + dv |}.

(** Switches with everything optional turned off. *)
Definition quiet_args : args := {| freq := false; no_categories := true |}.

(* ===================================================================== *)
(** ** Adding up statistics *)
(* ===================================================================== *)

(** The key-by-key sum of two counters. *)
Definition merge {K : Type} `{Countable K} (c d : gmap K Z) : gmap K Z :=
  union_with (fun x y => Some (x + y)) c d.

Definition letters_merge (acc0 acc : letter_counters) : letter_counters :=
  let '(num0, alpha0, symbol0, totals0) := acc0 in
  let '(num, alpha, symbol, totals) := acc in
  (merge num0 num, merge alpha0 alpha, merge symbol0 symbol,
   merge totals0 totals).

Definition counters_merge (c d : counters) : counters :=
  {| cnt := merge (cnt c) (cnt d);
     cnt_length := merge (cnt_length c) (cnt_length d);
     cnt_pwd := merge (cnt_pwd c) (cnt_pwd d);
     cnt_root := merge (cnt_root c) (cnt_root d);
     cnt_regex := merge (cnt_regex c) (cnt_regex d);
     cnt_symbol := merge (cnt_symbol c) (cnt_symbol d);
     cnt_alpha := merge (cnt_alpha c) (cnt_alpha d);
     cnt_num := merge (cnt_num c) (cnt_num d);
     cnt_totals := merge (cnt_totals c) (cnt_totals d);
     cnt_pattern := merge (cnt_pattern c) (cnt_pattern d) |}.

(** The loop state [st] on top of the counters [c0]. *)
Definition on_top (c0 : counters) (st : loop_state) : loop_state :=
  {| ctrs := counters_merge c0 (ctrs st); progress := progress st;
     valid_passwords := valid_passwords st |}.

(** The sum of the results of two runs. *)
Definition run_add (r d : run_state) : run_state :=
  {| run_ctrs := counters_merge (run_ctrs r) (run_ctrs d);
     grand_total := grand_total r + grand_total d;
     total_valid_passwords :=
       total_valid_passwords r + total_valid_passwords d |}.

(* ===================================================================== *)
(** ** The characters of the processed passwords *)
(* ===================================================================== *)

(** The password a line contributes to the statistics: its non-empty
    password field (lines 167-171), once recovered (lines 177-178). *)
Definition password_of `{UnicodeData} (l : str) : option str :=
  match line_password l with
  | OK (Some (x :: p)) =>
      match recover (x :: p) with
      | OK p' => Some p'
      | Raise _ => None
      end
  | _ => None
  end.

(** The processed passwords of a list of lines, in their order. *)
Definition passwords `{UnicodeData} (lines : list str) : list str :=
  omap password_of lines.

(** How often the character [x] occurs among the characters [cs]. *)
Definition occurrences (x : char) (cs : list char) : Z :=
  Z.of_nat (length (List.filter (N.eqb x) cs)).

(** Every character of the passwords [ps] is counted in exactly one of
    the three letter tables: a character is counted as often as it
    occurs in the table of its class (numeric first, then alphabetic,
    else symbol) and not at all in the other two; and [cnt_totals] holds
    the number of all characters under "chars". *)
Definition letters_counted `{UnicodeData} (ps : list str) (c : counters) : Prop :=
  (∀ x, get (cnt_num c) x
        = if isnumeric x then occurrences x (concat ps) else 0) ∧
  (∀ x, get (cnt_alpha c) x
        = if isnumeric x then 0
          else if isalpha x then occurrences x (concat ps) else 0) ∧
  (∀ x, get (cnt_symbol c) x
        = if isnumeric x then 0
          else if isalpha x then 0 else occurrences x (concat ps)) ∧
  get (cnt_totals c) (lit "chars") = Z.of_nat (length (concat ps)).

(* ===================================================================== *)
(** * Properties *)
(* ===================================================================== *)

(** ** Counters *)

Section CounterFacts.
Context {K : Type} `{Countable K}.
Implicit Types (c : gmap K Z) (k j : K) (n : Z).

Lemma get_incr_eq c k n : get (incr k n c) k = get c k + n.
Proof. unfold incr, get at 1. by rewrite lookup_insert_eq. Qed.

Lemma get_incr_ne c k j n : k ≠ j → get (incr k n c) j = get c j.
Proof. intros Hne. unfold incr, get at 1. by rewrite lookup_insert_ne. Qed.

Lemma total_empty : total (∅ : gmap K Z) = 0.
Proof. unfold total. by rewrite map_fold_empty. Qed.

Lemma total_insert_fresh c k v :
  c !! k = None → total (<[k := v]> c) = v + total c.
Proof.
  intros Hk. unfold total. rewrite map_fold_insert_L; [done | | done].
  intros. lia.
Qed.

Lemma total_incr c k n : total (incr k n c) = total c + n.
Proof.
  unfold incr, get. destruct (c !! k) as [v|] eqn:Hk; simpl.
  - rewrite <- insert_delete_eq.
    rewrite total_insert_fresh by apply lookup_delete_eq.
    unfold total at 2.
    rewrite (map_fold_delete_L _ _ k v c); [fold (total (delete k c)); lia | | done].
    intros. lia.
  - rewrite total_insert_fresh by done. lia.
Qed.

Lemma total_fold_incr (l : list K) c :
  total (fold_left (fun c k => incr k 1 c) l c) = total c + Z.of_nat (length l).
Proof.
  revert c. induction l as [|k l IH]; intros c; simpl.
  - lia.
  - rewrite IH, total_incr. lia.
Qed.
End CounterFacts.

(** ** The tables *)

Lemma stats_all_compiled : length stats = length stats_regex.
Proof. vm_compute. reflexivity. Qed.

Lemma line_re_compiled :
  compile (lit "(?:.*?:)?(?:.*?:)?(.*)$") = Some line_re.
Proof. vm_compute. reflexivity. Qed.

Lemma symbol_class_compiled :
  compile (lit "[" ++ SYMBOLS ++ lit "]") = Some (Seq (In_ false symbol_class) Empty).
Proof. vm_compute. reflexivity. Qed.

Lemma maketrans_fold (l : list (N * N)) (m : gmap N N) (c : N) :
  fold_left (fun m kv => <[fst kv := snd kv]> m) l m !! c =
  fold_left (fun o kv => if N.eqb c (fst kv) then Some (snd kv) else o) l (m !! c).
Proof.
  revert m. induction l as [|[k v] l IH]; intros m; simpl; [done|].
  rewrite IH. f_equal. destruct (N.eqb_spec c k) as [->|Hne].
  - by rewrite lookup_insert_eq.
  - by rewrite lookup_insert_ne.
Qed.

Lemma fold_assoc_absent (l : list (N * N)) (o : option N) (c : N) :
  inb c (map fst l) = false →
  fold_left (fun o kv => if N.eqb c (fst kv) then Some (snd kv) else o) l o = o.
Proof.
  revert o. induction l as [|[k v] l IH]; intros o; simpl; [done|].
  intros [Hk Hl]%orb_false_elim. rewrite Hk. by apply IH.
Qed.

Lemma inb_zip_fst (x y : str) (c : N) :
  inb c x = false → inb c (map fst (zip x y)) = false.
Proof.
  revert y. induction x as [|a x IH]; intros [|b y]; simpl; try done.
  intros [Ha Hx]%orb_false_elim. rewrite Ha. by apply IH.
Qed.

Lemma maketrans_absent (x y : str) (c : N) :
  inb c x = false → maketrans x y !! c = None.
Proof.
  intros Hc. unfold maketrans. rewrite maketrans_fold, lookup_empty.
  by apply fold_assoc_absent, inb_zip_fst.
Qed.

(** ** The Pattern Masker *)

(** C7: the shape pattern of a password has the length of the password,
    and a character outside the lowercase, uppercase, digit and symbol
    classes (the characters of [tr_from]) is left unchanged in place. *)
Theorem translate_keeps_length_and_foreign_chars (p : str) :
  length (translate trans p) = length p ∧
  ∀ (i : nat) (c : char),
    p !! i = Some c → inb c tr_from = false → translate trans p !! i = Some c.
Proof.
  split.
  - unfold translate. apply length_map.
  - intros i c Hi Hc. unfold translate.
    change (map ?f p) with (f <$> p).
    rewrite list_lookup_fmap, Hi.
    change (Some (default c (trans !! c)) = Some c).
    unfold trans. by rewrite maketrans_absent.
Qed.

Lemma translate_keeps_length_and_foreign_chars_witness :
  length (translate trans [ch "a"; 233%N; ch "1"]) = 3%nat ∧
  translate trans [ch "a"; 233%N; ch "1"] !! 1%nat = Some 233%N.
Proof.
  pose proof (translate_keeps_length_and_foreign_chars [ch "a"; 233%N; ch "1"])
    as [Hlen Hkeep].
  split.
  - exact Hlen.
  - apply Hkeep; vm_compute; reflexivity.
Defined.

Example translate_Password1 :
  translate trans (lit "Password1!") = lit "Aaaaaaaa1@".
Proof. vm_compute. reflexivity. Qed.

(** ** The symbol class of the rules and of the masker *)

(** C3, at the backslash: the masker maps it to the symbol marker, the
    symbol class of the rule patterns does not match it; so the rule
    "Has: First capital, last symbol" misses a password whose shape
    ends in the symbol marker. *)
Theorem backslash_is_masked_but_not_in_symbol_class `{UnicodeData} :
  trans !! backslash = Some (ch "@") ∧
  set_match false symbol_class backslash = false ∧
  translate trans [ch "A"; backslash] = [ch "A"; ch "@"] ∧
  (∀ r, (lit "Has: First capital, last symbol", r) ∈ stats →
        re_search r [ch "A"; backslash] = None).
Proof.
  split; [vm_compute; reflexivity|].
  split; [vm_compute; reflexivity|].
  split; [vm_compute; reflexivity|].
  intros r Hr. revert Hr.
  let v := eval vm_compute in stats in change stats with v.
  intros Hr.
  repeat (apply elem_of_cons in Hr as [Hr|Hr];
          [first [discriminate Hr | (simplify_eq; vm_compute; reflexivity)]|]).
  by apply elem_of_nil in Hr.
Qed.

Lemma symbol_class_literals :
  forallb (fun i => match i with CLit x => (x <? 128)%N | _ => false end)
          symbol_class = true.
Proof. vm_compute. reflexivity. Qed.

Lemma symbol_sets_agree_below_128 :
  forallb (fun n => N.eqb (N.of_nat n) backslash || same_symbol_status (N.of_nat n))
          (seq 0 128) = true.
Proof. vm_compute. reflexivity. Qed.

Lemma tr_from_below_128 : forallb (fun c => (c <? 128)%N) tr_from = true.
Proof. vm_compute. reflexivity. Qed.

(** A set of literals below 128 matches by comparison alone. *)
Lemma set_match_literals `{UnicodeData} (l : list citem) (c : char) :
  forallb (fun i => match i with CLit x => (x <? 128)%N | _ => false end) l = true →
  set_match false l c =
  existsb (fun i => match i with CLit x => N.eqb c x | _ => false end) l.
Proof.
  unfold set_match. simpl xorb.
  induction l as [|i l IH]; [done|].
  simpl. intros [Hi Hl]%andb_prop. rewrite (IH Hl). by destruct i.
Qed.

(** Every character but the backslash is in the symbol class of the
    rules exactly when the masker maps it to the symbol marker. *)
Lemma symbol_sets_agree_off_backslash `{UnicodeData} (c : char) :
  c ≠ backslash →
  set_match false symbol_class c = true ↔ trans !! c = Some (ch "@").
Proof.
  intros Hc.
  assert (Hlit : set_match false symbol_class c =
                 existsb (fun i => match i with CLit x => N.eqb c x | _ => false end)
                         symbol_class)
    by apply set_match_literals, symbol_class_literals.
  rewrite Hlit. clear Hlit.
  destruct (N.lt_ge_cases c 128) as [Hlt|Hge].
  - pose proof symbol_sets_agree_below_128 as Hall.
    rewrite forallb_forall in Hall.
    specialize (Hall (N.to_nat c)).
    rewrite N2Nat.id in Hall.
    assert (Hin : In (N.to_nat c) (seq 0 128)) by (apply in_seq; lia).
    apply Hall in Hin. apply orb_prop in Hin as [Heq|Hsame].
    + apply N.eqb_eq in Heq. done.
    + unfold same_symbol_status in Hsame. apply eqb_prop in Hsame.
      rewrite Hsame. apply bool_decide_eq_true.
  - assert (Hout : ∀ l : str, forallb (fun x => (x <? 128)%N) l = true → inb c l = false).
    { intros l Hl. apply not_true_is_false. intros [x [Hx Hcx]]%existsb_exists.
      apply N.eqb_eq in Hcx. subst x.
      rewrite forallb_forall in Hl. apply Hl, N.ltb_lt in Hx. lia. }
    split.
    + intros [i [Hi Hm]]%existsb_exists.
      pose proof symbol_class_literals as Hall.
      rewrite forallb_forall in Hall. specialize (Hall i Hi).
      destruct i as [x| |]; try done.
      apply N.eqb_eq in Hm. apply N.ltb_lt in Hall. lia.
    + unfold trans. rewrite maketrans_absent; [done|].
      apply Hout, tr_from_below_128.
Qed.

(** ** The Encoding Recoverer *)

(** C8: the candidate [$HEX[70617373776F7264]] decodes to [password];
    the hex digits are read pairwise, in either case. *)
Theorem recover_hex_password :
  recover (lit "$HEX[70617373776F7264]") = OK (lit "password") ∧
  recover (lit "$HEX[70617373776f7264]") = OK (lit "password").
Proof. split; vm_compute; reflexivity. Qed.

Lemma unhex_pairs_all_hex (s : str) :
  (∀ bytes, unhex_pairs s = Some bytes → ∀ c, c ∈ s → is_Some (hexval c)) ∧
  (∀ x bytes, unhex_pairs (x :: s) = Some bytes →
              ∀ c, c ∈ x :: s → is_Some (hexval c)).
Proof.
  induction s as [|y s [IH1 IH2]].
  - split.
    + intros _ _ c Hc. by apply elem_of_nil in Hc.
    + intros x bytes Hx. discriminate Hx.
  - split.
    + intros bytes. apply IH2.
    + intros x bytes Hx c Hc. simpl in Hx.
      destruct (hexval x) as [hi|] eqn:Ex; [|discriminate Hx].
      destruct (hexval y) as [lo|] eqn:Ey; [|discriminate Hx].
      destruct (unhex_pairs s) as [rest|] eqn:Es; [|discriminate Hx].
      apply elem_of_cons in Hc as [->|Hc]; [by rewrite Ex|].
      apply elem_of_cons in Hc as [->|Hc]; [by rewrite Ey|].
      by apply (IH1 rest).
Qed.

Lemma unhexlify_malformed (payload : str) :
  Nat.odd (length payload) = true ∨ (∃ c, c ∈ payload ∧ hexval c = None) →
  ∃ e, unhexlify payload = Raise e.
Proof.
  intros Hbad. unfold unhexlify.
  destruct (existsb _ payload); [by eexists|].
  destruct (Nat.odd (length payload)) eqn:Hodd; [by eexists|].
  destruct (unhex_pairs payload) as [bytes|] eqn:Hp; [|by eexists].
  destruct Hbad as [Ho|(c & Hc & Hnone)]; [discriminate Ho|].
  destruct (proj1 (unhex_pairs_all_hex payload) bytes Hp c Hc) as [v Hv].
  congruence.
Qed.

Lemma hex_wrapper_payload (payload : str) :
  drop 5 (take (length (lit "$HEX[" ++ payload ++ lit "]") - 1)
               (lit "$HEX[" ++ payload ++ lit "]")) = payload.
Proof.
  change (lit "$HEX[") with [36; 72; 69; 88; 91]%N.
  change (lit "]") with [93%N].
  replace (length ([36; 72; 69; 88; 91]%N ++ payload ++ [93%N]) - 1)%nat
    with (length ([36; 72; 69; 88; 91]%N ++ payload)).
  - rewrite (app_assoc _ payload), take_app_length. reflexivity.
  - rewrite !length_app. simpl. lia.
Qed.

Lemma recover_hex_wrapper (payload : str) :
  recover (lit "$HEX[" ++ payload ++ lit "]") =
  match unhexlify payload with
  | OK bytes => OK (decode_latin1 bytes)
  | Raise e => Raise e
  end.
Proof.
  unfold recover. rewrite hex_wrapper_payload.
  change (lit "$HEX[") with [36; 72; 69; 88; 91]%N.
  change (lit "]") with [93%N].
  assert (Hlast : last ([36; 72; 69; 88; 91]%N ++ payload ++ [93%N]) = Some (ch "]")).
  { rewrite app_assoc. apply last_snoc. }
  rewrite (bool_decide_eq_true_2 _ Hlast).
  reflexivity.
Qed.

Section PipelineFacts.
Context `{UnicodeData} `{FuzzyWuzzy}.
Variable a : args.
Variable categories : categories_t.

(** C6: a candidate [$HEX[...]] whose payload has odd length or holds a
    character that is no hex digit makes the recoverer raise, and the
    exception leaves the line loop: the undecoded value is never passed
    on. *)
Theorem recover_malformed_hex_raises (payload : str) :
  Nat.odd (length payload) = true ∨ (∃ c, c ∈ payload ∧ hexval c = None) →
  ∃ e, recover (lit "$HEX[" ++ payload ++ lit "]") = Raise e ∧
       ∀ st l, line_password l = OK (Some (lit "$HEX[" ++ payload ++ lit "]")) →
               process_line a categories st l = Raise e.
Proof.
  intros Hbad. destruct (unhexlify_malformed payload Hbad) as [e He].
  assert (Hrec : recover (lit "$HEX[" ++ payload ++ lit "]") = Raise e)
    by (by rewrite recover_hex_wrapper, He).
  exists e. split; [exact Hrec|].
  intros st l Hl. unfold process_line. rewrite Hl.
  remember (lit "$HEX[" ++ payload ++ lit "]") as p eqn:Hp.
  destruct p as [|x p]; [discriminate Hp|].
  cbn [mbind result_bind]. rewrite Hrec. reflexivity.
Qed.

End PipelineFacts.

(** ** The Line Normalizer *)

Lemma line_re_shape :
  line_re = Seq (Opt true prefix_re) (Seq (Opt true prefix_re) tail_re).
Proof. vm_compute. reflexivity. Qed.

Lemma after_colon_suffix (s rest : str) (x : char) :
  after_colon s = Some rest → x ∉ s → x ∉ rest.
Proof.
  revert rest. induction s as [|c s IH]; intros rest; simpl; [done|].
  destruct (N.eqb c (ch ":")); intros Hs [_ Hx]%not_elem_of_cons.
  - by simplify_eq.
  - by apply IH.
Qed.

Lemma strip_prefix_suffix (s : str) (x : char) : x ∉ s → x ∉ strip_prefix s.
Proof.
  unfold strip_prefix. destruct (after_colon s) as [rest|] eqn:Hs; simpl; [|done].
  by apply after_colon_suffix.
Qed.

Lemma after_colon_no_colon (s : str) : ch ":" ∉ s → after_colon s = None.
Proof.
  induction s as [|c s IH]; simpl; [done|].
  intros [Hc Hs]%not_elem_of_cons.
  destruct (N.eqb_spec c (ch ":")) as [->|_]; [done|]. by apply IH.
Qed.

Lemma strip_prefix_no_colon (s : str) : ch ":" ∉ s → strip_prefix s = s.
Proof.
  intros Hs. unfold strip_prefix. by rewrite after_colon_no_colon.
Qed.

Lemma after_colon_first (u v : str) :
  ch ":" ∉ u → after_colon (u ++ ch ":" :: v) = Some v.
Proof.
  induction u as [|c u IH]; simpl.
  - done.
  - intros [Hc Hu]%not_elem_of_cons.
    destruct (N.eqb_spec c (ch ":")) as [->|_]; [done|]. by apply IH.
Qed.

Lemma strip_prefix_colon (u v : str) :
  ch ":" ∉ u → strip_prefix (u ++ ch ":" :: v) = v.
Proof.
  intros Hu. unfold strip_prefix. by rewrite after_colon_first.
Qed.

Section LineNormalizer.
Context `{UnicodeData}.
Variable inp : str.

Lemma mtch_any_step : any_step (mtch Any inp).
Proof. intros s g k. reflexivity. Qed.

(** The greedy [.*] runs to the end of a line without newline. *)
Lemma greedy_any_all body (k : str → caps → option caps) (s : str) :
  any_step body →
  ∀ (n : nat) (g r : caps),
    newline ∉ s → (length s ≤ n)%nat → k [] g = Some r →
    repeat_loop body true k n s g = Some r.
Proof.
  intros Hbody.
  induction s as [|x s IH]; intros n g r Hnl Hn Hk.
  - destruct n; simpl; [done|]. by rewrite Hbody, Hk.
  - destruct n as [|n]; simpl in Hn; [lia|].
    apply not_elem_of_cons in Hnl as [Hx Hs].
    cbn [repeat_loop]. rewrite Hbody.
    destruct (N.eqb_spec x newline) as [->|_]; [done|].
    assert (Hlt : (length s <? length (x :: s))%nat = true)
      by (apply Nat.ltb_lt; simpl; lia).
    rewrite Hlt. rewrite (IH n g r); [done|done|lia|done].
Qed.

Lemma tail_re_match (s : str) (g : caps) :
  newline ∉ s →
  mtch tail_re inp s g (fun _ g' => Some g') = Some ((1%nat, s) :: g).
Proof.
  intros Hnl. unfold tail_re. cbn [mtch].
  apply greedy_any_all; [apply mtch_any_step|done|lia|].
  cbn. by rewrite Nat.sub_0_r, take_ge.
Qed.

(** The lazy [.*?] stops at the first colon when the rest of the
    pattern matches after every colon. *)
Lemma lazy_any_to_colon body (k K : str → caps → option caps) (s : str) :
  any_step body →
  (∀ g, k [] g = None) →
  (∀ x s' g, k (x :: s') g = if N.eqb x (ch ":") then K s' g else None) →
  ∀ (n : nat) (g : caps),
    newline ∉ s → (length s ≤ n)%nat →
    (∀ s', newline ∉ s' → is_Some (K s' g)) →
    repeat_loop body false k n s g =
    match after_colon s with
    | Some rest => K rest g
    | None => None
    end.
Proof.
  intros Hbody Hnil Hcons.
  induction s as [|x s IH]; intros n g Hnl Hn HK.
  - destruct n; simpl; by rewrite ?Hbody, Hnil.
  - destruct n as [|n]; simpl in Hn; [lia|].
    apply not_elem_of_cons in Hnl as [Hx Hs].
    cbn [repeat_loop after_colon]. rewrite Hcons, Hbody.
    destruct (N.eqb x (ch ":")).
    + destruct (HK s Hs) as [r Hr]. by rewrite Hr.
    + destruct (N.eqb_spec x newline) as [->|_]; [done|].
      assert (Hlt : (length s <? length (x :: s))%nat = true)
        by (apply Nat.ltb_lt; simpl; lia).
      rewrite Hlt. apply IH; [done|lia|done].
Qed.

Lemma opt_prefix_match (K : str → caps → option caps) (s : str) (g : caps) :
  newline ∉ s →
  (∀ s', newline ∉ s' → is_Some (K s' g)) →
  mtch (Opt true prefix_re) inp s g K = K (strip_prefix s) g.
Proof.
  intros Hnl HK. unfold prefix_re, strip_prefix. cbn [mtch].
  rewrite (lazy_any_to_colon _ _ K); [|apply mtch_any_step|done| |done|lia|done].
  - destruct (after_colon s) as [rest|] eqn:Hs; simpl; [|done].
    destruct (HK rest) as [r Hr]; [by eapply after_colon_suffix|].
    by rewrite Hr.
  - intros x s' g'. by destruct (N.eqb x (ch ":")).
Qed.

Lemma mtch_seq (r1 r2 : re) (s : str) (g : caps) k :
  mtch (Seq r1 r2) inp s g k =
  mtch r1 inp s g (fun s' g' => mtch r2 inp s' g' k).
Proof. reflexivity. Qed.

Lemma opt_prefix_tail_match (s : str) (g : caps) :
  newline ∉ s →
  mtch (Seq (Opt true prefix_re) tail_re) inp s g (fun _ g' => Some g') =
  Some ((1%nat, strip_prefix s) :: g).
Proof.
  intros Hnl. rewrite mtch_seq, opt_prefix_match; [|done|].
  - apply tail_re_match. by apply strip_prefix_suffix.
  - intros s' Hs'. rewrite tail_re_match by done. by eexists.
Qed.

Lemma line_re_match (s : str) (g : caps) :
  newline ∉ s →
  mtch line_re inp s g (fun _ g' => Some g') =
  Some ((1%nat, strip_prefix (strip_prefix s)) :: g).
Proof.
  intros Hnl. rewrite line_re_shape, mtch_seq, opt_prefix_match; [|done|].
  - apply opt_prefix_tail_match. by apply strip_prefix_suffix.
  - intros s' Hs'. rewrite opt_prefix_tail_match by done. by eexists.
Qed.
End LineNormalizer.

Lemma elem_of_rev (x : char) (l : str) : x ∈ rev l ↔ x ∈ l.
Proof. rewrite !list_elem_of_In. symmetry. apply in_rev. Qed.

Lemma splitlines_aux_no_newline (n : nat) :
  ∀ text cur l : str,
    (length text ≤ n)%nat →
    l ∈ splitlines_aux cur text → newline ∉ cur → newline ∉ l.
Proof.
  induction n as [|n IH]; intros text cur l Hn.
  - destruct text; [|simpl in Hn; lia]. simpl.
    destruct cur as [|x cur]; [by intros ?%elem_of_nil|].
    intros ->%list_elem_of_singleton Hcur. by rewrite elem_of_rev.
  - destruct text as [|c text].
    { simpl. destruct cur as [|x cur]; [by intros ?%elem_of_nil|].
      intros ->%list_elem_of_singleton Hcur. by rewrite elem_of_rev. }
    simpl in Hn. simpl.
    destruct (is_linebreak c) eqn:Hc.
    + assert (Hstep : ∀ rest : str, (length rest ≤ n)%nat →
                l ∈ rev cur :: splitlines_aux [] rest →
                newline ∉ cur → newline ∉ l).
      { intros rest Hrest [->|Hl]%elem_of_cons Hcur.
        - by rewrite elem_of_rev.
        - apply (IH rest [] l Hrest Hl). apply not_elem_of_nil. }
      destruct text as [|d text']; [apply Hstep; simpl; lia|].
      destruct (N.eqb c 13 && N.eqb d 10); apply Hstep; simpl in *; lia.
    + intros Hl Hcur. apply (IH text (c :: cur) l); [lia|done|].
      apply not_elem_of_cons. split; [|done].
      intros <-. discriminate Hc.
Qed.

Lemma splitlines_no_newline (text l : str) :
  l ∈ splitlines text → newline ∉ l.
Proof.
  intros Hl.
  apply (splitlines_aux_no_newline (length text) text [] l); [lia|done|].
  apply not_elem_of_nil.
Qed.

Section LineNormalizerClaim.
Context `{UnicodeData}.

(** C5: for every line of the input, the normalizer strips at most two
    leading colon-delimited prefixes and keeps whatever follows, with
    its colons: the password is the line after its first colon (if
    any), after the first colon of that (if any). *)
Theorem line_password_strips_two_prefixes (text l : str) :
  l ∈ splitlines text →
  line_password l = OK (Some (strip_prefix (strip_prefix l))).
Proof.
  intros Hl%splitlines_no_newline.
  unfold line_password, re_match.
  rewrite line_re_match by done. simpl. reflexivity.
Qed.
End LineNormalizerClaim.

(** ** The Fuzzy Category Resolver *)

Section FuzzyFacts.
Variable categories : categories_t.



End FuzzyFacts.

(** ** The line loop *)

Section LoopFacts.
Context `{UnicodeData} `{FuzzyWuzzy}.
Variable a : args.
Variable categories : categories_t.

Lemma labels_length (pc : gset str) : (1 ≤ length (labels pc))%nat.
Proof.
  unfold labels. case_bool_decide as Hpc; [simpl; lia|].
  destruct (elements pc) as [|x l] eqn:Hel; [|simpl; lia].
  by apply elements_empty_inv, leibniz_equiv in Hel.
Qed.

(** What the fuzzy matching adds to the category counters. *)
Lemma categorize_total (p : str) (root c root' c' : gmap str Z) :
  categorize a categories p root c = OK (root', c') →
  if reaches_categories a categories p then 1 + total c ≤ total c'
  else c' = c ∧ root' = root.
Proof.
  unfold categorize. destruct (reaches_categories a categories p).
  - destruct (fuzzy_loop _ _ _) as [[r pc]|e]; [|done].
    cbn [mbind result_bind mret result_ret]. intros [= <- <-].
    rewrite total_fold_incr.
    pose proof (labels_length pc). lia.
  - cbn [mret result_ret]. by intros [= <- <-].
Qed.

(** The fields of the counters after a password is classified. *)
Lemma classify_OK (p : str) (c c' : counters) :
  classify a categories p c = OK c' →
  ∃ root' cnt' num alpha symbol totals,
    categorize a categories p (cnt_root c) (cnt c) = OK (root', cnt') ∧
    letter_frequency a p (cnt_num c, cnt_alpha c, cnt_symbol c, cnt_totals c)
      = (num, alpha, symbol, totals) ∧
    c' = {| cnt := cnt';
            cnt_length := incr (Z.of_nat (length p)) 1 (cnt_length c);
            cnt_pwd := incr p 1 (cnt_pwd c);
            cnt_root := root';
            cnt_regex := match_rules p (cnt_regex c);
            cnt_symbol := symbol; cnt_alpha := alpha; cnt_num := num;
            cnt_totals := totals;
            cnt_pattern := incr (translate trans p) 1 (cnt_pattern c) |}.
Proof.
  unfold classify.
  destruct (letter_frequency a p _) as [[[num alpha] symbol] totals].
  destruct (categorize a categories p _ _) as [[root' cnt']|e];
    cbn [mbind result_bind mret result_ret]; [|discriminate].
  intros [= <-]. by exists root', cnt', num, alpha, symbol, totals.
Qed.

(** The three outcomes of a line that does not raise. *)
Lemma process_line_OK (st st' : loop_state) (l : str) :
  process_line a categories st l = OK st' →
  (line_password l = OK None ∨ line_password l = OK (Some [])) ∧
    st' = with_progress st (progress st + 1)
  ∨ ∃ x p p' c',
      line_password l = OK (Some (x :: p)) ∧ recover (x :: p) = OK p' ∧
      classify a categories p' (ctrs st) = OK c' ∧
      st' = {| ctrs := c'; progress := progress st + 1;
               valid_passwords := valid_passwords st + 1 |}.
Proof.
  unfold process_line.
  destruct (line_password l) as [[[|x p]|]|e];
    cbn [mbind result_bind mret result_ret]; [| | |discriminate].
  - intros [= <-]. left. by split; [right|].
  - destruct (recover (x :: p)) as [p'|e] eqn:Hrec;
      cbn [mbind result_bind mret result_ret]; [|discriminate].
    destruct (classify a categories p' (ctrs st)) as [c'|e] eqn:Hcls;
      cbn [mbind result_bind mret result_ret]; [|discriminate].
    intros [= <-]. right. by exists x, p, p', c'.
  - intros [= <-]. left. by split; [left|].
Qed.
End LoopFacts.

(** ** Category counters and valid passwords *)

Section CategoryTotals.
Context `{UnicodeData} `{FuzzyWuzzy}.
Variable a : args.
Variable categories : categories_t.

Lemma process_line_category_total (st st' : loop_state) (l : str) :
  process_line a categories st l = OK st' →
  total (cnt (ctrs st)) + categorized_count a categories [l] ≤ total (cnt (ctrs st')).
Proof.
  intros Hline. unfold categorized_count, categorized_line. cbn [List.filter].
  destruct (process_line_OK a categories st st' l Hline)
    as [[Hpw ->]|(x & p & p' & c' & Hpw & Hrec & Hcls & ->)].
  - destruct Hpw as [-> | ->]; simpl; lia.
  - rewrite Hpw, Hrec. cbn [ctrs].
    destruct (classify_OK a categories p' (ctrs st) c' Hcls)
      as (root' & cnt' & num & al & sy & tot & Hcat & _ & ->).
    cbn [cnt]. apply categorize_total in Hcat.
    destruct (reaches_categories a categories p'); simpl.
    + lia.
    + destruct Hcat as [-> _]. lia.
Qed.

Lemma categorized_count_cons (l : str) (lines : list str) :
  categorized_count a categories (l :: lines) = categorized_count a categories [l] + categorized_count a categories lines.
Proof.
  unfold categorized_count. cbn [List.filter].
  destruct (categorized_line a categories l); simpl length; lia.
Qed.

Lemma categorized_count_app (l1 l2 : list str) :
  categorized_count a categories (l1 ++ l2) = categorized_count a categories l1 + categorized_count a categories l2.
Proof.
  unfold categorized_count. rewrite List.filter_app, length_app. lia.
Qed.

Lemma process_lines_category_total (lines : list str) (st st' : loop_state) :
  process_lines a categories lines st = OK st' →
  total (cnt (ctrs st)) + categorized_count a categories lines ≤ total (cnt (ctrs st')).
Proof.
  revert st. induction lines as [|l lines IH]; intros st.
  - simpl. intros [= <-]. unfold categorized_count. simpl. lia.
  - cbn [process_lines].
    destruct (process_line a categories st l) as [st1|e] eqn:Hline;
      cbn [mbind result_bind]; [|discriminate].
    intros Hrest. apply IH in Hrest.
    apply process_line_category_total in Hline.
    rewrite categorized_count_cons. lia.
Qed.

Lemma process_files_category_total (files : list str) (rs rs' : run_state) :
  process_files a categories files rs = OK rs' →
  total (cnt (run_ctrs rs)) + categorized_count a categories (concat (map splitlines files))
  ≤ total (cnt (run_ctrs rs')).
Proof.
  revert rs. induction files as [|f files IH]; intros rs.
  - simpl. intros [= <-]. unfold categorized_count. simpl. lia.
  - cbn [process_files].
    destruct (process_file a categories rs f) as [rs1|e] eqn:Hfile;
      cbn [mbind result_bind]; [|discriminate].
    intros Hrest. apply IH in Hrest.
    unfold process_file, process_file_lines in Hfile.
    destruct (process_lines a categories (splitlines f) _) as [st1|e] eqn:Hlines;
      cbn [mbind result_bind mret result_ret] in Hfile; [|discriminate].
    injection Hfile as <-. cbn [run_ctrs] in Hrest.
    apply process_lines_category_total in Hlines. cbn [ctrs] in Hlines.
    cbn [map concat]. rewrite categorized_count_app. lia.
Qed.

(** C1, as the code has it: in a completed run every password that
    reaches the fuzzy matching (more than three characters once
    recovered, categories enabled, a non-empty word set) is counted in
    at least one category counter, the sentinel included; so the sum
    of the category counters is at least the number of those
    passwords. *)
Theorem category_total_covers_categorized (files : list str) (rs : run_state) :
  run a categories files = OK rs →
  categorized_count a categories (concat (map splitlines files))
  ≤ total (cnt (run_ctrs rs)).
Proof.
  unfold run. intros Hrun%process_files_category_total.
  unfold start in Hrun. cbn [run_ctrs empty_counters cnt] in Hrun.
  rewrite total_empty in Hrun. lia.
Qed.
End CategoryTotals.

(** ** Letter frequencies *)

Ltac distinct_keys := let E := fresh in intros E; vm_compute in E; discriminate E.

Ltac counter_simpl :=
  repeat first
    [ rewrite get_incr_eq
    | rewrite get_incr_ne by distinct_keys
    | rewrite total_incr ].

Section LetterFacts.
Context `{UnicodeData} `{FuzzyWuzzy}.
Variable a : args.
Variable categories : categories_t.

Lemma count_letter_ok (pending : Z) (acc : letter_counters) (x : char) :
  letters_ok pending acc → letters_ok (pending - 1) (count_letter acc x).
Proof.
  destruct acc as [[[num alpha] symbol] totals].
  unfold count_letter, letters_ok. intros (Hsum & Hnum & Halpha & Hsymbol).
  destruct (isnumeric x); [|destruct (isalpha x)];
    counter_simpl; repeat split; lia.
Qed.

Lemma fold_count_letter_ok (p : str) :
  ∀ (pending : Z) (acc : letter_counters),
    letters_ok pending acc →
    letters_ok (pending - Z.of_nat (length p)) (fold_left count_letter p acc).
Proof.
  induction p as [|x p IH]; intros pending acc Hacc.
  - simpl. by rewrite Z.sub_0_r.
  - cbn [fold_left length].
    replace (pending - Z.of_nat (S (length p)))
      with (pending - 1 - Z.of_nat (length p)) by lia.
    by apply IH, count_letter_ok.
Qed.

Lemma letter_frequency_ok (p : str) (acc : letter_counters) :
  letters_ok 0 acc → letters_ok 0 (letter_frequency a p acc).
Proof.
  intros Hacc. unfold letter_frequency. destruct (freq a); [|done].
  destruct acc as [[[num alpha] symbol] totals].
  replace 0 with (Z.of_nat (length p) - Z.of_nat (length p)) at 1 by lia.
  apply fold_count_letter_ok.
  unfold letters_ok in *. destruct Hacc as (Hsum & Hnum & Halpha & Hsymbol).
  counter_simpl. repeat split; lia.
Qed.

Lemma letters_consistent_ok (c : counters) :
  letters_consistent c ↔
  letters_ok 0 (cnt_num c, cnt_alpha c, cnt_symbol c, cnt_totals c).
Proof. unfold letters_consistent, letters_ok. by rewrite Z.add_0_r. Qed.

Lemma classify_letters (p : str) (c c' : counters) :
  classify a categories p c = OK c' →
  letters_consistent c → letters_consistent c'.
Proof.
  intros (root' & cnt' & num & al & sy & tot & _ & Hfreq & ->)%classify_OK Hc.
  apply letters_consistent_ok in Hc.
  apply (letter_frequency_ok p) in Hc. rewrite Hfreq in Hc.
  by apply letters_consistent_ok.
Qed.

Lemma process_line_letters (st st' : loop_state) (l : str) :
  process_line a categories st l = OK st' →
  letters_consistent (ctrs st) → letters_consistent (ctrs st').
Proof.
  intros [[_ ->]|(x & p & p' & c' & _ & _ & Hcls & ->)]%process_line_OK Hst.
  - exact Hst.
  - by eapply classify_letters.
Qed.

Lemma process_lines_letters (lines : list str) (st st' : loop_state) :
  process_lines a categories lines st = OK st' →
  letters_consistent (ctrs st) → letters_consistent (ctrs st').
Proof.
  revert st. induction lines as [|l lines IH]; intros st.
  - simpl. by intros [= <-].
  - cbn [process_lines].
    destruct (process_line a categories st l) as [st1|e] eqn:Hline;
      cbn [mbind result_bind]; [|discriminate].
    intros Hrest Hst. apply (IH _ Hrest). by eapply process_line_letters.
Qed.

Lemma process_files_letters (files : list str) (rs rs' : run_state) :
  process_files a categories files rs = OK rs' →
  letters_consistent (run_ctrs rs) → letters_consistent (run_ctrs rs').
Proof.
  revert rs. induction files as [|f files IH]; intros rs.
  - simpl. by intros [= <-].
  - cbn [process_files].
    destruct (process_file a categories rs f) as [rs1|e] eqn:Hfile;
      cbn [mbind result_bind]; [|discriminate].
    intros Hrest Hrs. apply (IH _ Hrest).
    unfold process_file, process_file_lines in Hfile.
    destruct (process_lines a categories (splitlines f) _) as [st1|e] eqn:Hlines;
      cbn [mbind result_bind mret result_ret] in Hfile; [|discriminate].
    injection Hfile as <-. cbn [run_ctrs].
    by apply (process_lines_letters _ _ _ Hlines).
Qed.
End LetterFacts.

(** ** Empty passwords *)

Section EmptyPasswords.
Context `{UnicodeData} `{FuzzyWuzzy}.
Variable a : args.
Variable categories : categories_t.

(** The progress count does not influence the counters. *)
Lemma process_line_progress (st st' : loop_state) (l : str) (n : Z) :
  process_line a categories st l = OK st' →
  process_line a categories (with_progress st n) l
  = OK (with_progress st' (n + 1)).
Proof.
  unfold process_line, with_progress. cbn [ctrs progress valid_passwords].
  destruct (line_password l) as [[[|x p]|]|e];
    cbn [mbind result_bind mret result_ret]; [| | |discriminate].
  - by intros [= <-].
  - destruct (recover (x :: p)) as [p'|e];
      cbn [mbind result_bind mret result_ret]; [|discriminate].
    destruct (classify a categories p' (ctrs st)) as [c'|e];
      cbn [mbind result_bind mret result_ret]; [|discriminate].
    by intros [= <-].
  - by intros [= <-].
Qed.

Lemma process_lines_progress (lines : list str) :
  ∀ (st st' : loop_state) (n : Z),
    process_lines a categories lines st = OK st' →
    process_lines a categories lines (with_progress st n)
    = OK (with_progress st' (n + Z.of_nat (length lines))).
Proof.
  induction lines as [|l lines IH]; intros st st' n.
  - simpl. intros [= <-]. by rewrite Z.add_0_r.
  - cbn [process_lines].
    destruct (process_line a categories st l) as [st1|e] eqn:Hline;
      cbn [mbind result_bind]; [|discriminate].
    intros Hrest.
    rewrite (process_line_progress _ _ _ n Hline). cbn [mbind result_bind].
    rewrite (IH _ _ (n + 1) Hrest). do 2 f_equal. simpl length. lia.
Qed.

Lemma process_lines_app (l1 l2 : list str) (st : loop_state) :
  process_lines a categories (l1 ++ l2) st
  = st1 ← process_lines a categories l1 st; process_lines a categories l2 st1.
Proof.
  revert st. induction l1 as [|l l1 IH]; intros st; [done|].
  cbn [app process_lines].
  destruct (process_line a categories st l) as [st1|e];
    cbn [mbind result_bind]; [apply IH|done].
Qed.

Lemma process_line_empty (st : loop_state) (l : str) :
  line_password l = OK (Some []) →
  process_line a categories st l = OK (with_progress st (progress st + 1)).
Proof. intros Hl. unfold process_line. by rewrite Hl. Qed.

Lemma with_progress_id (st : loop_state) : with_progress st (progress st) = st.
Proof. by destruct st. Qed.

(** C9: a line that normalizes to an empty password is counted as a
    line read and as nothing else: the file processed without the line
    ends with the same counters and the same number of valid
    passwords, and with one line less in the total of lines read. *)
Theorem empty_password_line_counts_only_as_read
    (rs rs' : run_state) (before after : list str) (l : str) :
  line_password l = OK (Some []) →
  process_file_lines a categories rs (before ++ l :: after) = OK rs' →
  ∃ rs'', process_file_lines a categories rs (before ++ after) = OK rs'' ∧
          run_ctrs rs'' = run_ctrs rs' ∧
          total_valid_passwords rs'' = total_valid_passwords rs' ∧
          grand_total rs' = grand_total rs'' + 1.
Proof.
  intros Hl. unfold process_file_lines.
  rewrite !process_lines_app. cbn [process_lines].
  destruct (process_lines a categories before _) as [st1|e];
    cbn [mbind result_bind mret result_ret]; [|discriminate].
  rewrite (process_line_empty st1 l Hl). cbn [mbind result_bind].
  destruct (process_lines a categories after st1) as [st2|e] eqn:Hafter;
    cbn [mbind result_bind mret result_ret].
  - apply (process_lines_progress _ _ _ (progress st1 + 1)) in Hafter as Hshift.
    rewrite Hshift. cbn [mbind result_bind].
    intros [= <-]. eexists. split; [reflexivity|].
    cbn [run_ctrs total_valid_passwords grand_total with_progress ctrs valid_passwords].
    repeat split. rewrite !length_app. simpl length. lia.
  - pose proof (process_lines_progress after (with_progress st1 (progress st1 + 1)))
      as Hshift.
    destruct (process_lines a categories after (with_progress st1 (progress st1 + 1)))
      as [st2|e'] eqn:Hafter'; cbn [mbind result_bind]; [|discriminate].
    specialize (Hshift st2 (progress st1) eq_refl).
    unfold with_progress at 1 2 in Hshift. cbn [ctrs valid_passwords] in Hshift.
    fold (with_progress st1 (progress st1)) in Hshift.
    rewrite with_progress_id, Hafter in Hshift. discriminate Hshift.
Qed.

(** C2, at the line [$HEX[]]: the password field is not empty, so the
    line counts as a valid password; it is recovered to the empty
    password, which is then classified: the counters of length [0], of
    the empty value and of the empty shape grow by one. *)
Theorem hex_empty_password_is_classified (st : loop_state) :
  ∃ st', process_line a categories st (lit "$HEX[]") = OK st' ∧
         recover (lit "$HEX[]") = OK [] ∧
         valid_passwords st' = valid_passwords st + 1 ∧
         get (cnt_length (ctrs st')) 0 = get (cnt_length (ctrs st)) 0 + 1 ∧
         get (cnt_pwd (ctrs st')) [] = get (cnt_pwd (ctrs st)) [] + 1 ∧
         get (cnt_pattern (ctrs st')) [] = get (cnt_pattern (ctrs st)) [] + 1.
Proof.
  assert (Hl : line_password (lit "$HEX[]") = OK (Some (lit "$HEX[]")))
    by (vm_compute; reflexivity).
  assert (Hrec : recover (lit "$HEX[]") = OK []) by (vm_compute; reflexivity).
  unfold process_line. rewrite Hl.
  change (lit "$HEX[]") with [36; 72; 69; 88; 91; 93]%N in *.
  cbn [mbind result_bind]. rewrite Hrec. cbn [mbind result_bind].
  unfold classify.
  destruct (letter_frequency a [] _) as [[[num alpha] symbol] totals].
  assert (Hcat : ∀ root c, categorize a categories [] root c = OK (root, c))
    by done.
  rewrite Hcat. cbn [mbind result_bind mret result_ret].
  eexists. split; [reflexivity|].
  cbn [ctrs valid_passwords cnt_length cnt_pwd cnt_pattern].
  change (translate trans []) with (@nil N). change (Z.of_nat (length (@nil N))) with 0.
  rewrite !get_incr_eq. done.
Qed.
End EmptyPasswords.

(** ** The pipeline on concrete inputs *)

Section Examples.
#[local] Existing Instance ascii_unicode.
#[local] Existing Instance prefix_fuzzy.

Example normalize_user_hash_password :
  line_password (lit "user:hash:pass:word") = OK (Some (lit "pass:word")) ∧
  line_password (lit "a:b") = OK (Some (lit "b")) ∧
  line_password (lit "password") = OK (Some (lit "password")) ∧
  line_password (lit "alice:5f4dcc3b5aa765d61d8327deb882cf99:Password1!")
    = OK (Some (lit "Password1!")).
Proof. repeat split; vm_compute; reflexivity. Qed.

Lemma line_password_strips_two_prefixes_witness :
  lit "user:hash:pass:word"
    ∈ splitlines (lit "user:hash:pass:word" ++ [newline] ++ lit "a:b") ∧
  line_password (lit "user:hash:pass:word") = OK (Some (lit "pass:word")).
Proof.
  assert (Hin : lit "user:hash:pass:word"
                ∈ splitlines (lit "user:hash:pass:word" ++ [newline] ++ lit "a:b")).
  { vm_compute. apply list_elem_of_here. }
  split; [exact Hin|].
  exact (line_password_strips_two_prefixes _ _ Hin).
Defined.

Example recover_examples :
  recover (lit "$HEX[7]") = Raise BinasciiError ∧
  recover (lit "$HEX[zz]") = Raise BinasciiError ∧
  recover (lit "$HEX[") = OK (lit "$HEX[") ∧
  recover (lit "plain") = OK (lit "plain").
Proof. repeat split; vm_compute; reflexivity. Qed.

Lemma recover_malformed_hex_raises_witness :
  (Nat.odd (length (lit "7")) = true ∨ (∃ c, c ∈ lit "7" ∧ hexval c = None)) ∧
  ∃ e, recover (lit "$HEX[" ++ lit "7" ++ lit "]") = Raise e ∧
       ∀ st l, line_password l = OK (Some (lit "$HEX[" ++ lit "7" ++ lit "]")) →
               process_line sample_args sample_categories st l = Raise e.
Proof.
  assert (Hodd : Nat.odd (length (lit "7")) = true ∨
                 (∃ c, c ∈ lit "7" ∧ hexval c = None))
    by (left; reflexivity).
  split; [exact Hodd|].
  exact (recover_malformed_hex_raises sample_args sample_categories (lit "7") Hodd).
Defined.

Example fuzzy_step_at_the_threshold :
  fuzzy_step sample_categories (∅, ∅) (lit "lion", 80) = OK (∅, ∅) ∧
  fuzzy_step sample_categories (∅, ∅) (lit "lion", 81)
    = OK (incr (lit "lion") 1 ∅, ∅ ∪ list_to_set [lit "animal"]).
Proof. split; vm_compute; reflexivity. Qed.


(** C1 fails as stated: a password of three characters is valid and is
    counted in no category counter; a password whose word is in two
    categories is counted in two. *)
Lemma category_total_differs_from_valid_count :
  (∃ rs, run sample_args sample_categories [lit "abc"] = OK rs ∧
         total_valid_passwords rs = 1 ∧ total (cnt (run_ctrs rs)) = 0) ∧
  (∃ rs, run sample_args sample_categories [lit "tiger"] = OK rs ∧
         total_valid_passwords rs = 1 ∧ total (cnt (run_ctrs rs)) = 2).
Proof.
  split; eexists; (split; [vm_compute; reflexivity|]);
    split; vm_compute; reflexivity.
Qed.

Lemma category_total_covers_categorized_witness :
  ∃ rs, run sample_args sample_categories
          [lit "abc" ++ [newline] ++ lit "tiger"; lit "user:lions1"] = OK rs ∧
        categorized_count sample_args sample_categories
          (concat (map splitlines
             [lit "abc" ++ [newline] ++ lit "tiger"; lit "user:lions1"]))
        ≤ total (cnt (run_ctrs rs)).
Proof.
  eexists. split; [vm_compute; reflexivity|].
  apply category_total_covers_categorized.
  vm_compute. reflexivity.
Defined.

Lemma empty_password_line_counts_only_as_read_witness :
  line_password (lit "user:") = OK (Some []) ∧
  ∃ rs', process_file_lines sample_args sample_categories start
           ([lit "abc"] ++ lit "user:" :: [lit "tiger"]) = OK rs' ∧
  ∃ rs'', process_file_lines sample_args sample_categories start
            ([lit "abc"] ++ [lit "tiger"]) = OK rs'' ∧
          run_ctrs rs'' = run_ctrs rs' ∧
          total_valid_passwords rs'' = total_valid_passwords rs' ∧
          grand_total rs' = grand_total rs'' + 1.
Proof.
  assert (Hl : line_password (lit "user:") = OK (Some []))
    by (vm_compute; reflexivity).
  split; [exact Hl|].
  eexists. split; [vm_compute; reflexivity|].
  apply (empty_password_line_counts_only_as_read
           sample_args sample_categories start _ [lit "abc"] [lit "tiger"]
           (lit "user:") Hl).
  vm_compute. reflexivity.
Defined.

(** The scenarios of the specification. *)
Example scenario_Password1 :
  ∃ rs, run sample_args sample_categories
          [lit "alice:5f4dcc3b5aa765d61d8327deb882cf99:Password1!"] = OK rs ∧
        get (cnt_length (run_ctrs rs)) 10 = 1 ∧
        get (cnt_regex (run_ctrs rs)) (lit "Has: Upper + lower + num + symbol") = 1 ∧
        get (cnt_regex (run_ctrs rs)) (lit "Seq: 1 upper > lower > num or symbol") = 1.
Proof.
  eexists. split; [vm_compute; reflexivity|].
  repeat split; vm_compute; reflexivity.
Qed.

Example scenario_abc_twice :
  ∃ rs, run sample_args sample_categories [lit "abc" ++ [newline] ++ lit "abc"] = OK rs ∧
        get (cnt_pwd (run_ctrs rs)) (lit "abc") = 2 ∧
        get (cnt_length (run_ctrs rs)) 3 = 2.
Proof.
  eexists. split; [vm_compute; reflexivity|].
  repeat split; vm_compute; reflexivity.
Qed.
End Examples.

(* ===================================================================== *)
(** * Further properties of the run *)
(* ===================================================================== *)

(** ** Counters only grow *)

Section CounterOrder.
Context {K : Type} `{Countable K}.
Implicit Types (c : gmap K Z) (k j : K) (n : Z).

Lemma map_le_refl c : map_le c c.
Proof. intros k. lia. Qed.

Lemma map_le_trans c1 c2 c3 : map_le c1 c2 → map_le c2 c3 → map_le c1 c3.
Proof. intros H12 H23 k. specialize (H12 k). specialize (H23 k). lia. Qed.

Lemma map_le_incr c k n : 0 ≤ n → map_le c (incr k n c).
Proof.
  intros Hn j. destruct (decide (k = j)) as [->|Hne].
  - rewrite get_incr_eq. lia.
  - rewrite get_incr_ne by done. lia.
Qed.

Lemma map_le_fold_incr (l : list K) c :
  map_le c (fold_left (fun c k => incr k 1 c) l c).
Proof.
  revert c. induction l as [|k l IH]; intros c; simpl; [apply map_le_refl|].
  eapply map_le_trans; [|apply IH]. apply map_le_incr. lia.
Qed.

Lemma positive_incr c k : positive c → positive (incr k 1 c).
Proof.
  intros Hc j v. unfold incr, get.
  destruct (decide (k = j)) as [->|Hne].
  - rewrite lookup_insert_eq. intros [= <-].
    destruct (c !! j) as [w|] eqn:Hj; simpl; [|lia].
    specialize (Hc j w Hj). lia.
  - rewrite lookup_insert_ne by done. apply Hc.
Qed.

Lemma positive_empty : positive (∅ : gmap K Z).
Proof. intros k v. by rewrite lookup_empty. Qed.

Lemma total_positive c : positive c → c ≠ ∅ → 1 ≤ total c.
Proof.
  intros Hpos Hne.
  assert (Hall : positive c → 0 ≤ total c ∧ (c ≠ ∅ → 1 ≤ total c)).
  { clear Hpos Hne. induction c as [|k v c Hk IH] using map_ind.
    - intros _. unfold total. rewrite map_fold_empty. split; [lia|done].
    - intros Hpos. rewrite total_insert_fresh by done.
      assert (Hv : 1 ≤ v) by (apply (Hpos k); apply lookup_insert_eq).
      destruct IH as [IH0 _].
      { intros j w Hj. apply (Hpos j). rewrite lookup_insert_ne; [done|].
        intros ->. congruence. }
      split; intros; lia. }
  by apply Hall.
Qed.
End CounterOrder.

Lemma weighted_incr (c : gmap Z Z) (k n : Z) :
  weighted (incr k n c) = weighted c + k * n.
Proof.
  unfold incr, get, weighted. destruct (c !! k) as [v|] eqn:Hk; simpl.
  - rewrite <- insert_delete_eq.
    rewrite map_fold_insert_L; [| intros; lia | apply lookup_delete_eq].
    rewrite (map_fold_delete_L _ _ k v c); [lia | intros; lia | done].
  - rewrite map_fold_insert_L; [lia | intros; lia | done].
Qed.

(** ** Induction over the lines and the files of a run *)

Section RunInduction.
Context `{UnicodeData} `{FuzzyWuzzy}.
Variable a : args.
Variable categories : categories_t.

Lemma process_lines_fold (R : list str → loop_state → loop_state → Prop) :
  (∀ st, R [] st st) →
  (∀ l ls s1 s2 s3,
     process_line a categories s1 l = OK s2 → R ls s2 s3 → R (l :: ls) s1 s3) →
  ∀ lines st st', process_lines a categories lines st = OK st' → R lines st st'.
Proof.
  intros Hnil Hcons lines. induction lines as [|l ls IH]; intros st st'.
  - simpl. intros [= <-]. apply Hnil.
  - cbn [process_lines].
    destruct (process_line a categories st l) as [s2|e] eqn:Hl;
      cbn [mbind result_bind]; [|discriminate].
    intros Hrest. eapply Hcons; [exact Hl|]. by apply IH.
Qed.

Lemma process_file_OK (rs rs' : run_state) (f : str) :
  process_file a categories rs f = OK rs' →
  ∃ st, process_lines a categories (splitlines f)
          {| ctrs := run_ctrs rs; progress := 0; valid_passwords := 0 |} = OK st ∧
        rs' = {| run_ctrs := ctrs st;
                 grand_total := grand_total rs + Z.of_nat (length (splitlines f));
                 total_valid_passwords :=
                   total_valid_passwords rs + valid_passwords st |}.
Proof.
  unfold process_file, process_file_lines.
  destruct (process_lines a categories (splitlines f) _) as [st|e] eqn:Hlines;
    cbn [mbind result_bind mret result_ret]; [|discriminate].
  intros [= <-]. by exists st.
Qed.

Lemma process_files_fold (R : list str → run_state → run_state → Prop) :
  (∀ rs, R [] rs rs) →
  (∀ f fs r1 r2 r3,
     process_file a categories r1 f = OK r2 → R fs r2 r3 → R (f :: fs) r1 r3) →
  ∀ files rs rs', process_files a categories files rs = OK rs' → R files rs rs'.
Proof.
  intros Hnil Hcons files. induction files as [|f fs IH]; intros rs rs'.
  - simpl. intros [= <-]. apply Hnil.
  - cbn [process_files].
    destruct (process_file a categories rs f) as [r2|e] eqn:Hf;
      cbn [mbind result_bind]; [|discriminate].
    intros Hrest. eapply Hcons; [exact Hf|]. by apply IH.
Qed.

(** A property of the counters that classifying a password preserves
    holds along the whole run. *)
Lemma process_lines_preserves (P : counters → Prop) :
  (∀ p c c', classify a categories p c = OK c' → P c → P c') →
  ∀ lines st st',
    process_lines a categories lines st = OK st' → P (ctrs st) → P (ctrs st').
Proof.
  intros Hcls.
  apply (process_lines_fold (fun _ s s' => P (ctrs s) → P (ctrs s'))); [done|].
  intros l ls s1 s2 s3 Hl Hrest Hs1. apply Hrest.
  apply process_line_OK in Hl as [[_ ->]|(x & p & p' & c' & _ & _ & Hc & ->)].
  - exact Hs1.
  - by eapply Hcls.
Qed.

Lemma process_files_preserves (P : counters → Prop) :
  (∀ p c c', classify a categories p c = OK c' → P c → P c') →
  ∀ files rs rs',
    process_files a categories files rs = OK rs' →
    P (run_ctrs rs) → P (run_ctrs rs').
Proof.
  intros Hcls.
  apply (process_files_fold (fun _ r r' => P (run_ctrs r) → P (run_ctrs r')));
    [done|].
  intros f fs r1 r2 r3 (st & Hlines & ->)%process_file_OK Hrest Hr1.
  apply Hrest. cbn [run_ctrs].
  by apply (process_lines_preserves P Hcls _ _ _ Hlines).
Qed.

(** *** Counters never decrease *)

Lemma count_letter_le (acc : letter_counters) (x : char) :
  let '(num, alpha, symbol, totals) := acc in
  let '(num', alpha', symbol', totals') := count_letter acc x in
  map_le num num' ∧ map_le alpha alpha' ∧ map_le symbol symbol' ∧
  map_le totals totals'.
Proof.
  destruct acc as [[[num alpha] symbol] totals]. unfold count_letter.
  destruct (isnumeric x); [|destruct (isalpha x)];
    repeat split; first [apply map_le_refl | apply map_le_incr; lia].
Qed.

Lemma fold_count_letter_le (p : str) (acc : letter_counters) :
  let '(num, alpha, symbol, totals) := acc in
  let '(num', alpha', symbol', totals') := fold_left count_letter p acc in
  map_le num num' ∧ map_le alpha alpha' ∧ map_le symbol symbol' ∧
  map_le totals totals'.
Proof.
  revert acc. induction p as [|x p IH]; intros [[[num alpha] symbol] totals].
  - simpl. repeat split; apply map_le_refl.
  - cbn [fold_left].
    pose proof (count_letter_le (num, alpha, symbol, totals) x) as Hx.
    destruct (count_letter (num, alpha, symbol, totals) x)
      as [[[num1 alpha1] symbol1] totals1].
    specialize (IH (num1, alpha1, symbol1, totals1)).
    destruct (fold_left count_letter p (num1, alpha1, symbol1, totals1))
      as [[[num2 alpha2] symbol2] totals2].
    destruct Hx as (? & ? & ? & ?), IH as (? & ? & ? & ?).
    repeat split; eapply map_le_trans; eauto.
Qed.

Lemma letter_frequency_le (p : str) (num alpha symbol : gmap char Z)
    (totals : gmap str Z) :
  let '(num', alpha', symbol', totals') :=
    letter_frequency a p (num, alpha, symbol, totals) in
  map_le num num' ∧ map_le alpha alpha' ∧ map_le symbol symbol' ∧
  map_le totals totals'.
Proof.
  unfold letter_frequency. destruct (freq a).
  - pose proof (fold_count_letter_le p
      (num, alpha, symbol, incr (lit "chars") (Z.of_nat (length p)) totals)) as Hp.
    cbv beta iota in Hp.
    destruct (fold_left count_letter p _) as [[[num' alpha'] symbol'] totals'].
    destruct Hp as (? & ? & ? & Ht). repeat split; try done.
    eapply map_le_trans; [|exact Ht]. apply map_le_incr. lia.
  - repeat split; apply map_le_refl.
Qed.

Lemma match_rules_le (p : str) (c : gmap str Z) : map_le c (match_rules p c).
Proof.
  unfold match_rules. generalize stats as rules. intros rules. revert c.
  induction rules as [|kv rules IH]; intros c; simpl; [apply map_le_refl|].
  eapply map_le_trans; [|apply IH].
  case_bool_decide; [apply map_le_incr; lia|apply map_le_refl].
Qed.

Lemma fuzzy_loop_le (mall : list (str * Z)) (root root' : gmap str Z)
    (pc pc' : gset str) :
  fuzzy_loop categories mall (root, pc) = OK (root', pc') → map_le root root'.
Proof.
  revert root pc. induction mall as [|[w s] mall IH]; intros root pc.
  - simpl. intros [= <- <-]. apply map_le_refl.
  - cbn [fuzzy_loop]. unfold fuzzy_step at 1. cbn [fst snd].
    destruct (80 <? s).
    + destruct (word2category categories !! w) as [cats|];
        cbn [mbind result_bind]; [|discriminate].
      intros Hrest%IH. eapply map_le_trans; [|exact Hrest].
      apply map_le_incr. lia.
    + cbn [mbind result_bind]. apply IH.
Qed.

Lemma categorize_le (p : str) (root c root' c' : gmap str Z) :
  categorize a categories p root c = OK (root', c') →
  map_le root root' ∧ map_le c c'.
Proof.
  unfold categorize. destruct (reaches_categories a categories p).
  - destruct (fuzzy_loop _ _ _) as [[r pc]|e] eqn:Hloop;
      cbn [mbind result_bind mret result_ret]; [|discriminate].
    intros [= <- <-]. split.
    + by eapply fuzzy_loop_le.
    + apply map_le_fold_incr.
  - cbn [mret result_ret]. intros [= <- <-]. split; apply map_le_refl.
Qed.

Lemma counters_le_refl (c : counters) : counters_le c c.
Proof. repeat split; apply map_le_refl. Qed.

Lemma counters_le_trans (c1 c2 c3 : counters) :
  counters_le c1 c2 → counters_le c2 c3 → counters_le c1 c3.
Proof.
  intros (?&?&?&?&?&?&?&?&?&?) (?&?&?&?&?&?&?&?&?&?).
  repeat split; eapply map_le_trans; eauto.
Qed.

Lemma classify_le (p : str) (c c' : counters) :
  classify a categories p c = OK c' → counters_le c c'.
Proof.
  intros (root' & cnt' & num & al & sy & tot & Hcat & Hfreq & ->)%classify_OK.
  pose proof (letter_frequency_le p (cnt_num c) (cnt_alpha c) (cnt_symbol c)
                (cnt_totals c)) as Hl.
  rewrite Hfreq in Hl. destruct Hl as (? & ? & ? & ?).
  destruct (categorize_le _ _ _ _ _ Hcat) as [? ?].
  unfold counters_le. cbn [cnt cnt_length cnt_pwd cnt_root cnt_regex cnt_symbol
    cnt_alpha cnt_num cnt_totals cnt_pattern].
  repeat split; try done; first [apply map_le_incr; lia | apply match_rules_le].
Qed.

Lemma process_line_le (st st' : loop_state) (l : str) :
  process_line a categories st l = OK st' → counters_le (ctrs st) (ctrs st').
Proof.
  intros [[_ ->]|(x & p & p' & c' & _ & _ & Hcls & ->)]%process_line_OK.
  - apply counters_le_refl.
  - by eapply classify_le.
Qed.

Lemma process_lines_le (lines : list str) (st st' : loop_state) :
  process_lines a categories lines st = OK st' →
  counters_le (ctrs st) (ctrs st').
Proof.
  apply (process_lines_fold (fun _ s s' => counters_le (ctrs s) (ctrs s'))).
  - intros s. apply counters_le_refl.
  - intros l ls s1 s2 s3 Hl%process_line_le Hrest.
    by eapply counters_le_trans.
Qed.

(** X1: no counter ever decreases: over any files, from any state of the
    counters, every count of every one of the ten counters is at least
    what it was. *)
Theorem counters_never_decrease (files : list str) (rs rs' : run_state) :
  process_files a categories files rs = OK rs' →
  counters_le (run_ctrs rs) (run_ctrs rs').
Proof.
  apply (process_files_fold
           (fun _ r r' => counters_le (run_ctrs r) (run_ctrs r'))).
  - intros r. apply counters_le_refl.
  - intros f fs r1 r2 r3 (st & Hlines & ->)%process_file_OK Hrest.
    apply process_lines_le in Hlines. cbn [ctrs run_ctrs] in *.
    by eapply counters_le_trans.
Qed.
End RunInduction.

(** ** Totals of a run *)

Section RunTotals.
Context `{UnicodeData} `{FuzzyWuzzy}.
Variable a : args.
Variable categories : categories_t.

Lemma process_line_counts (st st' : loop_state) (l : str) :
  process_line a categories st l = OK st' →
  progress st' = progress st + 1 ∧
  valid_passwords st' = valid_passwords st + (if valid_line l then 1 else 0) ∧
  (valid_line l = false → ctrs st' = ctrs st).
Proof.
  unfold valid_line.
  intros [[Hl ->]|(x & p & p' & c' & Hl & _ & _ & ->)]%process_line_OK.
  - cbn [with_progress progress valid_passwords ctrs].
    destruct Hl as [-> | ->]; repeat split; lia.
  - rewrite Hl. cbn [progress valid_passwords]. repeat split; [done].
Qed.

Lemma process_lines_counts (lines : list str) (st st' : loop_state) :
  process_lines a categories lines st = OK st' →
  progress st' = progress st + Z.of_nat (length lines) ∧
  valid_passwords st' =
    valid_passwords st + Z.of_nat (length (List.filter valid_line lines)) ∧
  (List.filter valid_line lines = [] → ctrs st' = ctrs st).
Proof.
  apply (process_lines_fold a categories (fun ls s s' =>
    progress s' = progress s + Z.of_nat (length ls) ∧
    valid_passwords s' =
      valid_passwords s + Z.of_nat (length (List.filter valid_line ls)) ∧
    (List.filter valid_line ls = [] → ctrs s' = ctrs s))).
  - intros s. simpl. repeat split; lia.
  - intros l ls s1 s2 s3 (Hp & Hv & Hc)%process_line_counts (Hp' & Hv' & Hc').
    cbn [List.filter length]. destruct (valid_line l).
    + simpl length. repeat split; [lia|lia|done].
    + repeat split; [lia|lia|]. intros Hnil. rewrite (Hc' Hnil). by apply Hc.
Qed.

Lemma process_files_counts (files : list str) (rs rs' : run_state) :
  process_files a categories files rs = OK rs' →
  grand_total rs' = grand_total rs + Z.of_nat (length (all_lines files)) ∧
  total_valid_passwords rs'
    = total_valid_passwords rs
      + Z.of_nat (length (List.filter valid_line (all_lines files))) ∧
  (List.filter valid_line (all_lines files) = [] → run_ctrs rs' = run_ctrs rs).
Proof.
  apply (process_files_fold a categories (fun fs r r' =>
    grand_total r' = grand_total r + Z.of_nat (length (all_lines fs)) ∧
    total_valid_passwords r'
      = total_valid_passwords r
        + Z.of_nat (length (List.filter valid_line (all_lines fs))) ∧
    (List.filter valid_line (all_lines fs) = [] → run_ctrs r' = run_ctrs r))).
  - intros r. unfold all_lines. simpl. repeat split; lia.
  - intros f fs r1 r2 r3 (st & Hlines & ->)%process_file_OK (Hg & Hv & Hc).
    apply process_lines_counts in Hlines as (_ & Hvalid & Hsame).
    cbn [grand_total total_valid_passwords valid_passwords run_ctrs ctrs] in *.
    unfold all_lines in *. cbn [map concat].
    rewrite List.filter_app, !length_app. repeat split; [lia|lia|].
    intros [Hf Hfs]%app_eq_nil. rewrite (Hc Hfs). by apply Hsame.
Qed.

(** X2: the totals of a completed run: [grand_total] is the number of
    lines of all files, [total_valid_passwords] is the number of lines
    with a non-empty password field, and so is at most [grand_total]. *)
Theorem run_counts_lines (files : list str) (rs : run_state) :
  run a categories files = OK rs →
  grand_total rs = Z.of_nat (length (all_lines files)) ∧
  total_valid_passwords rs
    = Z.of_nat (length (List.filter valid_line (all_lines files))) ∧
  0 ≤ total_valid_passwords rs ≤ grand_total rs.
Proof.
  unfold run. intros (Hg & Hv & _)%process_files_counts.
  cbn [start grand_total total_valid_passwords] in Hg, Hv.
  pose proof (List.filter_length_le valid_line (all_lines files)).
  repeat split; lia.
Qed.

(** *** Each valid password is counted once by length, value and shape *)

Lemma classify_three_totals (p : str) (c c' : counters) :
  classify a categories p c = OK c' →
  total (cnt_length c') = total (cnt_length c) + 1 ∧
  total (cnt_pwd c') = total (cnt_pwd c) + 1 ∧
  total (cnt_pattern c') = total (cnt_pattern c) + 1 ∧
  weighted (cnt_length c') = weighted (cnt_length c) + Z.of_nat (length p).
Proof.
  intros (root' & cnt' & num & al & sy & tot & _ & _ & ->)%classify_OK.
  cbn [cnt_length cnt_pwd cnt_pattern].
  rewrite !total_incr, weighted_incr. repeat split; lia.
Qed.

Lemma process_line_three_totals (st st' : loop_state) (l : str) :
  process_line a categories st l = OK st' →
  total (cnt_length (ctrs st')) - valid_passwords st'
    = total (cnt_length (ctrs st)) - valid_passwords st ∧
  total (cnt_pwd (ctrs st')) - valid_passwords st'
    = total (cnt_pwd (ctrs st)) - valid_passwords st ∧
  total (cnt_pattern (ctrs st')) - valid_passwords st'
    = total (cnt_pattern (ctrs st)) - valid_passwords st.
Proof.
  intros [[_ ->]|(x & p & p' & c' & _ & _ & Hcls & ->)]%process_line_OK.
  - cbn [with_progress ctrs valid_passwords]. repeat split; lia.
  - apply classify_three_totals in Hcls as (? & ? & ? & _).
    cbn [ctrs valid_passwords]. repeat split; lia.
Qed.

Lemma process_lines_three_totals (lines : list str) (st st' : loop_state) :
  process_lines a categories lines st = OK st' →
  total (cnt_length (ctrs st')) - valid_passwords st'
    = total (cnt_length (ctrs st)) - valid_passwords st ∧
  total (cnt_pwd (ctrs st')) - valid_passwords st'
    = total (cnt_pwd (ctrs st)) - valid_passwords st ∧
  total (cnt_pattern (ctrs st')) - valid_passwords st'
    = total (cnt_pattern (ctrs st)) - valid_passwords st.
Proof.
  apply (process_lines_fold a categories (fun _ s s' =>
    total (cnt_length (ctrs s')) - valid_passwords s'
      = total (cnt_length (ctrs s)) - valid_passwords s ∧
    total (cnt_pwd (ctrs s')) - valid_passwords s'
      = total (cnt_pwd (ctrs s)) - valid_passwords s ∧
    total (cnt_pattern (ctrs s')) - valid_passwords s'
      = total (cnt_pattern (ctrs s)) - valid_passwords s)).
  - intros s. repeat split; lia.
  - intros l ls s1 s2 s3 (?&?&?)%process_line_three_totals (?&?&?).
    repeat split; lia.
Qed.

(** X3: in a completed run the counts of [cnt_length], of [cnt_pwd] and
    of [cnt_pattern] each add up to the number of valid passwords. *)
Theorem length_value_shape_totals (files : list str) (rs : run_state) :
  run a categories files = OK rs →
  total (cnt_length (run_ctrs rs)) = total_valid_passwords rs ∧
  total (cnt_pwd (run_ctrs rs)) = total_valid_passwords rs ∧
  total (cnt_pattern (run_ctrs rs)) = total_valid_passwords rs.
Proof.
  unfold run. intros Hrun.
  assert (Hgen :
    total (cnt_length (run_ctrs rs)) - total_valid_passwords rs
      = total (cnt_length (run_ctrs start)) - total_valid_passwords start ∧
    total (cnt_pwd (run_ctrs rs)) - total_valid_passwords rs
      = total (cnt_pwd (run_ctrs start)) - total_valid_passwords start ∧
    total (cnt_pattern (run_ctrs rs)) - total_valid_passwords rs
      = total (cnt_pattern (run_ctrs start)) - total_valid_passwords start).
  { revert Hrun.
    apply (process_files_fold a categories (fun _ r r' =>
      total (cnt_length (run_ctrs r')) - total_valid_passwords r'
        = total (cnt_length (run_ctrs r)) - total_valid_passwords r ∧
      total (cnt_pwd (run_ctrs r')) - total_valid_passwords r'
        = total (cnt_pwd (run_ctrs r)) - total_valid_passwords r ∧
      total (cnt_pattern (run_ctrs r')) - total_valid_passwords r'
        = total (cnt_pattern (run_ctrs r)) - total_valid_passwords r)).
    - intros r. repeat split; lia.
    - intros f fs r1 r2 r3 (st & Hlines & ->)%process_file_OK (H1 & H2 & H3).
      apply process_lines_three_totals in Hlines as (L1 & L2 & L3).
      cbn [run_ctrs total_valid_passwords ctrs valid_passwords] in *.
      repeat split; lia. }
  unfold start, empty_counters in Hgen.
  cbn [run_ctrs total_valid_passwords cnt_length cnt_pwd cnt_pattern] in Hgen.
  unfold total in Hgen at 2 4 6. rewrite !map_fold_empty in Hgen.
  destruct Hgen as (? & ? & ?). repeat split; lia.
Qed.
End RunTotals.

(** ** Switches, characters and empty runs *)

Section RunSwitches.
Context `{UnicodeData} `{FuzzyWuzzy}.
Variable a : args.
Variable categories : categories_t.

Lemma classify_categories_off (p : str) (c c' : counters) :
  no_categories a = true ∨ words categories = ∅ →
  classify a categories p c = OK c' →
  cnt c' = cnt c ∧ cnt_root c' = cnt_root c.
Proof.
  intros Hoff (root' & cnt' & num & al & sy & tot & Hcat & _ & ->)%classify_OK.
  cbn [cnt cnt_root]. revert Hcat. unfold categorize, reaches_categories.
  assert (Hcond : negb (no_categories a)
                  && negb (bool_decide (words categories = ∅)) = false).
  { destruct Hoff as [-> | ->]; [done|].
    rewrite bool_decide_eq_true_2 by done. apply andb_false_r. }
  rewrite <- andb_assoc, Hcond, andb_false_r.
  cbn [mret result_ret]. by intros [= <- <-].
Qed.

(** X4: with [--no-categories], or with a dictionary without words, a
    completed run leaves the category counters [cnt] and the base-word
    counters [cnt_root] empty. *)
Theorem categories_off_counts_nothing (files : list str) (rs : run_state) :
  no_categories a = true ∨ words categories = ∅ →
  run a categories files = OK rs →
  cnt (run_ctrs rs) = ∅ ∧ cnt_root (run_ctrs rs) = ∅.
Proof.
  intros Hoff Hrun.
  apply (process_files_preserves a categories
           (fun c => cnt c = ∅ ∧ cnt_root c = ∅) ) in Hrun; [done| |done].
  intros p c c' Hcls [Hc Hr].
  destruct (classify_categories_off p c c' Hoff Hcls) as [-> ->]. done.
Qed.

Lemma classify_freq_off (p : str) (c c' : counters) :
  freq a = false →
  classify a categories p c = OK c' →
  cnt_num c' = cnt_num c ∧ cnt_alpha c' = cnt_alpha c ∧
  cnt_symbol c' = cnt_symbol c ∧ cnt_totals c' = cnt_totals c.
Proof.
  intros Hoff (root' & cnt' & num & al & sy & tot & _ & Hfreq & ->)%classify_OK.
  unfold letter_frequency in Hfreq. rewrite Hoff in Hfreq.
  injection Hfreq as <- <- <- <-. done.
Qed.

(** X5: without [--freq] a completed run leaves the three letter tables
    and [cnt_totals] empty. *)
Theorem freq_off_counts_nothing (files : list str) (rs : run_state) :
  freq a = false →
  run a categories files = OK rs →
  cnt_num (run_ctrs rs) = ∅ ∧ cnt_alpha (run_ctrs rs) = ∅ ∧
  cnt_symbol (run_ctrs rs) = ∅ ∧ cnt_totals (run_ctrs rs) = ∅.
Proof.
  intros Hoff Hrun.
  apply (process_files_preserves a categories
           (fun c => cnt_num c = ∅ ∧ cnt_alpha c = ∅ ∧
                     cnt_symbol c = ∅ ∧ cnt_totals c = ∅)) in Hrun;
    [done| |done].
  intros p c c' Hcls (Hn & Ha & Hs & Ht).
  destruct (classify_freq_off p c c' Hoff Hcls) as (-> & -> & -> & ->). done.
Qed.

(** *** The characters counted are the characters of the passwords *)

Lemma fold_count_letter_chars (p : str) (acc : letter_counters) :
  get (snd (fold_left count_letter p acc)) (lit "chars")
  = get (snd acc) (lit "chars").
Proof.
  revert acc. induction p as [|x p IH]; intros acc; [done|].
  cbn [fold_left]. rewrite IH.
  destruct acc as [[[num alpha] symbol] totals]. unfold count_letter.
  destruct (isnumeric x); [|destruct (isalpha x)]; cbn [snd];
    by rewrite get_incr_ne by distinct_keys.
Qed.

Lemma classify_chars (p : str) (c c' : counters) :
  freq a = true →
  classify a categories p c = OK c' →
  get (cnt_totals c') (lit "chars")
  = get (cnt_totals c) (lit "chars") + Z.of_nat (length p).
Proof.
  intros Hon (root' & cnt' & num & al & sy & tot & _ & Hfreq & ->)%classify_OK.
  cbn [cnt_totals]. unfold letter_frequency in Hfreq. rewrite Hon in Hfreq.
  pose proof (fold_count_letter_chars p
    (cnt_num c, cnt_alpha c, cnt_symbol c,
     incr (lit "chars") (Z.of_nat (length p)) (cnt_totals c))) as Hchars.
  rewrite Hfreq in Hchars. cbn [snd] in Hchars.
  by rewrite Hchars, get_incr_eq.
Qed.

Lemma classify_weighted (p : str) (c c' : counters) :
  classify a categories p c = OK c' →
  weighted (cnt_length c') = weighted (cnt_length c) + Z.of_nat (length p).
Proof.
  intros (root' & cnt' & num & al & sy & tot & _ & _ & ->)%classify_OK.
  cbn [cnt_length]. rewrite weighted_incr. lia.
Qed.

(** X6: with [--freq], after a completed run the characters counted in
    [cnt_totals] are the characters of the classified passwords: the
    count under "chars" is the sum, over the lengths in [cnt_length], of
    length times count. *)
Theorem chars_total_is_sum_of_lengths (files : list str) (rs : run_state) :
  freq a = true →
  run a categories files = OK rs →
  get (cnt_totals (run_ctrs rs)) (lit "chars") = weighted (cnt_length (run_ctrs rs)).
Proof.
  intros Hon Hrun.
  apply (process_files_preserves a categories
           (fun c => get (cnt_totals c) (lit "chars") = weighted (cnt_length c)))
    in Hrun; [done| |].
  - intros p c c' Hcls Hc.
    rewrite (classify_chars p c c' Hon Hcls), (classify_weighted p c c' Hcls). lia.
  - unfold start, empty_counters, get, weighted. cbn [run_ctrs cnt_totals cnt_length].
    by rewrite lookup_empty, map_fold_empty.
Qed.

(** *** What [print_counter] divides by *)

(** X7: a completed run without valid password (in particular one that
    read no line, where [grand_total] is zero) leaves all ten counters
    empty: [print_counter] then reports no data before it divides by
    [grand_total]. *)
Theorem no_valid_password_no_counts (files : list str) (rs : run_state) :
  run a categories files = OK rs →
  (grand_total rs = 0 → total_valid_passwords rs = 0) ∧
  (total_valid_passwords rs = 0 → run_ctrs rs = empty_counters).
Proof.
  unfold run. intros (Hg & Hv & Hc)%process_files_counts.
  cbn [start grand_total total_valid_passwords run_ctrs] in Hg, Hv, Hc.
  pose proof (List.filter_length_le valid_line (all_lines files)).
  split; [lia|].
  intros Hzero. apply Hc.
  destruct (List.filter valid_line (all_lines files)); [done|simpl in Hv; lia].
Qed.

Lemma count_letter_positive (acc : letter_counters) (x : char) :
  positive (fst (fst (fst acc))) ∧ positive (snd (fst (fst acc)))
  ∧ positive (snd (fst acc)) →
  positive (fst (fst (fst (count_letter acc x))))
  ∧ positive (snd (fst (fst (count_letter acc x))))
  ∧ positive (snd (fst (count_letter acc x))).
Proof.
  destruct acc as [[[num alpha] symbol] totals]. unfold count_letter.
  cbn [fst snd]. intros (Hn & Ha & Hs).
  destruct (isnumeric x); [|destruct (isalpha x)]; cbn [fst snd];
    repeat split; first [done | by apply positive_incr].
Qed.

Lemma fold_count_letter_positive (p : str) (acc : letter_counters) :
  positive (fst (fst (fst acc))) ∧ positive (snd (fst (fst acc)))
  ∧ positive (snd (fst acc)) →
  positive (fst (fst (fst (fold_left count_letter p acc))))
  ∧ positive (snd (fst (fst (fold_left count_letter p acc))))
  ∧ positive (snd (fst (fold_left count_letter p acc))).
Proof.
  revert acc. induction p as [|x p IH]; intros acc Hacc; [done|].
  cbn [fold_left]. by apply IH, count_letter_positive.
Qed.

Lemma classify_letters_positive (p : str) (c c' : counters) :
  classify a categories p c = OK c' → letters_positive c → letters_positive c'.
Proof.
  intros (root' & cnt' & num & al & sy & tot & _ & Hfreq & ->)%classify_OK Hc.
  unfold letters_positive. cbn [cnt_num cnt_alpha cnt_symbol].
  unfold letter_frequency in Hfreq. destruct (freq a).
  - pose proof (fold_count_letter_positive p
      (cnt_num c, cnt_alpha c, cnt_symbol c,
       incr (lit "chars") (Z.of_nat (length p)) (cnt_totals c))) as Hp.
    rewrite Hfreq in Hp. cbn [fst snd] in Hp. by apply Hp.
  - by injection Hfreq as <- <- <- <-.
Qed.

(** X8: after a completed run, a letter table that is not empty comes
    with a class total of at least one: [print_counter] is given a
    non-zero divisor for each of the three letter tables it prints. *)
Theorem letter_tables_have_positive_totals (files : list str) (rs : run_state) :
  run a categories files = OK rs →
  (cnt_alpha (run_ctrs rs) ≠ ∅ → 1 ≤ get (cnt_totals (run_ctrs rs)) (lit "alpha")) ∧
  (cnt_num (run_ctrs rs) ≠ ∅ → 1 ≤ get (cnt_totals (run_ctrs rs)) (lit "num")) ∧
  (cnt_symbol (run_ctrs rs) ≠ ∅ → 1 ≤ get (cnt_totals (run_ctrs rs)) (lit "symbol")).
Proof.
  intros Hrun.
  assert (Hpos : letters_positive (run_ctrs rs)).
  { apply (process_files_preserves a categories letters_positive) in Hrun;
      [done|apply classify_letters_positive|].
    repeat split; apply positive_empty. }
  assert (Hcons : letters_consistent (run_ctrs rs)).
  { apply (process_files_letters a categories _ _ _ Hrun).
    unfold letters_consistent, start, empty_counters, get.
    cbn [run_ctrs cnt_totals cnt_num cnt_alpha cnt_symbol].
    rewrite !lookup_empty. unfold total. rewrite !map_fold_empty. done. }
  destruct Hpos as (Pn & Pa & Ps), Hcons as (_ & Cn & Ca & Cs).
  rewrite Cn, Ca, Cs. repeat split; intros Hne; by apply total_positive.
Qed.
End RunSwitches.

(** ** The category dictionary and the fuzzy matching *)

Section Dictionary.
Variable categories : categories_t.

Lemma foldr_insert_lookup {A : Type} (g : str → A) (l : list str) (w : str) :
  foldr (fun w m => <[w := g w]> m) (∅ : gmap str A) l !! w
  = if decide (w ∈ l) then Some (g w) else None.
Proof.
  induction l as [|x l IH]; cbn [foldr].
  - rewrite lookup_empty. by rewrite decide_False by apply not_elem_of_nil.
  - destruct (decide (x = w)) as [->|Hne].
    + rewrite lookup_insert_eq. rewrite decide_True; [done|apply list_elem_of_here].
    + rewrite lookup_insert_ne by done. rewrite IH.
      case_decide as Hw.
      * rewrite decide_True; [done|by apply list_elem_of_further].
      * rewrite decide_False; [done|].
        intros [->|Hin]%elem_of_cons; done.
Qed.

Lemma word2category_lookup (w : str) :
  word2category categories !! w
  = if decide (w ∈ words categories) then Some (cats_of categories w) else None.
Proof.
  unfold word2category, set_fold. cbn [compose].
  rewrite foldr_insert_lookup.
  destruct (decide (w ∈ elements (words categories))) as [Hin|Hout].
  - rewrite decide_True; [done|by apply elem_of_elements].
  - rewrite decide_False; [done|]. by rewrite <- elem_of_elements.
Qed.

Lemma elem_of_words (w : str) :
  w ∈ words categories ↔ ∃ c v, (c, v) ∈ categories ∧ w ∈ v.
Proof.
  unfold words. rewrite elem_of_list_to_set. split.
  - intros Hw. apply list_elem_of_In, in_concat in Hw as (v & Hv & Hw).
    apply in_map_iff in Hv as ([c v'] & <- & Hcv).
    exists c, v'. by rewrite !list_elem_of_In.
  - intros (c & v & Hcv & Hw). apply list_elem_of_In, in_concat.
    exists v. split; [|by apply list_elem_of_In].
    apply in_map_iff. exists (c, v). split; [done|by apply list_elem_of_In].
Qed.

Lemma elem_of_cats_of (w c : str) :
  c ∈ cats_of categories w ↔ ∃ v, (c, v) ∈ categories ∧ w ∈ v.
Proof.
  unfold cats_of. change (map fst ?l) with (fst <$> l).
  rewrite list_elem_of_fmap. split.
  - intros ([c' v] & -> & [Hw Hcv]%list_elem_of_filter). by exists v.
  - intros (v & Hcv & Hw). exists (c, v). split; [done|].
    by apply list_elem_of_filter.
Qed.

(** X9: the inverted index is the dictionary read the other way: a
    category is listed for a word in [word2category] exactly when the
    word is listed for the category in the dictionary; the indexed words
    are the words of the dictionary, and none has an empty list. *)
Theorem word2category_inverts_dictionary (w : str) :
  (∀ c, (∃ cats, word2category categories !! w = Some cats ∧ c ∈ cats)
        ↔ ∃ v, (c, v) ∈ categories ∧ w ∈ v) ∧
  (is_Some (word2category categories !! w) ↔ w ∈ words categories) ∧
  word2category categories !! w ≠ Some [].
Proof.
  rewrite word2category_lookup. repeat split.
  - intros (cats & Hcats & Hc). case_decide; [|done].
    injection Hcats as <-. by apply elem_of_cats_of.
  - intros (v & Hcv & Hw). rewrite decide_True by (apply elem_of_words; eauto).
    exists (cats_of categories w). split; [done|]. apply elem_of_cats_of; eauto.
  - case_decide; [done|]. by intros [? ?].
  - intros Hw. rewrite decide_True by done. by eexists.
  - case_decide as Hw; [|done]. intros [= Hnil].
    apply elem_of_words in Hw as (c & v & Hcv & Hw).
    assert (Hc : c ∈ cats_of categories w) by (apply elem_of_cats_of; eauto).
    rewrite Hnil in Hc. by apply elem_of_nil in Hc.
Qed.

(** The labels and the base words that the loop over the matches adds. *)
Lemma fuzzy_loop_adds (mall : list (str * Z)) (root root' : gmap str Z)
    (pc pc' : gset str) :
  fuzzy_loop categories mall (root, pc) = OK (root', pc') →
  (∀ c, c ∈ pc' → c ∈ pc ∨ c ∈ map fst categories) ∧
  (∀ w, w ∉ words categories → get root' w = get root w).
Proof.
  revert root pc. induction mall as [|[w s] mall IH]; intros root pc.
  - simpl. intros [= <- <-]. split; [by left|done].
  - cbn [fuzzy_loop]. unfold fuzzy_step at 1. cbn [fst snd].
    destruct (80 <? s); [|cbn [mbind result_bind]; apply IH].
    rewrite word2category_lookup. case_decide as Hw;
      cbn [mbind result_bind]; [|discriminate].
    intros [Hpc Hroot]%IH. split.
    + intros c [[Hc|Hc]%elem_of_union|Hc]%Hpc; [by left| |by right].
      right. apply elem_of_list_to_set, elem_of_cats_of in Hc as (v & Hcv & _).
      change (map fst categories) with (fst <$> categories).
      apply list_elem_of_fmap. by exists (c, v).
    + intros w' Hw'. rewrite (Hroot w' Hw'). apply get_incr_ne. by intros ->.
Qed.

Lemma get_fold_incr_NoDup (l : list str) (c : gmap str Z) (k : str) :
  NoDup l →
  get (fold_left (fun c k => incr k 1 c) l c) k
  = get c k + (if decide (k ∈ l) then 1 else 0).
Proof.
  intros Hl. revert c. induction Hl as [|x l Hx Hl IH]; intros c; cbn [fold_left].
  - rewrite decide_False by apply not_elem_of_nil. lia.
  - rewrite IH. destruct (decide (x = k)) as [->|Hne].
    + rewrite get_incr_eq, decide_False by done.
      rewrite decide_True by apply list_elem_of_here. lia.
    + rewrite get_incr_ne by done.
      destruct (decide (k ∈ l)) as [Hin|Hout].
      * rewrite decide_True; [done|by apply list_elem_of_further].
      * rewrite decide_False; [done|]. intros [->|Hin]%elem_of_cons; done.
Qed.
End Dictionary.

Section Categorize.
Context `{UnicodeData} `{FuzzyWuzzy}.
Variable a : args.
Variable categories : categories_t.

Lemma labels_NoDup (pc : gset str) : NoDup (labels pc).
Proof.
  unfold labels. case_bool_decide; [apply NoDup_singleton|apply NoDup_elements].
Qed.

(** X10: for one password, the fuzzy matching raises the count of a
    category by one or leaves it; a count that is raised is that of the
    sentinel [no_category] or of a category of the dictionary; and the
    count of a base word that is not in the dictionary is never raised. *)
Theorem categorize_counts_each_label_once (p : str) (root c root' c' : gmap str Z) :
  categorize a categories p root c = OK (root', c') →
  (∀ k, get c' k = get c k ∨
        get c' k = get c k + 1 ∧ (k = no_category ∨ k ∈ map fst categories)) ∧
  (∀ w, w ∉ words categories → get root' w = get root w).
Proof.
  unfold categorize. destruct (reaches_categories a categories p).
  - destruct (fuzzy_loop _ _ _) as [[r pc]|e] eqn:Hloop;
      cbn [mbind result_bind mret result_ret]; [|discriminate].
    intros [= <- <-]. apply fuzzy_loop_adds in Hloop as [Hpc Hroot].
    split; [|exact Hroot].
    intros k. rewrite get_fold_incr_NoDup by apply labels_NoDup.
    case_decide as Hk; [right|left; lia]. split; [lia|].
    unfold labels in Hk. case_bool_decide.
    + left. by apply list_elem_of_singleton in Hk.
    + apply elem_of_elements, Hpc in Hk as [Hk|Hk]; [|by right].
      by apply not_elem_of_empty in Hk.
  - cbn [mret result_ret]. intros [= <- <-]. split; [by left|done].
Qed.
End Categorize.

(** ** The rule counters *)

Lemma stats_names_NoDup : NoDup (map fst stats).
Proof.
  apply (bool_decide_unpack (NoDup (map fst stats))).
  vm_compute. reflexivity.
Qed.

Section RuleCounters.
Context `{UnicodeData}.

Lemma fold_rules_get (p : str) (rules : list (str * re)) (c : gmap str Z) :
  NoDup (map fst rules) →
  (∀ name r, (name, r) ∈ rules →
     get (fold_left (fun c kv =>
            if bool_decide (is_Some (re_search (snd kv) p))
            then incr (fst kv) 1 c else c) rules c) name
     = get c name + (if bool_decide (is_Some (re_search r p)) then 1 else 0)) ∧
  (∀ name, name ∉ map fst rules →
     get (fold_left (fun c kv =>
            if bool_decide (is_Some (re_search (snd kv) p))
            then incr (fst kv) 1 c else c) rules c) name
     = get c name).
Proof.
  revert c. induction rules as [|[k r0] rules IH]; intros c Hnd.
  - split; [by intros ? ? ?%elem_of_nil|done].
  - cbn [map fst] in Hnd. apply NoDup_cons in Hnd as [Hk Hnd].
    cbn [fold_left fst snd]. split.
    + intros name r [[= -> ->]|Hin]%elem_of_cons.
      * rewrite (proj2 (IH _ Hnd) k Hk).
        case_bool_decide; [apply get_incr_eq|lia].
      * rewrite (proj1 (IH _ Hnd) name r Hin).
        assert (Hne : k ≠ name).
        { intros ->. apply Hk. change (map fst rules) with (fst <$> rules).
          apply list_elem_of_fmap. by exists (name, r). }
        case_bool_decide; [by rewrite get_incr_ne|done].
    + intros name [Hne Hout]%not_elem_of_cons.
      rewrite (proj2 (IH _ Hnd) name Hout).
      case_bool_decide; [by rewrite get_incr_ne|done].
Qed.

(** X11: a password raises the counter of every rule that finds a match
    in it by exactly one, leaves the counter of every other rule as it
    was, and touches no counter that is not named after a rule. *)
Theorem rules_are_counted_once (p : str) (c : gmap str Z) :
  (∀ name r, (name, r) ∈ stats →
     get (match_rules p c) name
     = get c name + (if bool_decide (is_Some (re_search r p)) then 1 else 0)) ∧
  (∀ name, name ∉ map fst stats → get (match_rules p c) name = get c name).
Proof. apply fold_rules_get, stats_names_NoDup. Qed.
End RuleCounters.

(** ** Exceptions *)

Lemma recover_raises (p : str) (e : exn) :
  recover p = Raise e → e = BinasciiError ∨ e = ValueError.
Proof.
  unfold recover, unhexlify.
  destruct (startswith _ p && _); [|discriminate].
  destruct (existsb _ _); [intros [= <-]; by right|].
  destruct (Nat.odd _); [intros [= <-]; by left|].
  destruct (unhex_pairs _); [discriminate|intros [= <-]; by left].
Qed.

Lemma line_password_no_newline `{UnicodeData} (l : str) :
  newline ∉ l → line_password l = OK (Some (strip_prefix (strip_prefix l))).
Proof.
  intros Hl. unfold line_password, re_match.
  rewrite line_re_match by done. reflexivity.
Qed.

Section Exceptions.
Context `{UnicodeData} `{FuzzyWuzzy}.
Variable a : args.
Variable categories : categories_t.
Hypothesis extract_choices :
  ∀ (p : str) (ws : gset str) (w : str) (s : Z), (w, s) ∈ extract p ws → w ∈ ws.

Lemma fuzzy_loop_returns (mall : list (str * Z)) (acc : gmap str Z * gset str) :
  (∀ w s, (w, s) ∈ mall → w ∈ words categories) →
  ∃ acc', fuzzy_loop categories mall acc = OK acc'.
Proof.
  revert acc. induction mall as [|[w s] mall IH]; intros [root pc] Hmall.
  - by eexists.
  - cbn [fuzzy_loop]. unfold fuzzy_step at 1. cbn [fst snd].
    assert (Hrest : ∀ w' s', (w', s') ∈ mall → w' ∈ words categories)
      by (intros w' s' Hin; apply (Hmall w' s'); by apply list_elem_of_further).
    destruct (80 <? s); cbn [mbind result_bind]; [|by apply IH].
    rewrite word2category_lookup.
    rewrite decide_True by (apply (Hmall w s); apply list_elem_of_here).
    cbn [mbind result_bind]. by apply IH.
Qed.

Lemma classify_returns (p : str) (c : counters) :
  ∃ c', classify a categories p c = OK c'.
Proof.
  unfold classify.
  destruct (letter_frequency a p _) as [[[num alpha] symbol] totals].
  unfold categorize. destruct (reaches_categories a categories p).
  - destruct (fuzzy_loop_returns (extract p (words categories))
                (cnt_root c, ∅)) as [[root' pc] Hloop].
    { intros w s. apply extract_choices. }
    rewrite Hloop. cbn [mbind result_bind mret result_ret]. by eexists.
  - cbn [mbind result_bind mret result_ret]. by eexists.
Qed.

Lemma process_line_raises (st : loop_state) (l : str) (e : exn) :
  newline ∉ l →
  process_line a categories st l = Raise e →
  ∃ p, line_password l = OK (Some p) ∧ recover p = Raise e.
Proof.
  intros Hl. unfold process_line. rewrite (line_password_no_newline l Hl).
  cbn [mbind result_bind].
  destruct (strip_prefix (strip_prefix l)) as [|x p] eqn:Hp;
    cbn [mret result_ret]; [discriminate|].
  destruct (recover (x :: p)) as [p'|e'] eqn:Hrec; cbn [mbind result_bind].
  - destruct (classify_returns p' (ctrs st)) as [c' ->].
    cbn [mbind result_bind mret result_ret]. discriminate.
  - intros [= <-]. by exists (x :: p).
Qed.

Lemma process_lines_raises (lines : list str) (st : loop_state) (e : exn) :
  (∀ l, l ∈ lines → newline ∉ l) →
  process_lines a categories lines st = Raise e →
  ∃ l p, l ∈ lines ∧ line_password l = OK (Some p) ∧ recover p = Raise e.
Proof.
  revert st. induction lines as [|l lines IH]; intros st Hlines; [discriminate|].
  cbn [process_lines].
  destruct (process_line a categories st l) as [st1|e1] eqn:Hl;
    cbn [mbind result_bind].
  - intros (l' & p & Hin & Hp)%IH.
    + exists l', p. split; [by apply list_elem_of_further|done].
    + intros l' Hin. apply Hlines. by apply list_elem_of_further.
  - intros [= <-]. apply process_line_raises in Hl as (p & Hp); 
      [|apply Hlines, list_elem_of_here].
    exists l, p. split; [apply list_elem_of_here|done].
Qed.

(** X12: with a matcher that returns words of the choices it is given,
    a run can only fail in the hex recovery: if it raises, some line of
    the input has a password field that [recover] rejects with that
    exception, which is [binascii.Error] or [ValueError]. *)
Theorem run_fails_only_in_recover (files : list str) (e : exn) :
  run a categories files = Raise e →
  ∃ l p, l ∈ all_lines files ∧ line_password l = OK (Some p) ∧
         recover p = Raise e ∧ (e = BinasciiError ∨ e = ValueError).
Proof.
  unfold run. generalize start. unfold all_lines.
  induction files as [|f files IH]; intros rs; [discriminate|].
  cbn [process_files map concat].
  destruct (process_file a categories rs f) as [rs1|e1] eqn:Hf;
    cbn [mbind result_bind].
  - intros (l & p & Hin & Hp)%IH. exists l, p.
    split; [apply elem_of_app; by right|done].
  - intros [= <-]. unfold process_file, process_file_lines in Hf.
    destruct (process_lines a categories (splitlines f) _) as [st|e'] eqn:Hlines;
      cbn [mbind result_bind mret result_ret] in Hf; [discriminate|].
    injection Hf as <-.
    apply process_lines_raises in Hlines as (l & p & Hin & Hp & Hrec);
      [|intros l; apply splitlines_no_newline].
    exists l, p. repeat split; [apply elem_of_app; by left|done|done|].
    by eapply recover_raises.
Qed.
End Exceptions.

(** ** The masker, by character classes *)

Lemma shape_char_below_128 :
  forallb (fun n => N.eqb (default (N.of_nat n) (trans !! N.of_nat n))
                          (shape_char (N.of_nat n))
                    && N.eqb (shape_char (shape_char (N.of_nat n)))
                             (shape_char (N.of_nat n)))
          (seq 0 128) = true.
Proof. vm_compute. reflexivity. Qed.

Lemma SYMBOLS_below_128 : forallb (fun c => (c <? 128)%N) SYMBOLS = true.
Proof. vm_compute. reflexivity. Qed.

Lemma inb_above_128 (c : char) (l : str) :
  (128 <= c)%N → forallb (fun x => (x <? 128)%N) l = true → inb c l = false.
Proof.
  intros Hc Hl. apply not_true_is_false. intros [x [Hx Hcx]]%existsb_exists.
  apply N.eqb_eq in Hcx. subst x.
  rewrite forallb_forall in Hl. apply Hl, N.ltb_lt in Hx. lia.
Qed.

Lemma shape_char_above_128 (c : char) : (128 <= c)%N → shape_char c = c.
Proof.
  intros Hc. unfold shape_char.
  rewrite (inb_above_128 c SYMBOLS Hc SYMBOLS_below_128).
  change (ch "a") with 97%N. change (ch "z") with 122%N.
  change (ch "A") with 65%N. change (ch "Z") with 90%N.
  change (ch "0") with 48%N. change (ch "9") with 57%N.
  replace (c <=? 122)%N with false by (symmetry; apply N.leb_gt; lia).
  replace (c <=? 90)%N with false by (symmetry; apply N.leb_gt; lia).
  replace (c <=? 57)%N with false by (symmetry; apply N.leb_gt; lia).
  by rewrite !andb_false_r.
Qed.

Lemma trans_shape_char (c : char) :
  default c (trans !! c) = shape_char c ∧
  shape_char (shape_char c) = shape_char c.
Proof.
  destruct (N.lt_ge_cases c 128) as [Hlt|Hge].
  - pose proof shape_char_below_128 as Hall.
    rewrite forallb_forall in Hall. specialize (Hall (N.to_nat c)).
    rewrite N2Nat.id in Hall.
    assert (Hin : In (N.to_nat c) (seq 0 128)) by (apply in_seq; lia).
    apply Hall, andb_prop in Hin as [H1 H2].
    by apply N.eqb_eq in H1, H2.
  - rewrite !shape_char_above_128 by done. split; [|done].
    unfold trans. rewrite maketrans_absent; [done|].
    apply inb_above_128; [done|apply tr_from_below_128].
Qed.

(** X13: the masker maps every lowercase letter to [a], every uppercase
    letter to [A], every digit to [1], every character of [SYMBOLS] to
    [@], and keeps any other character; masking a shape again changes
    nothing. *)
Theorem translate_by_classes (p : str) :
  translate trans p = map shape_char p ∧
  translate trans (translate trans p) = translate trans p.
Proof.
  assert (Hmap : ∀ q, translate trans q = map shape_char q).
  { intros q. unfold translate. apply map_ext. intros c. apply trans_shape_char. }
  split; [apply Hmap|].
  rewrite !Hmap, map_map. apply map_ext. intros c. apply trans_shape_char.
Qed.

(** ** The recoverer on well-formed candidates *)

Lemma hexval_bounds (c : char) (v : N) :
  hexval c = Some v → (v < 16)%N ∧ (c <? 128)%N = true.
Proof.
  unfold hexval.
  change (ch "a") with 97%N. change (ch "f") with 102%N.
  change (ch "A") with 65%N. change (ch "F") with 70%N.
  change (ch "0") with 48%N. change (ch "9") with 57%N.
  destruct ((48 <=? c) && (c <=? 57))%N eqn:H09.
  { apply andb_prop in H09 as [H1%N.leb_le H2%N.leb_le].
    intros [= <-]. split; [lia|apply N.ltb_lt; lia]. }
  destruct ((97 <=? c) && (c <=? 102))%N eqn:Haf.
  { apply andb_prop in Haf as [H1%N.leb_le H2%N.leb_le].
    intros [= <-]. split; [lia|apply N.ltb_lt; lia]. }
  destruct ((65 <=? c) && (c <=? 70))%N eqn:HAF; [|discriminate].
  apply andb_prop in HAF as [H1%N.leb_le H2%N.leb_le].
  intros [= <-]. split; [lia|apply N.ltb_lt; lia].
Qed.

Lemma unhex_pairs_shape (s : str) :
  (∀ bytes, unhex_pairs s = Some bytes →
     length s = (2 * length bytes)%nat ∧ Forall (fun b => (b < 256)%N) bytes) ∧
  (∀ x bytes, unhex_pairs (x :: s) = Some bytes →
     S (length s) = (2 * length bytes)%nat ∧ Forall (fun b => (b < 256)%N) bytes).
Proof.
  induction s as [|y s [IH1 IH2]].
  - split; [by intros bytes [= <-]|discriminate].
  - split; [intros bytes; apply IH2|].
    intros x bytes. simpl.
    destruct (hexval x) as [hi|] eqn:Ex; [|discriminate].
    destruct (hexval y) as [lo|] eqn:Ey; [|discriminate].
    destruct (unhex_pairs s) as [rest|] eqn:Es; [|discriminate].
    intros [= <-]. destruct (IH1 rest eq_refl) as [Hlen Hall].
    apply hexval_bounds in Ex as [Hhi _], Ey as [Hlo _].
    split; [simpl; lia|]. constructor; [lia|done].
Qed.

Lemma unhex_pairs_defined (s : str) :
  (Nat.even (length s) = true → Forall (fun c => is_Some (hexval c)) s →
   is_Some (unhex_pairs s)) ∧
  (∀ x, Nat.even (length (x :: s)) = true →
        Forall (fun c => is_Some (hexval c)) (x :: s) →
        is_Some (unhex_pairs (x :: s))).
Proof.
  induction s as [|y s [IH1 IH2]].
  - split; [by eexists|]. intros x Hev. discriminate Hev.
  - split; [apply IH2|].
    intros x Hev Hall. simpl.
    apply Forall_cons in Hall as [[hi ->] Hall].
    apply Forall_cons in Hall as [[lo ->] Hall].
    destruct IH1 as [rest ->]; [exact Hev|done|]. by eexists.
Qed.

Lemma existsb_non_ascii_hex (s : str) :
  Forall (fun c => is_Some (hexval c)) s →
  existsb (fun c => (128 <=? c)%N) s = false.
Proof.
  induction 1 as [|c s [v Hv] _ IH]; [done|]. simpl. rewrite IH.
  apply hexval_bounds in Hv as [_ Hc%N.ltb_lt].
  rewrite orb_false_r. apply N.leb_gt. lia.
Qed.

(** X14: a candidate [$HEX[...]] whose payload is an even number of hex
    digits is always recovered: the result has half the length of the
    payload and only characters below 256. *)
Theorem recover_decodes_hex_digits (payload : str) :
  Nat.even (length payload) = true →
  Forall (fun c => is_Some (hexval c)) payload →
  ∃ q, recover (hex_wrap payload) = OK q ∧
       length payload = (2 * length q)%nat ∧
       Forall (fun c => (c < 256)%N) q.
Proof.
  intros Hev Hhex. unfold hex_wrap. rewrite recover_hex_wrapper. unfold unhexlify.
  rewrite existsb_non_ascii_hex by done.
  rewrite <- Nat.negb_even, Hev. cbn [negb].
  destruct (proj1 (unhex_pairs_defined payload) Hev Hhex) as [bytes Hbytes].
  rewrite Hbytes. exists bytes. split; [done|].
  by apply (proj1 (unhex_pairs_shape payload)).
Qed.

(** X15: whatever the recoverer returns is the candidate itself, or a
    string of characters below 256 that is shorter than the candidate:
    six characters of wrapper and two hex digits for each character. *)
Theorem recover_result_shape (p q : str) :
  recover p = OK q →
  q = p ∨ (length p = (6 + 2 * length q)%nat ∧ Forall (fun c => (c < 256)%N) q).
Proof.
  unfold recover.
  destruct (startswith (lit "$HEX[") p) eqn:Hstart; cbn [andb]; [|intros [= <-]; by left].
  case_bool_decide as Hlast; [|intros [= <-]; by left].
  unfold unhexlify.
  destruct (existsb _ _); [discriminate|].
  destruct (Nat.odd _); [discriminate|].
  destruct (unhex_pairs _) as [bytes|] eqn:Hbytes; [|discriminate].
  intros [= <-]. right. unfold decode_latin1.
  destruct (proj1 (unhex_pairs_shape _) bytes Hbytes) as [Hlen Hall].
  split; [|done].
  rewrite length_drop, length_take in Hlen.
  assert (Hp : (6 ≤ length p)%nat).
  { revert Hstart Hlast. change (lit "$HEX[") with [36; 72; 69; 88; 91]%N.
    destruct p as [|c1 [|c2 [|c3 [|c4 [|c5 [|c6 p]]]]]]; simpl;
      rewrite ?andb_false_r; try discriminate; [|intros; lia].
    intros Hs [= ->]. exfalso.
    do 4 (apply andb_prop in Hs as [_ Hs]).
    vm_compute in Hs. discriminate Hs. }
  lia.
Qed.

(** ** The progress bar *)

Lemma progbar_msg_shape :
  forallb (fun n =>
             let msg := progbar_msg (Z.of_nat n) in
             Nat.eqb (length msg) 60
             && Nat.eqb (length (List.filter (N.eqb (ch "#")) msg))
                        (Z.to_nat (Z.of_nat n * 40 / 100)))
          (seq 0 101) = true.
Proof. vm_compute. reflexivity. Qed.

Lemma progbar_frac_bounds (curr total : Z) :
  0 < total → 0 ≤ curr ≤ total → 0 ≤ curr * 100 / total ≤ 100.
Proof.
  intros Ht Hc. split.
  - apply Z.div_pos; lia.
  - apply Z.div_le_upper_bound; lia.
Qed.

(** X16: called as in the line loop, with a positive [total] and a
    progress count between 0 and [total], [progbar] does not divide by
    zero, remembers the percentage, prints exactly when the percentage
    differs from the one remembered, and what it prints is 60 characters
    long with as many [#] as 40 percent of the percentage, rounded down. *)
Theorem progbar_prints_a_full_width_bar (curr total last_frac : Z) :
  0 < total → 0 ≤ curr ≤ total →
  let frac := curr * 100 / total in
  0 ≤ frac ≤ 100 ∧
  progbar curr total 40 last_frac
  = Some (frac, if frac =? last_frac then None else Some (progbar_msg frac)) ∧
  length (progbar_msg frac) = 60%nat ∧
  length (List.filter (N.eqb (ch "#")) (progbar_msg frac))
  = Z.to_nat (frac * 40 / 100).
Proof.
  intros Ht Hc frac. pose proof (progbar_frac_bounds curr total Ht Hc) as Hf.
  fold frac in Hf. split; [done|]. split.
  - unfold progbar. rewrite (proj2 (Z.eqb_neq total 0)) by lia.
    fold frac. destruct (Z.eqb_spec frac last_frac) as [->|_]; reflexivity.
  - pose proof progbar_msg_shape as Hall. rewrite forallb_forall in Hall.
    specialize (Hall (Z.to_nat frac)). rewrite Z2Nat.id in Hall by lia.
    assert (Hin : In (Z.to_nat frac) (seq 0 101)) by (apply in_seq; lia).
    apply Hall in Hin. cbv zeta in Hin.
    apply andb_prop in Hin as [H1%Nat.eqb_eq H2%Nat.eqb_eq]. done.
Qed.

Lemma progbar_calls_synchronized (total : Z) (currs : list Z) :
  0 < total →
  ∀ last : Z,
    Forall (fun c => 0 ≤ c ≤ total ∧ last ≤ c * 100 / total) currs →
    ascending currs →
    ∃ last' outs, progbar_calls currs total last = Some (last', outs) ∧
                  Z.of_nat (length outs) ≤ Z.max 0 (100 - last).
Proof.
  intros Ht. induction currs as [|c currs IH]; intros last Hall Hsorted.
  - exists last, []. split; [done|]. simpl. lia.
  - apply Forall_cons in Hall as [[Hc Hlast] Hall].
    destruct Hsorted as [Hle Hsorted].
    pose proof (progbar_frac_bounds c total Ht Hc) as Hf.
    cbn [progbar_calls]. unfold progbar.
    rewrite (proj2 (Z.eqb_neq total 0)) by lia.
    assert (Hnext : Forall (fun c' => 0 ≤ c' ≤ total
                                      ∧ c * 100 / total ≤ c' * 100 / total) currs).
    { rewrite Forall_forall in Hall, Hle. apply Forall_forall. intros c' Hc'.
      split; [by apply Hall|].
      apply Z.div_le_mono; [lia|]. specialize (Hle c' Hc'). lia. }
    destruct (Z.eqb_spec (c * 100 / total) last) as [Heq|Hne].
    + destruct (IH last) as (last' & outs & -> & Hlen); [|done|].
      * by rewrite <- Heq.
      * exists last', outs. split; [done|lia].
    + destruct (IH (c * 100 / total) Hnext Hsorted) as (last' & outs & -> & Hlen).
      exists last', (progbar_msg (c * 100 / total) :: outs). split; [done|].
      simpl length. lia.
Qed.

(** X17: over the lines of one file the progress bar prints at most 101
    messages, however many lines there are and whatever percentage was
    remembered from the file before: the progress counts only grow, and
    a message is printed only when the percentage changes. *)
Theorem progbar_prints_at_most_101_messages (total last_frac : Z) (currs : list Z) :
  0 < total →
  Forall (fun c => 0 ≤ c ≤ total) currs →
  ascending currs →
  ∃ last' outs, progbar_calls currs total last_frac = Some (last', outs) ∧
                (length outs ≤ 101)%nat.
Proof.
  intros Ht Hall Hsorted. destruct currs as [|c currs].
  - exists last_frac, []. split; [done|]. simpl. lia.
  - apply Forall_cons in Hall as [Hc Hall].
    destruct Hsorted as [Hle Hsorted].
    pose proof (progbar_frac_bounds c total Ht Hc) as Hf.
    assert (Hnext : Forall (fun c' => 0 ≤ c' ≤ total
                                      ∧ c * 100 / total ≤ c' * 100 / total) currs).
    { rewrite Forall_forall in Hall, Hle. apply Forall_forall. intros c' Hc'.
      split; [by apply Hall|].
      apply Z.div_le_mono; [lia|]. specialize (Hle c' Hc'). lia. }
    destruct (progbar_calls_synchronized total currs Ht _ Hnext Hsorted)
      as (last' & outs & Hcalls & Hlen).
    cbn [progbar_calls]. unfold progbar.
    rewrite (proj2 (Z.eqb_neq total 0)) by lia.
    destruct (Z.eqb_spec (c * 100 / total) last_frac) as [Heq|Hne].
    + rewrite <- Heq, Hcalls. exists last', outs. split; [done|lia].
    + rewrite Hcalls. eexists _, _. split; [reflexivity|]. simpl length. lia.
Qed.

(** ** The matcher finds a match exactly when there is one *)

Lemma is_Some_first {A : Type} (x y : option A) :
  is_Some (match x with Some r => Some r | None => y end) ↔ is_Some x ∨ is_Some y.
Proof.
  destruct x as [r|]; split.
  - intros _. left. by eexists.
  - intros _. by eexists.
  - intros Hy. by right.
  - intros [[r Hr]|Hy]; [discriminate|done].
Qed.

Lemma star_sem_nil (B : str → str → Prop) (s' : str) :
  star_sem B [] s' → s' = [].
Proof. inversion 1; [done|]. simpl in *. lia. Qed.

Lemma repeat_loop_sem
    (body : str → caps → (str → caps → option caps) → option caps)
    (B : str → str → Prop) (greedy : bool)
    (k : str → caps → option caps) (K : str → Prop) :
  (∀ k' K', accepts k' K' →
     ∀ s g, is_Some (body s g k') ↔ ∃ s', B s s' ∧ K' s') →
  accepts k K →
  ∀ (n : nat) (s : str) (g : caps),
    (length s ≤ n)%nat →
    is_Some (repeat_loop body greedy k n s g) ↔ ∃ s', star_sem B s s' ∧ K s'.
Proof.
  intros Hbody Hk. induction n as [|n IH]; intros s g Hn.
  - destruct s; [|simpl in Hn; lia]. cbn [repeat_loop]. rewrite (Hk [] g). split.
    + intros HK. exists []. split; [constructor|done].
    + intros (s' & Hs' & HK). by apply star_sem_nil in Hs' as ->.
  - cbn [repeat_loop].
    set (k1 := fun (s' : str) (g' : caps) =>
                 if (length s' <? length s)%nat
                 then repeat_loop body greedy k n s' g' else None).
    assert (Hk1 : accepts k1 (fun s1 => (length s1 < length s)%nat
                                        ∧ ∃ s', star_sem B s1 s' ∧ K s')).
    { intros s1 g1. unfold k1.
      destruct (Nat.ltb_spec (length s1) (length s)) as [Hlt|Hge].
      - rewrite IH by lia. split; [by intros ?|by intros [_ ?]].
      - split; [by intros [? ?]|intros [? _]; lia]. }
    assert (Hagain : is_Some (body s g k1) ∨ is_Some (k s g)
                     ↔ ∃ s', star_sem B s s' ∧ K s').
    { rewrite (Hbody k1 _ Hk1), (Hk s g). split.
      - intros [(s1 & HB & Hlt & s' & Hstar & HK)|HK].
        + exists s'. split; [by eapply star_more|done].
        + exists s. split; [constructor|done].
      - intros (s' & Hstar & HK). inversion Hstar as [|? s1 ? HB Hlt Hrest]; subst.
        + by right.
        + left. exists s1. split; [done|]. split; [done|]. by exists s'. }
    destruct greedy; rewrite is_Some_first; [done|].
    rewrite <- Hagain. tauto.
Qed.

Section MatcherSemantics.
Context `{UnicodeData}.
Variable inp : str.

Lemma mtch_sem (r : re) :
  ∀ (k : str → caps → option caps) (K : str → Prop),
    accepts k K →
    ∀ (s : str) (g : caps),
      is_Some (mtch r inp s g k) ↔ ∃ s', sem r inp s s' ∧ K s'.
Proof.
  induction r as [|c| |negate items| | |r1 IH1 r2 IH2|greedy r1 IH1
                  |greedy r1 IH1|greedy r1 IH1|i r1 IH1|r1 IH1];
    intros k K Hk s g; cbn [mtch sem].
  - rewrite (Hk s g). split; [intros HK; by exists s|by intros (s' & -> & HK)].
  - destruct s as [|x s].
    + split; [by intros [? ?]|by intros (s' & [=] & _)].
    + destruct (N.eqb_spec x c) as [->|Hne].
      * rewrite (Hk s g). split; [intros HK; by exists s|].
        by intros (s' & [= <-] & HK).
      * split; [by intros [? ?]|]. intros (s' & [= ? ?] & _). done.
  - destruct s as [|x s].
    + split; [by intros [? ?]|by intros (s' & (x & [=] & _) & _)].
    + destruct (N.eqb_spec x newline) as [->|Hne].
      * split; [by intros [? ?]|]. by intros (s' & (y & [= <- <-] & Hy) & _).
      * rewrite (Hk s g). split.
        -- intros HK. exists s. split; [by exists x|done].
        -- by intros (s' & (y & [= <- <-] & _) & HK).
  - destruct s as [|x s].
    + split; [by intros [? ?]|by intros (s' & (x & [=] & _) & _)].
    + destruct (set_match negate items x) eqn:Hx.
      * rewrite (Hk s g). split.
        -- intros HK. exists s. split; [by exists x|done].
        -- by intros (s' & (y & [= <- <-] & _) & HK).
      * split; [by intros [? ?]|].
        intros (s' & (y & [= <- <-] & Hy) & _). congruence.
  - destruct (Nat.eqb_spec (length s) (length inp)) as [Heq|Hne].
    + rewrite (Hk s g). split; [intros HK; by exists s|].
      by intros (s' & [-> _] & HK).
    + split; [by intros [? ?]|]. by intros (s' & [_ ?] & _).
  - destruct s as [|x [|y s]].
    + rewrite (Hk [] g). split; [intros HK; exists []; auto|].
      by intros (s' & [-> _] & HK).
    + destruct (N.eqb_spec x newline) as [->|Hne].
      * rewrite (Hk [newline] g). split; [intros HK; exists [newline]; auto|].
        by intros (s' & [-> _] & HK).
      * split; [by intros [? ?]|].
        intros (s' & [_ [?|[= ?]]] & _); done.
    + split; [by intros [? ?]|]. intros (s' & [_ [?|?]] & _); done.
  - rewrite (IH1 _ (fun m => ∃ s', sem r2 inp m s' ∧ K s')).
    + split.
      * intros (m & H1 & s' & H2 & HK). exists s'. split; [by exists m|done].
      * intros (s' & (m & H1 & H2) & HK). exists m. split; [done|by exists s'].
    + intros m g'. by apply IH2.
  - assert (Hboth : is_Some (mtch r1 inp s g k) ∨ is_Some (k s g)
                    ↔ ∃ s', (s' = s ∨ sem r1 inp s s') ∧ K s').
    { rewrite (IH1 k K Hk), (Hk s g). split.
      - intros [(s' & H1 & HK)|HK]; [exists s'; auto|exists s; auto].
      - intros (s' & [->|H1] & HK); [by right|left; by exists s']. }
    destruct greedy; rewrite is_Some_first; [done|]. rewrite <- Hboth. tauto.
  - apply (repeat_loop_sem _ (sem r1 inp)); [|done|done].
    intros k' K' Hk' s0 g0. by apply IH1.
  - rewrite (IH1 _ (fun m => ∃ s', star_sem (sem r1 inp) m s' ∧ K s')).
    + split.
      * intros (m & H1 & s' & H2 & HK). exists s'. split; [by exists m|done].
      * intros (s' & (m & H1 & H2) & HK). exists m. split; [done|by exists s'].
    + intros m g'. apply (repeat_loop_sem _ (sem r1 inp)); [|done|done].
      intros k' K' Hk' s0 g0. by apply IH1.
  - apply IH1. intros s' g'. apply Hk.
  - pose proof (IH1 (fun _ g' => Some g') (fun _ => True)) as Hlook.
    destruct (mtch r1 inp s g (fun _ g' => Some g')) as [g'|] eqn:Hm.
    + rewrite (Hk s g'). split.
      * intros HK. exists s. split; [|done]. split; [done|].
        destruct (proj1 (Hlook ltac:(by intros ? ?; split; [|eexists]) s g))
          as (m & Hm' & _); [by rewrite Hm|]. by exists m.
      * by intros (s' & [-> _] & HK).
    + split; [by intros [? ?]|].
      intros (s' & [-> (m & Hm')] & _).
      destruct (proj2 (Hlook ltac:(by intros ? ?; split; [|eexists]) s g))
        as [? Hc]; [by exists m|]. rewrite Hm in Hc. discriminate.
Qed.

Lemma search_from_sem (r : re) (s : str) :
  is_Some (search_from r inp s) ↔ ∃ u t s', s = u ++ t ∧ sem r inp t s'.
Proof.
  assert (Hacc : accepts (fun (_ : str) (g : caps) => Some g) (fun _ => True))
    by (intros ? ?; split; [done|by eexists]).
  induction s as [|x s IH]; cbn [search_from].
  - rewrite is_Some_first, (mtch_sem r _ _ Hacc). split.
    + intros [(s' & Hs' & _)|[? ?]]; [|done]. by exists [], [], s'.
    + intros (u & t & s' & Hut & Hs'). symmetry in Hut.
      apply app_eq_nil in Hut as [-> ->]. left. by exists s'.
  - rewrite is_Some_first, (mtch_sem r _ _ Hacc), IH. split.
    + intros [(s' & Hs' & _)|(u & t & s' & -> & Hs')].
      * by exists [], (x :: s), s'.
      * by exists (x :: u), t, s'.
    + intros (u & t & s' & Hut & Hs'). destruct u as [|y u].
      * simpl in Hut. subst t. left. by exists s'.
      * injection Hut as <- ->. right. by exists u, t, s'.
Qed.
End MatcherSemantics.

(** A match found by [search] is a match of the pattern at some position. *)
Lemma re_search_sem `{UnicodeData} (r : re) (p : str) :
  is_Some (re_search r p) ↔ ∃ u t s', p = u ++ t ∧ sem r p t s'.
Proof. apply search_from_sem. Qed.

(** ** What the rule patterns match *)

Lemma star_sem_chars (B : str → str → Prop) (P : char → Prop) :
  (∀ s s1, B s s1 ↔ ∃ x, s = x :: s1 ∧ P x) →
  ∀ s s', star_sem B s s' ↔ ∃ u, s = u ++ s' ∧ Forall P u.
Proof.
  intros HB s s'. split.
  - induction 1 as [s|s s1 s' Hstep _ _ (u & -> & Hu)].
    + by exists [].
    + apply HB in Hstep as (x & -> & Hx). exists (x :: u). split; [done|].
      by constructor.
  - intros (u & -> & Hu). induction Hu as [|x u Hx _ IH]; [constructor|].
    apply (star_more B _ (u ++ s')); [|simpl; lia|exact IH].
    apply HB. by exists x.
Qed.

Lemma fst_functional {A B : Type} (l : list (A * B)) (x : A) (y1 y2 : B) :
  NoDup (map fst l) → (x, y1) ∈ l → (x, y2) ∈ l → y1 = y2.
Proof.
  induction l as [|[a b] l IH]; [by intros _ ?%elem_of_nil|].
  cbn [map fst]. intros [Ha Hl]%NoDup_cons.
  assert (Hfst : ∀ y, (a, y) ∈ l → False).
  { intros y Hy. apply Ha. change (map fst l) with (fst <$> l).
    apply list_elem_of_fmap. by exists (a, y). }
  intros [[= -> ->]|H1]%elem_of_cons [[= ?]|H2]%elem_of_cons; subst.
  - done.
  - by destruct (Hfst y2).
  - by destruct (Hfst y1).
  - by apply IH.
Qed.

Section RuleShapes.
Context `{UnicodeData}.

Lemma rule_matches_at (i : nat) (name : str) (r : re) (p : str) :
  stats !! i = Some (name, r) →
  rule_matches name p ↔ is_Some (re_search r p).
Proof.
  intros Hi. assert (Hin : (name, r) ∈ stats) by (by eapply list_elem_of_lookup_2).
  unfold rule_matches. split.
  - intros (r' & Hr' & Hm).
    by rewrite (fst_functional stats name r r' stats_names_NoDup Hin Hr').
  - intros Hm. by exists r.
Qed.

Lemma sem_single (inp : str) (r : re) (s s' : str) :
  is_single r = true →
  sem r inp s s' ↔ ∃ x, s = x :: s' ∧ single_ok r x.
Proof.
  destruct r; try discriminate; intros _; cbn [sem single_ok]; [|done|done].
  split; [intros ->; by eexists|by intros (x & -> & ->)].
Qed.

Lemma sem_seq (inp : str) (r1 r2 : re) (s s' : str) :
  sem (Seq r1 r2) inp s s' ↔ ∃ m, sem r1 inp s m ∧ sem r2 inp m s'.
Proof. reflexivity. Qed.

Lemma sem_eol (inp s s' : str) :
  sem (Seq Eol Empty) inp s s' ↔ s' = s ∧ (s = [] ∨ s = [newline]).
Proof.
  cbn [sem]. split.
  - by intros (m & [-> Hs] & ->).
  - intros [-> Hs]. by exists s.
Qed.

Lemma sem_eol_no_newline (inp s : str) :
  newline ∉ s → (∃ s', sem (Seq Eol Empty) inp s s') ↔ s = [].
Proof.
  intros Hs. split.
  - intros (s' & [_ [->| ->]]%sem_eol); [done|].
    destruct Hs. apply list_elem_of_here.
  - intros ->. exists []. apply sem_eol. auto.
Qed.

Lemma not_elem_of_app_r (x : char) (u v : str) : x ∉ u ++ v → x ∉ v.
Proof. intros Huv Hv. apply Huv, elem_of_app. by right. Qed.

Lemma star_set (inp : str) (negate : bool) (items : list citem) (s s' : str) :
  star_sem (sem (In_ negate items) inp) s s'
  ↔ ∃ u, s = u ++ s' ∧ Forall (fun x => set_match negate items x = true) u.
Proof. by apply star_sem_chars. Qed.

Lemma star_any (inp s s' : str) :
  star_sem (sem Any inp) s s' ↔ ∃ u, s = u ++ s' ∧ Forall (fun x => x ≠ newline) u.
Proof. by apply star_sem_chars. Qed.

Lemma chain_sem (inp : str) (sets : list (list citem)) :
  ∀ s, newline ∉ s → (∃ s', sem (chain sets) inp s s') ↔ runs sets s.
Proof.
  induction sets as [|items sets IH]; intros s Hs; cbn [chain runs].
  - by apply sem_eol_no_newline.
  - cbn [sem]. split.
    + intros (s' & m & (m0 & (x & -> & Hx) & (u & -> & Hu)%(star_set inp _ _)) & Hrest).
      exists (x :: u), m. split; [done|]. split; [done|].
      split; [by constructor|]. apply IH.
      * change (newline ∉ (x :: u) ++ m) in Hs. by eapply not_elem_of_app_r.
      * by exists s'.
    + intros (u & v & -> & Hne & Hu & Hv).
      apply IH in Hv as [s' Hs']; [|by eapply not_elem_of_app_r].
      destruct u as [|x u]; [done|]. apply Forall_cons in Hu as [Hx Hu].
      exists s', v. split; [|done]. exists (u ++ v). split; [by exists x|].
      apply (star_set inp). by exists u.
Qed.

Lemma bol_search (r : re) (p : str) :
  is_Some (re_search (Seq Bol r) p) ↔ ∃ s', sem r p p s'.
Proof.
  rewrite re_search_sem. cbn [sem]. split.
  - intros (u & t & s' & Hp & m & [-> Hlen] & Hr).
    assert (u = []) as ->.
    { apply (f_equal length) in Hp. rewrite length_app in Hp.
      destruct u; [done|simpl in Hp; lia]. }
    simpl in Hp. subst t. by exists s'.
  - intros (s' & Hr). exists [], p, s'. split; [done|]. by exists p.
Qed.

Lemma look_sem (inp : str) (items : list citem) (s s' : str) :
  newline ∉ s →
  sem (Look (Seq (Star true Any) (Seq (In_ false items) Empty))) inp s s'
  ↔ s' = s ∧ Exists (in_set items) s.
Proof.
  intros Hs. cbn [sem]. split.
  - intros [-> (m & m1 & (u & -> & Hu)%(star_any inp _ _) & m2 & (x & -> & Hx) & ->)].
    split; [done|]. apply Exists_app. right. by apply Exists_cons_hd.
  - intros [-> Hex]. split; [done|].
    apply Exists_exists in Hex as (x & Hin & Hx).
    apply list_elem_of_split in Hin as (u & w & ->).
    exists w, (x :: w). split.
    + apply (star_any inp). exists u. split; [done|].
      apply Forall_forall. intros y Hy ->. apply Hs, elem_of_app. by left.
    + exists w. split; [by exists x|done].
Qed.

Lemma looks_sem (inp : str) (sets : list (list citem)) (rest : re) (s s' : str) :
  newline ∉ s →
  sem (looks sets rest) inp s s'
  ↔ Forall (fun items => Exists (in_set items) s) sets ∧ sem rest inp s s'.
Proof.
  intros Hs. induction sets as [|items sets IH]; cbn [looks].
  - split; [by intros ?|by intros [_ ?]].
  - change (sem (Seq ?a ?b) inp s s') with (∃ m, sem a inp s m ∧ sem b inp m s').
    split.
    + intros (m & [-> Hex]%look_sem & [Hall Hrest]%IH); [|done].
      split; [by constructor|done].
    + intros [[Hex Hall]%Forall_cons Hrest]. exists s. split.
      * by apply look_sem.
      * by apply IH.
Qed.

Lemma star_set_end (inp : str) (items : list citem) (s : str) :
  newline ∉ s →
  (∃ s', sem (Seq (Star true (In_ false items)) (Seq Eol Empty)) inp s s')
  ↔ Forall (in_set items) s.
Proof.
  intros Hs. split.
  - intros (s' & (m & (u & -> & Hu)%(star_set inp _ _) & Hend)%sem_seq).
    assert (m = []) as ->.
    { apply (sem_eol_no_newline inp); [by eapply not_elem_of_app_r|by exists s']. }
    by rewrite app_nil_r.
  - intros Hall. exists []. apply sem_seq. exists []. split.
    + apply (star_set inp). exists s. by rewrite app_nil_r.
    + apply sem_eol. auto.
Qed.

Lemma star_any_end (inp : str) (s : str) :
  newline ∉ s →
  ∃ s', sem (Seq (Star true Any) (Seq Eol Empty)) inp s s'.
Proof.
  intros Hs. exists []. apply sem_seq. exists []. split.
  - apply (star_any inp). exists s. split; [by rewrite app_nil_r|].
    apply Forall_forall. by intros x Hx ->.
  - apply sem_eol. auto.
Qed.

Lemma literal_sem (inp : str) (w s s' : str) :
  sem (literal w) inp s s' ↔ s = w ++ s'.
Proof.
  revert s. induction w as [|c w IH]; intros s; cbn [literal sem].
  - split; by intros ->.
  - split.
    + by intros (m & -> & ->%IH).
    + intros ->. exists (w ++ s'). split; [done|by apply IH].
Qed.

Lemma singles_sem (inp : str) (rs : list re) :
  forallb is_single rs = true →
  ∀ s, newline ∉ s →
       (∃ s', sem (singles rs) inp s s') ↔ Forall2 single_ok rs s.
Proof.
  induction rs as [|r rs IH]; intros Hrs s Hs; cbn [singles].
  - rewrite sem_eol_no_newline by done. split; [intros ->; constructor|].
    by intros ->%Forall2_nil_inv_l.
  - cbn [forallb] in Hrs. apply andb_prop in Hrs as [Hr Hrs]. split.
    + intros (s' & (m & (x & -> & Hx)%sem_single & Hrest)%sem_seq); [|done].
      constructor; [done|]. apply IH; [done| |by exists s'].
      by apply not_elem_of_cons in Hs as [_ ?].
    + intros (x & m & Hx & Hm & ->)%Forall2_cons_inv_l.
      apply IH in Hm as [s' Hs']; [|done|by apply not_elem_of_cons in Hs as [_ ?]].
      exists s'. apply sem_seq. exists m. split; [|done].
      apply sem_single; [done|]. by exists x.
Qed.
End RuleShapes.

Section RuleSearch.
Context `{UnicodeData}.

Lemma search_literal (w p : str) :
  is_Some (re_search (literal w) p) ↔ ∃ u v, p = u ++ w ++ v.
Proof.
  rewrite re_search_sem. split.
  - intros (u & t & s' & Hut & ->%literal_sem). by exists u, s'.
  - intros (u & v & Huv). exists u, (w ++ v), v. split; [done|]. by apply literal_sem.
Qed.

Lemma search_singles (rs : list re) (p : str) :
  forallb is_single rs = true → newline ∉ p →
  is_Some (re_search (singles rs) p) ↔ ∃ u w, p = u ++ w ∧ Forall2 single_ok rs w.
Proof.
  intros Hrs Hp. rewrite re_search_sem. split.
  - intros (u & t & s' & Hut & Hsem). exists u, t. split; [done|].
    apply (singles_sem p rs Hrs); [|by exists s'].
    rewrite Hut in Hp. by eapply not_elem_of_app_r.
  - intros (u & w & Huw & Hw).
    apply (singles_sem p rs Hrs) in Hw as [s' Hs'];
      [|rewrite Huw in Hp; by eapply not_elem_of_app_r].
    by exists u, w, s'.
Qed.

Lemma search_chain (sets : list (list citem)) (p : str) :
  newline ∉ p →
  is_Some (re_search (Seq Bol (chain sets)) p) ↔ runs sets p.
Proof. intros Hp. rewrite bol_search. by apply chain_sem. Qed.

Lemma search_one_then_chain (items : list citem) (sets : list (list citem))
    (p : str) :
  newline ∉ p →
  is_Some (re_search (Seq Bol (Seq (In_ false items) (chain sets))) p)
  ↔ ∃ x q, p = x :: q ∧ in_set items x ∧ runs sets q.
Proof.
  intros Hp. rewrite bol_search. split.
  - intros (s' & (m & (x & Hpx & Hx) & Hrest)%sem_seq). exists x, m.
    split; [done|]. split; [done|].
    apply (chain_sem p); [|by exists s'].
    rewrite Hpx in Hp. by apply not_elem_of_cons in Hp as [_ ?].
  - intros (x & q & Hpx & Hx & Hq).
    apply (chain_sem p) in Hq as [s' Hs'];
      [|rewrite Hpx in Hp; by apply not_elem_of_cons in Hp as [_ ?]].
    exists s'. apply sem_seq. exists q. split; [by exists x|done].
Qed.

Lemma search_looks_set (sets : list (list citem)) (items : list citem) (p : str) :
  newline ∉ p →
  is_Some (re_search
             (Seq Bol (looks sets (Seq (Star true (In_ false items))
                                       (Seq Eol Empty)))) p)
  ↔ Forall (fun i => Exists (in_set i) p) sets ∧ Forall (in_set items) p.
Proof.
  intros Hp. rewrite bol_search. split.
  - intros (s' & [Hsets Hrest]%looks_sem); [|done]. split; [done|].
    apply (star_set_end p); [done|by exists s'].
  - intros [Hsets Hall]. apply (star_set_end p) in Hall as [s' Hs']; [|done].
    exists s'. by apply looks_sem.
Qed.

Lemma search_looks_any (sets : list (list citem)) (p : str) :
  newline ∉ p →
  is_Some (re_search
             (Seq Bol (looks sets (Seq (Star true Any) (Seq Eol Empty)))) p)
  ↔ Forall (fun i => Exists (in_set i) p) sets.
Proof.
  intros Hp. rewrite bol_search. split.
  - by intros (s' & [Hsets _]%looks_sem).
  - intros Hsets. destruct (star_any_end p p Hp) as [s' Hs'].
    exists s'. by apply looks_sem.
Qed.

Lemma search_first_last (first last : list citem) (p : str) :
  newline ∉ p →
  is_Some (re_search
             (Seq Bol (Seq (In_ false first)
                (Seq (Star true Any) (Seq (In_ false last) (Seq Eol Empty))))) p)
  ↔ ∃ x u y, p = x :: u ++ [y] ∧ in_set first x ∧ in_set last y.
Proof.
  intros Hp. rewrite bol_search. split.
  - intros (s' & (m & (x & Hpx & Hx) & (m1 & (u & -> & Hu)%(star_any p _ _)
             & (m2 & (y & -> & Hy) & Hend)%sem_seq)%sem_seq)%sem_seq).
    assert (m2 = []) as ->.
    { apply (sem_eol_no_newline p); [|by exists s'].
      rewrite Hpx in Hp. apply not_elem_of_cons in Hp as [_ Hp].
      apply not_elem_of_app_r in Hp. by apply not_elem_of_cons in Hp as [_ ?]. }
    by exists x, u, y.
  - intros (x & u & y & Hpx & Hx & Hy). exists [].
    apply sem_seq. exists (u ++ [y]). split; [by exists x|].
    apply sem_seq. exists [y]. split.
    + apply (star_any p). exists u. split; [done|].
      apply Forall_forall. intros z Hz ->. apply Hp. rewrite Hpx.
      apply list_elem_of_further, elem_of_app. by left.
    + apply sem_seq. exists []. split; [by exists y|]. apply sem_eol. auto.
Qed.

Lemma runs_one (items : list citem) (p : str) :
  runs [items] p ↔ p ≠ [] ∧ Forall (in_set items) p.
Proof.
  cbn [runs]. split.
  - intros (u & v & -> & Hu & Hall & ->). by rewrite app_nil_r.
  - intros [Hp Hall]. exists p, []. by rewrite app_nil_r.
Qed.
End RuleSearch.

Ltac rule i ast :=
  etransitivity;
  [apply (rule_matches_at i _ ast); vm_compute; reflexivity|].

Section ContainsRules.
Context `{UnicodeData}.
Variable p : str.

(** X18: the three "Contains" rules look for their text anywhere in the
    password. *)
Theorem contains_rules_find_their_text :
  (rule_matches (lit "Contains: 123") p ↔ ∃ u v, p = u ++ lit "123" ++ v) ∧
  (rule_matches (lit "Contains: 1234") p ↔ ∃ u v, p = u ++ lit "1234" ++ v) ∧
  (rule_matches (lit "Contains: space") p ↔ ∃ u v, p = u ++ lit " " ++ v).
Proof.
  split; [|split].
  - rule 0%nat (literal (lit "123")). apply search_literal.
  - rule 1%nat (literal (lit "1234")). apply search_literal.
  - rule 2%nat (literal (lit " ")). apply search_literal.
Qed.
End ContainsRules.

Lemma in_set_app `{UnicodeData} (a b : list citem) (x : char) :
  in_set (a ++ b) x ↔ in_set a x ∨ in_set b x.
Proof.
  unfold in_set, set_match. cbn [xorb]. rewrite existsb_app, orb_true_iff.
  by destruct (existsb _ a), (existsb _ b).
Qed.

Section RuleMeanings.
Context `{UnicodeData}.
Variable p : str.
Hypothesis no_newline : newline ∉ p.

(** X19: on a password without newline, the rules "All lowercase", "All
    num" and "All uppercase" match exactly the non-empty passwords made
    of characters of [a-z], of [\d] and of [A-Z]. *)
Theorem charset_rules_mean_whole_password :
  (rule_matches (lit "Has: All lowercase") p
   ↔ p ≠ [] ∧ Forall (in_set lower_items) p) ∧
  (rule_matches (lit "Has: All num") p
   ↔ p ≠ [] ∧ Forall (in_set digit_items) p) ∧
  (rule_matches (lit "Has: All uppercase") p
   ↔ p ≠ [] ∧ Forall (in_set upper_items) p).
Proof.
  split; [|split].
  - rule 3%nat (Seq Bol (chain [lower_items])).
    rewrite search_chain by done. apply runs_one.
  - rule 4%nat (Seq Bol (chain [digit_items])).
    rewrite search_chain by done. apply runs_one.
  - rule 5%nat (Seq Bol (chain [upper_items])).
    rewrite search_chain by done. apply runs_one.
Qed.

(** X20: on a password without newline, each "Seq" rule matches exactly
    the passwords that are the runs its name announces, each run
    non-empty and in that order, with nothing before, between or after. *)
Theorem sequence_rules_mean_runs :
  (rule_matches (lit "Seq: 1 upper > lower > num or symbol") p
   ↔ ∃ x q, p = x :: q ∧ in_set upper_items x
            ∧ runs [lower_items; digit_items ++ symbol_class] q) ∧
  (rule_matches (lit "Seq: 1 upper > lower > num") p
   ↔ ∃ x q, p = x :: q ∧ in_set upper_items x
            ∧ runs [lower_items; digit_items] q) ∧
  (rule_matches (lit "Seq: aplha > num > alpha") p
   ↔ runs [alpha_items; digit_items; alpha_items] p) ∧
  (rule_matches (lit "Seq: aplha > num > symbol") p
   ↔ runs [alpha_items; digit_items; symbol_class] p) ∧
  (rule_matches (lit "Seq: aplha > num") p
   ↔ runs [alpha_items; digit_items] p) ∧
  (rule_matches (lit "Seq: aplha > symbol > num") p
   ↔ runs [alpha_items; symbol_class; digit_items] p).
Proof.
  split; [|split; [|split; [|split; [|split]]]].
  - rule 26%nat (Seq Bol (Seq (In_ false upper_items)
                   (chain [lower_items; digit_items ++ symbol_class]))).
    by apply search_one_then_chain.
  - rule 27%nat (Seq Bol (Seq (In_ false upper_items)
                   (chain [lower_items; digit_items]))).
    by apply search_one_then_chain.
  - rule 28%nat (Seq Bol (chain [alpha_items; digit_items; alpha_items])).
    by apply search_chain.
  - rule 29%nat (Seq Bol (chain [alpha_items; digit_items; symbol_class])).
    by apply search_chain.
  - rule 30%nat (Seq Bol (chain [alpha_items; digit_items])).
    by apply search_chain.
  - rule 31%nat (Seq Bol (chain [alpha_items; symbol_class; digit_items])).
    by apply search_chain.
Qed.

(** X21: on a password without newline, each composition rule matches
    exactly the passwords that have a character of every class it names
    and, except for the rule of all four classes, no character outside
    those classes. *)
Theorem composition_rules_mean_classes_present :
  (rule_matches (lit "Has: Upper + lower + num + symbol") p
   ↔ Forall (fun i => Exists (in_set i) p)
            [lower_items; upper_items; digit_items; symbol_class]) ∧
  (rule_matches (lit "Has: Lower + num + symbol") p
   ↔ Forall (fun i => Exists (in_set i) p)
            [lower_items; digit_items; symbol_class]
     ∧ Forall (in_set (lower_items ++ digit_items ++ symbol_class)) p) ∧
  (rule_matches (lit "Has: Upper + num + symbol") p
   ↔ Forall (fun i => Exists (in_set i) p)
            [upper_items; digit_items; symbol_class]
     ∧ Forall (in_set (upper_items ++ digit_items ++ symbol_class)) p) ∧
  (rule_matches (lit "Has: Upper + lower + num") p
   ↔ Forall (fun i => Exists (in_set i) p)
            [lower_items; upper_items; digit_items]
     ∧ Forall (in_set (alpha_items ++ digit_items)) p) ∧
  (rule_matches (lit "Has: Alpha + num") p
   ↔ Forall (fun i => Exists (in_set i) p)
            [lower_items ++ upper_items; digit_items]
     ∧ Forall (in_set (alpha_items ++ digit_items)) p) ∧
  (rule_matches (lit "Has: Alpha + symbol") p
   ↔ Forall (fun i => Exists (in_set i) p)
            [lower_items ++ upper_items; symbol_class]
     ∧ Forall (in_set (alpha_items ++ symbol_class)) p) ∧
  (rule_matches (lit "Has: Upper + lower + symbol") p
   ↔ Forall (fun i => Exists (in_set i) p)
            [lower_items; upper_items; symbol_class]
     ∧ Forall (in_set (alpha_items ++ symbol_class)) p) ∧
  (rule_matches (lit "Has: Upper + lower") p
   ↔ Forall (fun i => Exists (in_set i) p) [lower_items; upper_items]
     ∧ Forall (in_set alpha_items) p).
Proof.
  split; [|split; [|split; [|split; [|split; [|split; [|split]]]]]].
  - rule 12%nat (Seq Bol (looks [lower_items; upper_items; digit_items; symbol_class]
                            (Seq (Star true Any) (Seq Eol Empty)))).
    by apply search_looks_any.
  - rule 13%nat (Seq Bol (looks [lower_items; digit_items; symbol_class]
      (Seq (Star true (In_ false (lower_items ++ digit_items ++ symbol_class)))
           (Seq Eol Empty)))).
    by apply search_looks_set.
  - rule 14%nat (Seq Bol (looks [upper_items; digit_items; symbol_class]
      (Seq (Star true (In_ false (upper_items ++ digit_items ++ symbol_class)))
           (Seq Eol Empty)))).
    by apply search_looks_set.
  - rule 15%nat (Seq Bol (looks [lower_items; upper_items; digit_items]
      (Seq (Star true (In_ false (alpha_items ++ digit_items))) (Seq Eol Empty)))).
    by apply search_looks_set.
  - rule 16%nat (Seq Bol (looks [lower_items ++ upper_items; digit_items]
      (Seq (Star true (In_ false (alpha_items ++ digit_items))) (Seq Eol Empty)))).
    by apply search_looks_set.
  - rule 17%nat (Seq Bol (looks [lower_items ++ upper_items; symbol_class]
      (Seq (Star true (In_ false (alpha_items ++ symbol_class))) (Seq Eol Empty)))).
    by apply search_looks_set.
  - rule 18%nat (Seq Bol (looks [lower_items; upper_items; symbol_class]
      (Seq (Star true (In_ false (alpha_items ++ symbol_class))) (Seq Eol Empty)))).
    by apply search_looks_set.
  - rule 19%nat (Seq Bol (looks [lower_items; upper_items]
      (Seq (Star true (In_ false alpha_items)) (Seq Eol Empty)))).
    by apply search_looks_set.
Qed.

(** X22: on a password without newline, each rule about the end of the
    password matches exactly the passwords that end in the characters it
    asks for, one by one: a character that is no digit and then one to
    four digits, or the literal digits of the rule, with [xx] any two
    digits. *)
Theorem suffix_rules_mean_endings :
  (rule_matches (lit "Has: Four digits at the end") p
   ↔ ∃ u w, p = u ++ w
            ∧ Forall2 single_ok [no_digit; a_digit; a_digit; a_digit; a_digit] w) ∧
  (rule_matches (lit "Has: Single digit at the end") p
   ↔ ∃ u w, p = u ++ w ∧ Forall2 single_ok [no_digit; a_digit] w) ∧
  (rule_matches (lit "Has: Three digits at the end") p
   ↔ ∃ u w, p = u ++ w ∧ Forall2 single_ok [no_digit; a_digit; a_digit; a_digit] w) ∧
  (rule_matches (lit "Has: Two digits at the end") p
   ↔ ∃ u w, p = u ++ w ∧ Forall2 single_ok [no_digit; a_digit; a_digit] w) ∧
  (rule_matches (lit "Last digit is '0'") p
   ↔ ∃ u w, p = u ++ w ∧ Forall2 single_ok [Lit (ch "0")] w) ∧
  (rule_matches (lit "Last digits are '020'") p
   ↔ ∃ u w, p = u ++ w
            ∧ Forall2 single_ok [Lit (ch "0"); Lit (ch "2"); Lit (ch "0")] w) ∧
  (rule_matches (lit "Last digits are '19xx'") p
   ↔ ∃ u w, p = u ++ w
            ∧ Forall2 single_ok [Lit (ch "1"); Lit (ch "9"); a_digit; a_digit] w) ∧
  (rule_matches (lit "Last digits are '20'") p
   ↔ ∃ u w, p = u ++ w ∧ Forall2 single_ok [Lit (ch "2"); Lit (ch "0")] w) ∧
  (rule_matches (lit "Last digits are '2020'") p
   ↔ ∃ u w, p = u ++ w
            ∧ Forall2 single_ok
                [Lit (ch "2"); Lit (ch "0"); Lit (ch "2"); Lit (ch "0")] w) ∧
  (rule_matches (lit "Last digits are '20xx'") p
   ↔ ∃ u w, p = u ++ w
            ∧ Forall2 single_ok [Lit (ch "2"); Lit (ch "0"); a_digit; a_digit] w).
Proof.
  split; [|split; [|split; [|split; [|split; [|split; [|split; [|split; [|split]]]]]]]].
  - rule 8%nat (singles [no_digit; a_digit; a_digit; a_digit; a_digit]).
    by apply search_singles.
  - rule 9%nat (singles [no_digit; a_digit]). by apply search_singles.
  - rule 10%nat (singles [no_digit; a_digit; a_digit; a_digit]).
    by apply search_singles.
  - rule 11%nat (singles [no_digit; a_digit; a_digit]). by apply search_singles.
  - rule 20%nat (singles [Lit (ch "0")]). by apply search_singles.
  - rule 21%nat (singles [Lit (ch "0"); Lit (ch "2"); Lit (ch "0")]).
    by apply search_singles.
  - rule 22%nat (singles [Lit (ch "1"); Lit (ch "9"); a_digit; a_digit]).
    by apply search_singles.
  - rule 23%nat (singles [Lit (ch "2"); Lit (ch "0")]). by apply search_singles.
  - rule 24%nat (singles [Lit (ch "2"); Lit (ch "0"); Lit (ch "2"); Lit (ch "0")]).
    by apply search_singles.
  - rule 25%nat (singles [Lit (ch "2"); Lit (ch "0"); a_digit; a_digit]).
    by apply search_singles.
Qed.

(** X23: on a password without newline, the two "First capital" rules
    match exactly the passwords of at least two characters that start
    with a character of [A-Z] and end with a digit, or with a character
    of the symbol class of the rules. *)
Theorem first_capital_rules_mean_first_and_last :
  (rule_matches (lit "Has: First capital, last number") p
   ↔ ∃ x u y, p = x :: u ++ [y] ∧ in_set upper_items x ∧ in_set digit_items y) ∧
  (rule_matches (lit "Has: First capital, last symbol") p
   ↔ ∃ x u y, p = x :: u ++ [y] ∧ in_set upper_items x ∧ in_set symbol_class y).
Proof.
  split.
  - rule 6%nat (Seq Bol (Seq (In_ false upper_items)
      (Seq (Star true Any) (Seq (In_ false digit_items) (Seq Eol Empty))))).
    by apply search_first_last.
  - rule 7%nat (Seq Bol (Seq (In_ false upper_items)
      (Seq (Star true Any) (Seq (In_ false symbol_class) (Seq Eol Empty))))).
    by apply search_first_last.
Qed.
End RuleMeanings.

(** ** Files, lines and the progress count *)

Section FilesAndLines.
Context `{UnicodeData} `{FuzzyWuzzy}.
Variable a : args.
Variable categories : categories_t.

Lemma process_line_shift (st : loop_state) (l : str) (dp dv : Z) :
  process_line a categories (shift_counts st dp dv) l
  = match process_line a categories st l with
    | OK st' => OK (shift_counts st' dp dv)
    | Raise e => Raise e
    end.
Proof.
  unfold process_line, shift_counts. cbn [ctrs progress valid_passwords].
  replace (progress st + dp + 1) with (progress st + 1 + dp) by lia.
  replace (valid_passwords st + dv + 1) with (valid_passwords st + 1 + dv) by lia.
  destruct (line_password l) as [[[|x p]|]|e];
    cbn [mbind result_bind mret result_ret]; [done| |done|done].
  destruct (recover (x :: p)) as [p'|e];
    cbn [mbind result_bind mret result_ret]; [|done].
  by destruct (classify a categories p' (ctrs st)) as [c'|e].
Qed.

Lemma process_lines_shift (lines : list str) (st : loop_state) (dp dv : Z) :
  process_lines a categories lines (shift_counts st dp dv)
  = match process_lines a categories lines st with
    | OK st' => OK (shift_counts st' dp dv)
    | Raise e => Raise e
    end.
Proof.
  revert st. induction lines as [|l lines IH]; intros st; [done|].
  cbn [process_lines]. rewrite process_line_shift.
  destruct (process_line a categories st l) as [st1|e];
    cbn [mbind result_bind]; [apply IH|done].
Qed.

Lemma process_file_lines_app (rs : run_state) (l1 l2 : list str) :
  process_file_lines a categories rs (l1 ++ l2)
  = rs1 ← process_file_lines a categories rs l1;
    process_file_lines a categories rs1 l2.
Proof.
  unfold process_file_lines. rewrite process_lines_app.
  destruct (process_lines a categories l1 _) as [st1|e] eqn:H1;
    cbn [mbind result_bind mret result_ret]; [|done].
  cbn [run_ctrs grand_total total_valid_passwords].
  pose proof (process_lines_shift l2
    {| ctrs := ctrs st1; progress := 0; valid_passwords := 0 |}
    (progress st1) (valid_passwords st1)) as Hshift.
  unfold shift_counts at 1 in Hshift. cbn [ctrs progress valid_passwords] in Hshift.
  replace {| ctrs := ctrs st1; progress := 0 + progress st1;
             valid_passwords := 0 + valid_passwords st1 |} with st1 in Hshift
    by (destruct st1; cbn; f_equal; lia).
  rewrite Hshift. clear Hshift.
  destruct (process_lines a categories l2
              {| ctrs := ctrs st1; progress := 0; valid_passwords := 0 |})
    as [st2|e]; cbn [mbind result_bind mret result_ret]; [|done].
  unfold shift_counts. cbn [ctrs valid_passwords].
  rewrite length_app. f_equal. f_equal; lia.
Qed.

Lemma process_files_as_lines (files : list str) (rs : run_state) :
  process_files a categories files rs
  = process_file_lines a categories rs (all_lines files).
Proof.
  revert rs. unfold all_lines.
  induction files as [|f files IH]; intros rs; cbn [process_files map concat].
  - unfold process_file_lines. cbn [process_lines mbind result_bind mret result_ret
      ctrs valid_passwords length]. destruct rs as [c g v].
    cbn [run_ctrs grand_total total_valid_passwords].
    by rewrite !Z.add_0_r.
  - rewrite process_file_lines_app. unfold process_file at 1.
    destruct (process_file_lines a categories rs (splitlines f)) as [rs1|e];
      cbn [mbind result_bind]; [apply IH|done].
Qed.

(** X24: the files of a run accumulate as if they were one: processing
    the files one after the other gives the same counters and totals, or
    the same exception, as processing all their lines as the lines of a
    single file. *)
Theorem files_accumulate_like_one_file (files : list str) (rs : run_state) :
  process_files a categories files rs
  = process_file_lines a categories rs (all_lines files).
Proof. apply process_files_as_lines. Qed.

(** X25: when the body of the line loop is run for a line, the progress
    count it reaches lies between 1 and the number of lines of the file,
    and the count of valid passwords is at most the progress count: the
    progress bar is never asked to divide by zero. *)
Theorem progress_stays_within_total
    (c : counters) (before after : list str) (l : str) (st st' : loop_state) :
  process_lines a categories before
    {| ctrs := c; progress := 0; valid_passwords := 0 |} = OK st →
  process_line a categories st l = OK st' →
  1 ≤ progress st' ≤ Z.of_nat (length (before ++ l :: after)) ∧
  0 ≤ valid_passwords st' ≤ progress st'.
Proof.
  intros (Hp & Hv & _)%process_lines_counts (Hp' & Hv' & _)%process_line_counts.
  cbn [progress valid_passwords] in Hp, Hv.
  pose proof (List.filter_length_le valid_line before).
  rewrite length_app. simpl length.
  destruct (valid_line l); lia.
Qed.
End FilesAndLines.

(** ** How the rules overlap *)

Ltac rule_in i ast H :=
  apply (rule_matches_at i _ ast) in H; [|vm_compute; reflexivity].

Ltac rule_goal i ast :=
  apply (rule_matches_at i _ ast); [vm_compute; reflexivity|].

Section RuleOverlap.
Context `{UnicodeData}.
Variable p : str.
Hypothesis no_newline : newline ∉ p.

Lemma in_set_upper_alpha (x : char) : in_set upper_items x → in_set alpha_items x.
Proof. intros Hx. apply in_set_app. by left. Qed.

Lemma in_set_lower_alpha (x : char) : in_set lower_items x → in_set alpha_items x.
Proof. intros Hx. apply in_set_app. by right. Qed.

Lemma lower_not_upper (x : char) : in_set lower_items x → ¬ in_set upper_items x.
Proof.
  unfold in_set, set_match, lower_items, upper_items. cbn [xorb existsb citem_match].
  change (ch "a") with 97%N. change (ch "z") with 122%N.
  change (ch "A") with 65%N. change (ch "Z") with 90%N.
  rewrite !orb_false_r, !andb_true_iff, !N.leb_le. lia.
Qed.

(** X26: on a password without newline the rules overlap as their names
    suggest: a password counted for "Seq: 1 upper > lower > num" is also
    counted for "Seq: 1 upper > lower > num or symbol", "Seq: aplha >
    num", "Has: First capital, last number" and "Has: Upper + lower +
    num"; one counted for "Seq: aplha > num" is counted for "Has: Alpha +
    num"; one counted for "Contains: 1234" is counted for "Contains:
    123"; the endings '2020', '020', '20' and '0' are each counted with
    the next; and no password is counted both for "All lowercase" and
    for "All uppercase". *)
Theorem rules_overlap :
  (rule_matches (lit "Seq: 1 upper > lower > num") p →
   rule_matches (lit "Seq: 1 upper > lower > num or symbol") p ∧
   rule_matches (lit "Seq: aplha > num") p ∧
   rule_matches (lit "Has: First capital, last number") p ∧
   rule_matches (lit "Has: Upper + lower + num") p) ∧
  (rule_matches (lit "Seq: aplha > num") p →
   rule_matches (lit "Has: Alpha + num") p) ∧
  (rule_matches (lit "Contains: 1234") p → rule_matches (lit "Contains: 123") p) ∧
  (rule_matches (lit "Last digits are '2020'") p →
   rule_matches (lit "Last digits are '020'") p) ∧
  (rule_matches (lit "Last digits are '020'") p →
   rule_matches (lit "Last digits are '20'") p) ∧
  (rule_matches (lit "Last digits are '20'") p →
   rule_matches (lit "Last digit is '0'") p) ∧
  ¬ (rule_matches (lit "Has: All lowercase") p ∧
     rule_matches (lit "Has: All uppercase") p).
Proof.
  split; [|split; [|split; [|split; [|split; [|split]]]]].
  - intros Hm.
    rule_in 27%nat (Seq Bol (Seq (In_ false upper_items)
                      (chain [lower_items; digit_items]))) Hm.
    apply search_one_then_chain in Hm
      as (x & q & Hp & Hx & u & v1 & -> & Hu & Hlower & v & v2 & -> & Hv & Hdigit & ->);
      [|done].
    rewrite app_nil_r in Hp.
    split; [|split; [|split]].
    + rule_goal 26%nat (Seq Bol (Seq (In_ false upper_items)
                          (chain [lower_items; digit_items ++ symbol_class]))).
      apply search_one_then_chain; [done|]. exists x, (u ++ v).
      split; [done|]. split; [done|]. exists u, v.
      split; [done|]. split; [done|]. split; [done|].
      exists v, []. rewrite app_nil_r.
      split; [done|]. split; [done|]. split; [|done].
      eapply Forall_impl; [exact Hdigit|]. intros y Hy. apply in_set_app. by left.
    + rule_goal 30%nat (Seq Bol (chain [alpha_items; digit_items])).
      apply search_chain; [done|]. exists (x :: u), v.
      split; [done|]. split; [done|]. split.
      * constructor; [by apply in_set_upper_alpha|].
        eapply Forall_impl; [exact Hlower|]. apply in_set_lower_alpha.
      * exists v, []. rewrite app_nil_r. split; [done|]. split; [done|]. by split.
    + rule_goal 6%nat (Seq Bol (Seq (In_ false upper_items)
        (Seq (Star true Any) (Seq (In_ false digit_items) (Seq Eol Empty))))).
      apply search_first_last; [done|].
      destruct (exists_last Hv) as (v' & y & ->).
      exists x, (u ++ v'), y. split; [by rewrite <- app_assoc|].
      split; [done|].
      apply Forall_app in Hdigit as [_ Hy]. by apply Forall_inv in Hy.
    + rule_goal 15%nat (Seq Bol (looks [lower_items; upper_items; digit_items]
        (Seq (Star true (In_ false (alpha_items ++ digit_items))) (Seq Eol Empty)))).
      apply search_looks_set; [done|]. rewrite Hp. split.
      * constructor; [|constructor; [|constructor; [|constructor]]].
        -- apply Exists_cons_tl, Exists_app. left.
           destruct u as [|y u]; [done|].
           apply Forall_cons in Hlower as [Hy _]. by apply Exists_cons_hd.
        -- by apply Exists_cons_hd.
        -- apply Exists_cons_tl, Exists_app. right.
           destruct v as [|y v]; [done|].
           apply Forall_cons in Hdigit as [Hy _]. by apply Exists_cons_hd.
      * constructor; [apply in_set_app; left; by apply in_set_upper_alpha|].
        apply Forall_app. split.
        -- eapply Forall_impl; [exact Hlower|]. intros y Hy.
           apply in_set_app. left. by apply in_set_lower_alpha.
        -- eapply Forall_impl; [exact Hdigit|]. intros y Hy.
           apply in_set_app. by right.
  - intros Hm. rule_in 30%nat (Seq Bol (chain [alpha_items; digit_items])) Hm.
    apply search_chain in Hm
      as (u & v1 & Hp & Hu & Halpha & v & v2 & -> & Hv & Hdigit & ->); [|done].
    rewrite app_nil_r in Hp.
    rule_goal 16%nat (Seq Bol (looks [lower_items ++ upper_items; digit_items]
      (Seq (Star true (In_ false (alpha_items ++ digit_items))) (Seq Eol Empty)))).
    apply search_looks_set; [done|]. rewrite Hp. split.
    + constructor; [|constructor; [|constructor]].
      * apply Exists_app. left. destruct u as [|y u]; [done|].
        apply Forall_cons in Halpha as [Hy _]. apply Exists_cons_hd.
        apply in_set_app. apply in_set_app in Hy. tauto.
      * apply Exists_app. right. destruct v as [|y v]; [done|].
        apply Forall_cons in Hdigit as [Hy _]. by apply Exists_cons_hd.
    + apply Forall_app. split.
      * eapply Forall_impl; [exact Halpha|]. intros y Hy. apply in_set_app. by left.
      * eapply Forall_impl; [exact Hdigit|]. intros y Hy. apply in_set_app. by right.
  - intros Hm. rule_in 1%nat (literal (lit "1234")) Hm.
    apply search_literal in Hm as (u & v & Hp).
    rule_goal 0%nat (literal (lit "123")). apply search_literal.
    exists u, (ch "4" :: v). rewrite Hp. reflexivity.
  - intros Hm.
    rule_in 24%nat (singles [Lit (ch "2"); Lit (ch "0"); Lit (ch "2"); Lit (ch "0")]) Hm.
    apply search_singles in Hm as (u & w & Hp & Hw); [|done|done].
    rule_goal 21%nat (singles [Lit (ch "0"); Lit (ch "2"); Lit (ch "0")]).
    apply search_singles; [done|done|].
    apply Forall2_cons_inv_l in Hw as (y & w' & Hy & Hw & ->).
    exists (u ++ [y]), w'. split; [|done]. by rewrite Hp, <- app_assoc.
  - intros Hm.
    rule_in 21%nat (singles [Lit (ch "0"); Lit (ch "2"); Lit (ch "0")]) Hm.
    apply search_singles in Hm as (u & w & Hp & Hw); [|done|done].
    rule_goal 23%nat (singles [Lit (ch "2"); Lit (ch "0")]).
    apply search_singles; [done|done|].
    apply Forall2_cons_inv_l in Hw as (y & w' & Hy & Hw & ->).
    exists (u ++ [y]), w'. split; [|done]. by rewrite Hp, <- app_assoc.
  - intros Hm.
    rule_in 23%nat (singles [Lit (ch "2"); Lit (ch "0")]) Hm.
    apply search_singles in Hm as (u & w & Hp & Hw); [|done|done].
    rule_goal 20%nat (singles [Lit (ch "0")]).
    apply search_singles; [done|done|].
    apply Forall2_cons_inv_l in Hw as (y & w' & Hy & Hw & ->).
    exists (u ++ [y]), w'. split; [|done]. by rewrite Hp, <- app_assoc.
  - intros [Hl Hu].
    rule_in 3%nat (Seq Bol (chain [lower_items])) Hl.
    rule_in 5%nat (Seq Bol (chain [upper_items])) Hu.
    apply search_chain, runs_one in Hl as [Hne Hlower]; [|done].
    apply search_chain, runs_one in Hu as [_ Hupper]; [|done].
    destruct p as [|x q]; [done|].
    apply Forall_cons in Hlower as [Hx _], Hupper as [Hx' _].
    by apply (lower_not_upper x).
Qed.
End RuleOverlap.

(** ** Statistics add up *)

Section Merge.
Context {K : Type} `{Countable K}.
Implicit Types c d e : gmap K Z.

Lemma lookup_merge c d k :
  merge c d !! k = union_with (fun x y => Some (x + y)) (c !! k) (d !! k).
Proof. unfold merge. apply lookup_union_with. Qed.

Lemma get_merge c d k : get (merge c d) k = get c k + get d k.
Proof.
  unfold get. rewrite lookup_merge.
  destruct (c !! k), (d !! k); cbn; lia.
Qed.

Lemma merge_empty_r c : merge c ∅ = c.
Proof.
  apply map_eq. intros k. rewrite lookup_merge, lookup_empty.
  by destruct (c !! k).
Qed.

Lemma merge_empty_l c : merge ∅ c = c.
Proof.
  apply map_eq. intros k. rewrite lookup_merge, lookup_empty.
  by destruct (c !! k).
Qed.

Lemma merge_comm c d : merge c d = merge d c.
Proof.
  apply map_eq. intros k. rewrite !lookup_merge.
  destruct (c !! k), (d !! k); cbn; try done. f_equal. lia.
Qed.

Lemma merge_assoc c d e : merge (merge c d) e = merge c (merge d e).
Proof.
  apply map_eq. intros k. rewrite !lookup_merge.
  destruct (c !! k), (d !! k), (e !! k); cbn; try done. f_equal. lia.
Qed.

Lemma incr_merge c d k n : incr k n (merge c d) = merge c (incr k n d).
Proof.
  apply map_eq. intros i. unfold incr. rewrite lookup_merge.
  destruct (decide (i = k)) as [->|Hne].
  - rewrite !lookup_insert_eq, get_merge. unfold get.
    destruct (c !! k); cbn; f_equal; lia.
  - rewrite !lookup_insert_ne by done. by rewrite lookup_merge.
Qed.

Lemma fold_incr_merge {A : Type} (f : A → option K) (l : list A) c d :
  fold_left (fun c x => match f x with Some k => incr k 1 c | None => c end)
            l (merge c d)
  = merge c (fold_left (fun c x => match f x with
                                   | Some k => incr k 1 c
                                   | None => c
                                   end) l d).
Proof.
  revert d. induction l as [|x l IH]; intros d; [done|].
  cbn [fold_left]. destruct (f x) as [k|]; [|apply IH].
  rewrite incr_merge. apply IH.
Qed.
End Merge.

Lemma counters_merge_empty_r (c : counters) :
  counters_merge c empty_counters = c.
Proof.
  destruct c as [c1 c2 c3 c4 c5 c6 c7 c8 c9 c10].
  unfold counters_merge, empty_counters.
  cbn [cnt cnt_length cnt_pwd cnt_root cnt_regex cnt_symbol cnt_alpha cnt_num
       cnt_totals cnt_pattern].
  by rewrite !merge_empty_r.
Qed.

Lemma counters_merge_empty_l (c : counters) :
  counters_merge empty_counters c = c.
Proof.
  destruct c as [c1 c2 c3 c4 c5 c6 c7 c8 c9 c10].
  unfold counters_merge, empty_counters.
  cbn [cnt cnt_length cnt_pwd cnt_root cnt_regex cnt_symbol cnt_alpha cnt_num
       cnt_totals cnt_pattern].
  by rewrite !merge_empty_l.
Qed.

Lemma counters_merge_assoc (c d e : counters) :
  counters_merge (counters_merge c d) e = counters_merge c (counters_merge d e).
Proof.
  unfold counters_merge.
  cbn [cnt cnt_length cnt_pwd cnt_root cnt_regex cnt_symbol cnt_alpha cnt_num
       cnt_totals cnt_pattern].
  by rewrite !merge_assoc.
Qed.

Lemma counters_merge_swap (c d e : counters) :
  counters_merge (counters_merge c d) e = counters_merge (counters_merge c e) d.
Proof.
  rewrite !counters_merge_assoc. unfold counters_merge at 2 4.
  unfold counters_merge.
  cbn [cnt cnt_length cnt_pwd cnt_root cnt_regex cnt_symbol cnt_alpha cnt_num
       cnt_totals cnt_pattern].
  f_equal; f_equal; apply merge_comm.
Qed.

Section Additive.
Context `{UnicodeData} `{FuzzyWuzzy}.
Variable a : args.
Variable categories : categories_t.

Lemma count_letter_merge (acc0 acc : letter_counters) (x : char) :
  count_letter (letters_merge acc0 acc) x
  = letters_merge acc0 (count_letter acc x).
Proof.
  destruct acc0 as [[[n0 a0] s0] t0], acc as [[[n1 a1] s1] t1].
  unfold count_letter, letters_merge.
  destruct (isnumeric x); [by rewrite !incr_merge|].
  destruct (isalpha x); by rewrite !incr_merge.
Qed.

Lemma fold_count_letter_merge (p : str) (acc0 acc : letter_counters) :
  fold_left count_letter p (letters_merge acc0 acc)
  = letters_merge acc0 (fold_left count_letter p acc).
Proof.
  revert acc. induction p as [|x p IH]; intros acc; [done|].
  cbn [fold_left]. rewrite count_letter_merge. apply IH.
Qed.

Lemma letter_frequency_merge (p : str) (acc0 acc : letter_counters) :
  letter_frequency a p (letters_merge acc0 acc)
  = letters_merge acc0 (letter_frequency a p acc).
Proof.
  unfold letter_frequency. destruct (freq a); [|done].
  destruct acc0 as [[[n0 a0] s0] t0], acc as [[[n1 a1] s1] t1].
  unfold letters_merge at 1. rewrite incr_merge.
  apply (fold_count_letter_merge p (n0, a0, s0, t0) (n1, a1, s1, _)).
Qed.

Lemma match_rules_merge (p : str) (c d : gmap str Z) :
  match_rules p (merge c d) = merge c (match_rules p d).
Proof.
  unfold match_rules.
  generalize stats. intros l. revert d.
  induction l as [|kv l IH]; intros d; [done|].
  cbn [fold_left]. destruct (bool_decide _); [|apply IH].
  rewrite incr_merge. apply IH.
Qed.

Lemma fuzzy_loop_merge (mall : list (str * Z)) (r0 r : gmap str Z)
    (s : gset str) :
  fuzzy_loop categories mall (merge r0 r, s)
  = x ← fuzzy_loop categories mall (r, s); mret (merge r0 (fst x), snd x).
Proof.
  revert r s. induction mall as [|m mall IH]; intros r s; [done|].
  cbn [fuzzy_loop]. unfold fuzzy_step.
  destruct (80 <? snd m); cbn [mbind result_bind]; [|apply IH].
  destruct (word2category categories !! fst m) as [cats|];
    cbn [mbind result_bind]; [|done].
  rewrite incr_merge. apply IH.
Qed.

Lemma fold_labels_merge (ks : list str) (c d : gmap str Z) :
  fold_left (fun c k => incr k 1 c) ks (merge c d)
  = merge c (fold_left (fun c k => incr k 1 c) ks d).
Proof.
  revert d. induction ks as [|k ks IH]; intros d; [done|].
  cbn [fold_left]. rewrite incr_merge. apply IH.
Qed.

Lemma categorize_merge (p : str) (r0 r c0 c : gmap str Z) :
  categorize a categories p (merge r0 r) (merge c0 c)
  = x ← categorize a categories p r c;
    mret (merge r0 (fst x), merge c0 (snd x)).
Proof.
  unfold categorize.
  destruct (reaches_categories a categories p); [|reflexivity].
  rewrite fuzzy_loop_merge.
  destruct (fuzzy_loop categories (extract p (words categories)) (r, ∅))
    as [[r' s]|e]; [|reflexivity].
  cbn [mbind result_bind mret result_ret fst snd].
  rewrite fold_labels_merge. reflexivity.
Qed.

Lemma classify_merge (p : str) (c0 c : counters) :
  classify a categories p (counters_merge c0 c)
  = c' ← classify a categories p c; mret (counters_merge c0 c').
Proof.
  unfold classify, counters_merge.
  cbn [cnt cnt_length cnt_pwd cnt_root cnt_regex cnt_symbol cnt_alpha cnt_num
       cnt_totals cnt_pattern].
  pose proof (letter_frequency_merge p
    (cnt_num c0, cnt_alpha c0, cnt_symbol c0, cnt_totals c0)
    (cnt_num c, cnt_alpha c, cnt_symbol c, cnt_totals c)) as Hl.
  unfold letters_merge at 1 in Hl. rewrite Hl. clear Hl.
  destruct (letter_frequency a p _) as [[[n1 a1] s1] t1].
  unfold letters_merge.
  rewrite categorize_merge.
  destruct (categorize a categories p (cnt_root c) (cnt c)) as [[r' c']|e];
    cbn [mbind result_bind mret result_ret fst snd]; [|reflexivity].
  unfold counters_merge.
  cbn [cnt cnt_length cnt_pwd cnt_root cnt_regex cnt_symbol cnt_alpha cnt_num
       cnt_totals cnt_pattern].
  rewrite (incr_merge (cnt_length c0) (cnt_length c) (Z.of_nat (length p)) 1).
  rewrite (incr_merge (cnt_pwd c0) (cnt_pwd c) p 1).
  rewrite (incr_merge (cnt_pattern c0) (cnt_pattern c) (translate trans p) 1).
  rewrite (match_rules_merge p (cnt_regex c0) (cnt_regex c)).
  reflexivity.
Qed.

Lemma process_line_on_top (c0 : counters) (st : loop_state) (l : str) :
  process_line a categories (on_top c0 st) l
  = st' ← process_line a categories st l; mret (on_top c0 st').
Proof.
  unfold process_line, on_top. cbn [ctrs progress valid_passwords].
  destruct (line_password l) as [[[|x p]|]|e];
    cbn [mbind result_bind mret result_ret]; [done| |done|done].
  destruct (recover (x :: p)) as [p'|e];
    cbn [mbind result_bind mret result_ret]; [|done].
  rewrite classify_merge.
  by destruct (classify a categories p' (ctrs st)) as [c'|e].
Qed.

Lemma process_lines_on_top (c0 : counters) (lines : list str) (st : loop_state) :
  process_lines a categories lines (on_top c0 st)
  = st' ← process_lines a categories lines st; mret (on_top c0 st').
Proof.
  revert st. induction lines as [|l lines IH]; intros st; [done|].
  cbn [process_lines]. rewrite process_line_on_top.
  destruct (process_line a categories st l) as [st1|e];
    cbn [mbind result_bind mret result_ret]; [apply IH|done].
Qed.

Lemma process_file_lines_add (rs : run_state) (lines : list str) :
  process_file_lines a categories rs lines
  = d ← process_file_lines a categories start lines; mret (run_add rs d).
Proof.
  unfold process_file_lines, start.
  cbn [run_ctrs grand_total total_valid_passwords].
  pose proof (process_lines_on_top (run_ctrs rs) lines
    {| ctrs := empty_counters; progress := 0; valid_passwords := 0 |}) as Htop.
  unfold on_top at 1 in Htop. cbn [ctrs progress valid_passwords] in Htop.
  rewrite counters_merge_empty_r in Htop. rewrite Htop. clear Htop.
  destruct (process_lines a categories lines
              {| ctrs := empty_counters; progress := 0; valid_passwords := 0 |})
    as [st|e]; cbn [mbind result_bind mret result_ret]; [|done].
  unfold run_add, on_top.
  cbn [run_ctrs grand_total total_valid_passwords ctrs valid_passwords].
  done.
Qed.

Lemma all_lines_app (files1 files2 : list str) :
  all_lines (files1 ++ files2) = all_lines files1 ++ all_lines files2.
Proof. unfold all_lines. by rewrite map_app, concat_app. Qed.

(** X27: statistics add up.  A run over two lists of files gives the
    key-by-key sum of the counters of a run over the first list and of a
    run over the second one, and the sum of their totals; it fails when
    one of the two runs fails. *)
Theorem runs_add_up (files1 files2 : list str) :
  run a categories (files1 ++ files2)
  = r1 ← run a categories files1;
    r2 ← run a categories files2;
    mret (run_add r1 r2).
Proof.
  unfold run. rewrite !process_files_as_lines, all_lines_app.
  rewrite process_file_lines_app.
  destruct (process_file_lines a categories start (all_lines files1)) as [r1|e];
    cbn [mbind result_bind]; [|done].
  apply process_file_lines_add.
Qed.

Lemma process_line_delta (st st' : loop_state) (l : str) :
  process_line a categories st l = OK st' ↔
  ∃ d, process_line a categories
         {| ctrs := empty_counters; progress := 0; valid_passwords := 0 |} l
       = OK d ∧
       st' = shift_counts (on_top (ctrs st) d) (progress st) (valid_passwords st).
Proof.
  pose proof (process_line_shift a categories
    (on_top (ctrs st)
       {| ctrs := empty_counters; progress := 0; valid_passwords := 0 |})
    l (progress st) (valid_passwords st)) as Hs.
  unfold on_top at 1, shift_counts at 1 in Hs.
  cbn [ctrs progress valid_passwords] in Hs.
  rewrite counters_merge_empty_r in Hs.
  replace {| ctrs := ctrs st; progress := 0 + progress st;
             valid_passwords := 0 + valid_passwords st |} with st in Hs
    by (destruct st; cbn; f_equal; lia).
  rewrite Hs, process_line_on_top. clear Hs.
  destruct (process_line a categories
              {| ctrs := empty_counters; progress := 0; valid_passwords := 0 |} l)
    as [d|e]; cbn [mbind result_bind mret result_ret].
  - split.
    + intros [= <-]. by exists d.
    + by intros (d' & [= <-] & ->).
  - split; [done|]. by intros (d' & [=] & _).
Qed.

Lemma process_line_swap (st s1 s2 : loop_state) (x y : str) :
  process_line a categories st y = OK s1 →
  process_line a categories s1 x = OK s2 →
  ∃ s1', process_line a categories st x = OK s1' ∧
         process_line a categories s1' y = OK s2.
Proof.
  intros (dy & Hy & ->)%process_line_delta (dx & Hx & ->)%process_line_delta.
  eexists. split.
  - apply process_line_delta. by exists dx.
  - apply process_line_delta. exists dy. split; [done|].
    unfold shift_counts, on_top. cbn [ctrs progress valid_passwords].
    rewrite (counters_merge_swap (ctrs st) (ctrs dy) (ctrs dx)).
    f_equal; lia.
Qed.

Lemma process_lines_perm (lines lines' : list str) :
  lines ≡ₚ lines' →
  ∀ st st', process_lines a categories lines st = OK st' →
            process_lines a categories lines' st = OK st'.
Proof.
  induction 1 as [|x l l' _ IH|x y l|l l' l'' _ IH1 _ IH2]; intros st st'.
  - done.
  - cbn [process_lines].
    destruct (process_line a categories st x) as [s1|e];
      cbn [mbind result_bind]; [apply IH|done].
  - cbn [process_lines].
    destruct (process_line a categories st y) as [s1|e] eqn:Hy;
      cbn [mbind result_bind]; [|done].
    destruct (process_line a categories s1 x) as [s2|e] eqn:Hx;
      cbn [mbind result_bind]; [|done].
    destruct (process_line_swap _ _ _ _ _ Hy Hx) as (s1' & -> & Hy').
    cbn [mbind result_bind]. by rewrite Hy'.
  - intros Hl. by apply IH2, IH1.
Qed.

(** X28: the order of the lines is irrelevant.  When two lists of files
    hold the same lines, in any order and split over the files in any
    way, and the run over the first succeeds, the run over the second
    succeeds with the same counters and the same totals. *)
Theorem line_order_is_irrelevant (files files' : list str) (rs : run_state) :
  all_lines files ≡ₚ all_lines files' →
  run a categories files = OK rs →
  run a categories files' = OK rs.
Proof.
  intros Hperm. unfold run. rewrite !process_files_as_lines.
  unfold process_file_lines.
  destruct (process_lines a categories (all_lines files) _) as [st|e] eqn:Hl;
    cbn [mbind result_bind mret result_ret]; [|done].
  rewrite (process_lines_perm _ _ Hperm _ _ Hl).
  cbn [mbind result_bind mret result_ret].
  by rewrite (Permutation_length Hperm).
Qed.
End Additive.

(** ** Every character is counted in exactly one letter table *)

Lemma occurrences_cons (x c : char) (cs : list char) :
  occurrences x (c :: cs) = (if N.eqb x c then 1 else 0) + occurrences x cs.
Proof.
  unfold occurrences. cbn [List.filter].
  destruct (N.eqb x c); cbn [length]; lia.
Qed.

Lemma occurrences_app (x : char) (cs ds : list char) :
  occurrences x (cs ++ ds) = occurrences x cs + occurrences x ds.
Proof.
  unfold occurrences. rewrite List.filter_app, length_app. lia.
Qed.

Section LetterCounts.
Context `{UnicodeData} `{FuzzyWuzzy}.
Variable a : args.
Variable categories : categories_t.

Lemma count_letter_exact (acc : letter_counters) (c x : char) :
  get (fst (fst (fst (count_letter acc c)))) x
  = get (fst (fst (fst acc))) x
    + (if isnumeric x then if N.eqb x c then 1 else 0 else 0) ∧
  get (snd (fst (fst (count_letter acc c)))) x
  = get (snd (fst (fst acc))) x
    + (if isnumeric x then 0
       else if isalpha x then if N.eqb x c then 1 else 0 else 0) ∧
  get (snd (fst (count_letter acc c))) x
  = get (snd (fst acc)) x
    + (if isnumeric x then 0
       else if isalpha x then 0 else if N.eqb x c then 1 else 0).
Proof.
  destruct acc as [[[num alpha] symbol] totals]. unfold count_letter.
  destruct (N.eqb_spec x c) as [->|Hne].
  - destruct (isnumeric c); [|destruct (isalpha c)]; cbn [fst snd];
      rewrite ?get_incr_eq; repeat split; lia.
  - destruct (isnumeric c); [|destruct (isalpha c)]; cbn [fst snd];
      rewrite ?get_incr_ne by done;
      destruct (isnumeric x); destruct (isalpha x); repeat split; lia.
Qed.

Lemma fold_count_letter_exact (p : str) (acc : letter_counters) (x : char) :
  get (fst (fst (fst (fold_left count_letter p acc)))) x
  = get (fst (fst (fst acc))) x
    + (if isnumeric x then occurrences x p else 0) ∧
  get (snd (fst (fst (fold_left count_letter p acc)))) x
  = get (snd (fst (fst acc))) x
    + (if isnumeric x then 0 else if isalpha x then occurrences x p else 0) ∧
  get (snd (fst (fold_left count_letter p acc))) x
  = get (snd (fst acc)) x
    + (if isnumeric x then 0 else if isalpha x then 0 else occurrences x p).
Proof.
  revert acc. induction p as [|c p IH]; intros acc.
  - cbn [fold_left]. unfold occurrences. cbn [List.filter length].
    destruct (isnumeric x); destruct (isalpha x); repeat split; lia.
  - cbn [fold_left]. destruct (IH (count_letter acc c)) as (-> & -> & ->).
    destruct (count_letter_exact acc c x) as (-> & -> & ->).
    rewrite occurrences_cons.
    destruct (isnumeric x); destruct (isalpha x); repeat split; lia.
Qed.

Lemma classify_counted (ps : list str) (p : str) (c c' : counters) :
  freq a = true →
  classify a categories p c = OK c' →
  letters_counted ps c → letters_counted (ps ++ [p]) c'.
Proof.
  intros Hon Hcls (Hnum & Halpha & Hsymbol & Hchars).
  pose proof (classify_chars a categories p c c' Hon Hcls) as Hlen.
  apply classify_OK in Hcls
    as (root' & cnt' & num & al & sy & tot & _ & Hfreq & ->).
  unfold letter_frequency in Hfreq. rewrite Hon in Hfreq.
  cbn [cnt_totals] in Hlen.
  unfold letters_counted. cbn [cnt_num cnt_alpha cnt_symbol cnt_totals].
  rewrite concat_app. cbn [concat]. rewrite app_nil_r.
  split; [|split; [|split]].
  - intros x.
    pose proof (fold_count_letter_exact p
      (cnt_num c, cnt_alpha c, cnt_symbol c,
       incr (lit "chars") (Z.of_nat (length p)) (cnt_totals c)) x) as (Hx & _ & _).
    rewrite Hfreq in Hx. cbn [fst snd] in Hx.
    rewrite Hx, Hnum, occurrences_app. destruct (isnumeric x); lia.
  - intros x.
    pose proof (fold_count_letter_exact p
      (cnt_num c, cnt_alpha c, cnt_symbol c,
       incr (lit "chars") (Z.of_nat (length p)) (cnt_totals c)) x) as (_ & Hx & _).
    rewrite Hfreq in Hx. cbn [fst snd] in Hx.
    rewrite Hx, Halpha, occurrences_app.
    destruct (isnumeric x); destruct (isalpha x); lia.
  - intros x.
    pose proof (fold_count_letter_exact p
      (cnt_num c, cnt_alpha c, cnt_symbol c,
       incr (lit "chars") (Z.of_nat (length p)) (cnt_totals c)) x) as (_ & _ & Hx).
    rewrite Hfreq in Hx. cbn [fst snd] in Hx.
    rewrite Hx, Hsymbol, occurrences_app.
    destruct (isnumeric x); destruct (isalpha x); lia.
  - rewrite Hlen, Hchars, length_app. lia.
Qed.

Lemma process_line_counted (ps : list str) (st st' : loop_state) (l : str) :
  freq a = true →
  process_line a categories st l = OK st' →
  letters_counted ps (ctrs st) →
  letters_counted (ps ++ passwords [l]) (ctrs st').
Proof.
  intros Hon Hline Hst. unfold passwords. cbn [omap list_omap]. unfold password_of.
  apply process_line_OK in Hline
    as [[[Hl|Hl] ->]|(x & p & p' & c' & Hl & Hrec & Hcls & ->)];
    rewrite Hl; [| |rewrite Hrec]; cbn [ctrs with_progress].
  - by rewrite app_nil_r.
  - by rewrite app_nil_r.
  - by eapply classify_counted.
Qed.

Lemma passwords_cons (l : str) (lines : list str) :
  passwords (l :: lines) = passwords [l] ++ passwords lines.
Proof. unfold passwords. cbn [omap list_omap]. by destruct (password_of l). Qed.

Lemma passwords_app (l1 l2 : list str) :
  passwords (l1 ++ l2) = passwords l1 ++ passwords l2.
Proof.
  induction l1 as [|l l1 IH]; [done|].
  cbn [app]. rewrite (passwords_cons l (l1 ++ l2)), (passwords_cons l l1), IH.
  by rewrite app_assoc.
Qed.

Lemma process_lines_counted (lines : list str) :
  freq a = true →
  ∀ (ps : list str) (st st' : loop_state),
    process_lines a categories lines st = OK st' →
    letters_counted ps (ctrs st) →
    letters_counted (ps ++ passwords lines) (ctrs st').
Proof.
  intros Hon. induction lines as [|l lines IH]; intros ps st st'.
  - cbn [process_lines]. intros [= <-]. unfold passwords. cbn [omap list_omap].
    by rewrite app_nil_r.
  - cbn [process_lines].
    destruct (process_line a categories st l) as [st1|e] eqn:Hline;
      cbn [mbind result_bind]; [|discriminate].
    intros Hrest Hst. rewrite passwords_cons, app_assoc.
    apply (IH _ _ _ Hrest).
    by apply (process_line_counted ps st st1 l Hon Hline).
Qed.

Lemma process_files_counted (files : list str) :
  freq a = true →
  ∀ (ps : list str) (rs rs' : run_state),
    process_files a categories files rs = OK rs' →
    letters_counted ps (run_ctrs rs) →
    letters_counted (ps ++ passwords (all_lines files)) (run_ctrs rs').
Proof.
  intros Hon. induction files as [|f files IH]; intros ps rs rs'.
  - cbn [process_files]. intros [= <-]. unfold all_lines, passwords.
    cbn [map concat omap list_omap]. by rewrite app_nil_r.
  - cbn [process_files].
    destruct (process_file a categories rs f) as [rs1|e] eqn:Hfile;
      cbn [mbind result_bind]; [|discriminate].
    intros Hrest Hrs.
    apply process_file_OK in Hfile as (st & Hlines & ->).
    unfold all_lines. cbn [map concat]. fold (all_lines files).
    rewrite passwords_app, app_assoc.
    apply (IH _ _ _ Hrest). cbn [run_ctrs].
    apply (process_lines_counted _ Hon _ _ _ Hlines). exact Hrs.
Qed.

Lemma letters_counted_start : letters_counted [] (run_ctrs start).
Proof.
  unfold letters_counted, start, empty_counters, get, occurrences.
  cbn [run_ctrs cnt_num cnt_alpha cnt_symbol cnt_totals concat List.filter length].
  rewrite !lookup_empty. cbn [default].
  repeat split; intros x; destruct (isnumeric x); destruct (isalpha x); done.
Qed.

Lemma letters_consistent_start : letters_consistent (run_ctrs start).
Proof.
  unfold letters_consistent, start, empty_counters, get.
  cbn [run_ctrs cnt_totals cnt_num cnt_alpha cnt_symbol].
  rewrite !lookup_empty. unfold total. rewrite !map_fold_empty. done.
Qed.

(** C10: after the files of a run and any number of further lines, the
    characters counted in [cnt_totals] are the sum of the numeric,
    alphabetic and symbol characters, each of which is the sum of its
    per-character table.  With letter frequencies on, every character
    of every processed password is counted in exactly one of the three
    per-character tables: each character is counted as often as it
    occurs in the passwords in the table of its class, and not in the
    other two, and the characters counted are all the characters of the
    passwords. *)
Theorem letter_totals_add_up (files lines : list str)
    (rs : run_state) (st : loop_state) :
  run a categories files = OK rs →
  process_lines a categories lines
    {| ctrs := run_ctrs rs; progress := 0; valid_passwords := 0 |} = OK st →
  letters_consistent (ctrs st) ∧
  (freq a = true →
   letters_counted (passwords (all_lines files ++ lines)) (ctrs st)).
Proof.
  intros Hrun Hlines. split.
  - apply (process_lines_letters _ _ _ _ _ Hlines). cbn [ctrs].
    apply (process_files_letters _ _ _ _ _ Hrun).
    apply letters_consistent_start.
  - intros Hon. rewrite passwords_app.
    apply (process_lines_counted _ Hon _ _ _ Hlines). cbn [ctrs].
    apply (process_files_counted _ Hon [] _ _ Hrun).
    apply letters_counted_start.
Qed.
End LetterCounts.

(** ** The further properties on concrete inputs *)

Lemma prefix_fuzzy_choices (p : str) (ws : gset str) (w : str) (s : Z) :
  (w, s) ∈ @extract prefix_fuzzy p ws → w ∈ ws.
Proof.
  cbn [extract prefix_fuzzy]. change (map ?f ?l) with (f <$> l).
  intros (w' & [= -> _] & Hw)%list_elem_of_fmap. by apply elem_of_elements.
Qed.

Ltac no_newline := apply (bool_decide_unpack _); vm_compute; exact I.

#[local] Existing Instance ascii_unicode.
#[local] Existing Instance prefix_fuzzy.

Lemma counters_never_decrease_witness :
  ∃ rs', process_files sample_args sample_categories [lit "ab"] start = OK rs' ∧
         counters_le (run_ctrs start) (run_ctrs rs').
Proof.
  eexists. split; [vm_compute; reflexivity|].
  apply (counters_never_decrease sample_args sample_categories [lit "ab"] start).
  vm_compute. reflexivity.
Defined.

Lemma run_counts_lines_witness :
  ∃ rs, run sample_args sample_categories [lit "ab" ++ [newline] ++ lit "user:"]
        = OK rs ∧
        grand_total rs
        = Z.of_nat (length (all_lines [lit "ab" ++ [newline] ++ lit "user:"])) ∧
        total_valid_passwords rs
        = Z.of_nat (length (List.filter valid_line
                      (all_lines [lit "ab" ++ [newline] ++ lit "user:"]))) ∧
        0 ≤ total_valid_passwords rs ≤ grand_total rs.
Proof.
  eexists. split; [vm_compute; reflexivity|].
  apply (run_counts_lines sample_args sample_categories).
  vm_compute. reflexivity.
Defined.

Lemma length_value_shape_totals_witness :
  ∃ rs, run sample_args sample_categories [lit "ab" ++ [newline] ++ lit "ab"]
        = OK rs ∧
        total (cnt_length (run_ctrs rs)) = total_valid_passwords rs ∧
        total (cnt_pwd (run_ctrs rs)) = total_valid_passwords rs ∧
        total (cnt_pattern (run_ctrs rs)) = total_valid_passwords rs.
Proof.
  eexists. split; [vm_compute; reflexivity|].
  apply (length_value_shape_totals sample_args sample_categories
           [lit "ab" ++ [newline] ++ lit "ab"]).
  vm_compute. reflexivity.
Defined.

Lemma categories_off_counts_nothing_witness :
  (no_categories quiet_args = true ∨ words sample_categories = ∅) ∧
  ∃ rs, run quiet_args sample_categories [lit "tiger"] = OK rs ∧
        cnt (run_ctrs rs) = ∅ ∧ cnt_root (run_ctrs rs) = ∅.
Proof.
  assert (Hoff : no_categories quiet_args = true ∨ words sample_categories = ∅)
    by (left; reflexivity).
  split; [exact Hoff|].
  eexists. split; [vm_compute; reflexivity|].
  apply (categories_off_counts_nothing quiet_args sample_categories
           [lit "tiger"] _ Hoff).
  vm_compute. reflexivity.
Defined.

Lemma freq_off_counts_nothing_witness :
  freq quiet_args = false ∧
  ∃ rs, run quiet_args sample_categories [lit "ab"] = OK rs ∧
        cnt_num (run_ctrs rs) = ∅ ∧ cnt_alpha (run_ctrs rs) = ∅ ∧
        cnt_symbol (run_ctrs rs) = ∅ ∧ cnt_totals (run_ctrs rs) = ∅.
Proof.
  split; [reflexivity|].
  eexists. split; [vm_compute; reflexivity|].
  apply (freq_off_counts_nothing quiet_args sample_categories [lit "ab"] _ eq_refl).
  vm_compute. reflexivity.
Defined.

Lemma chars_total_is_sum_of_lengths_witness :
  freq sample_args = true ∧
  ∃ rs, run sample_args sample_categories [lit "ab" ++ [newline] ++ lit "c"]
        = OK rs ∧
        get (cnt_totals (run_ctrs rs)) (lit "chars")
        = weighted (cnt_length (run_ctrs rs)).
Proof.
  split; [reflexivity|].
  eexists. split; [vm_compute; reflexivity|].
  apply (chars_total_is_sum_of_lengths sample_args sample_categories
           [lit "ab" ++ [newline] ++ lit "c"] _ eq_refl).
  vm_compute. reflexivity.
Defined.

Lemma no_valid_password_no_counts_witness :
  ∃ rs, run sample_args sample_categories [lit "user:"] = OK rs ∧
        (grand_total rs = 0 → total_valid_passwords rs = 0) ∧
        (total_valid_passwords rs = 0 → run_ctrs rs = empty_counters).
Proof.
  eexists. split; [vm_compute; reflexivity|].
  apply (no_valid_password_no_counts sample_args sample_categories [lit "user:"]).
  vm_compute. reflexivity.
Defined.

Lemma letter_tables_have_positive_totals_witness :
  ∃ rs, run sample_args sample_categories [lit "a1"] = OK rs ∧
        (cnt_alpha (run_ctrs rs) ≠ ∅
         → 1 ≤ get (cnt_totals (run_ctrs rs)) (lit "alpha")) ∧
        (cnt_num (run_ctrs rs) ≠ ∅
         → 1 ≤ get (cnt_totals (run_ctrs rs)) (lit "num")) ∧
        (cnt_symbol (run_ctrs rs) ≠ ∅
         → 1 ≤ get (cnt_totals (run_ctrs rs)) (lit "symbol")).
Proof.
  eexists. split; [vm_compute; reflexivity|].
  apply (letter_tables_have_positive_totals sample_args sample_categories
           [lit "a1"]).
  vm_compute. reflexivity.
Defined.

Lemma categorize_counts_each_label_once_witness :
  ∃ root' c',
    categorize sample_args sample_categories (lit "tiger") ∅ ∅ = OK (root', c') ∧
    (∀ k, get c' k = get (∅ : gmap str Z) k ∨
          get c' k = get (∅ : gmap str Z) k + 1
          ∧ (k = no_category ∨ k ∈ map fst sample_categories)) ∧
    (∀ w, w ∉ words sample_categories → get root' w = get (∅ : gmap str Z) w).
Proof.
  eexists _, _. split; [vm_compute; reflexivity|].
  apply (categorize_counts_each_label_once sample_args sample_categories
           (lit "tiger")).
  vm_compute. reflexivity.
Defined.

Lemma run_fails_only_in_recover_witness :
  (∀ (p : str) (ws : gset str) (w : str) (s : Z),
     (w, s) ∈ extract p ws → w ∈ ws) ∧
  run sample_args sample_categories [lit "ab" ++ [newline] ++ lit "$HEX[7]"]
  = Raise BinasciiError ∧
  ∃ l p, l ∈ all_lines [lit "ab" ++ [newline] ++ lit "$HEX[7]"] ∧
         line_password l = OK (Some p) ∧ recover p = Raise BinasciiError ∧
         (BinasciiError = BinasciiError ∨ BinasciiError = ValueError).
Proof.
  assert (Hrun : run sample_args sample_categories
                   [lit "ab" ++ [newline] ++ lit "$HEX[7]"] = Raise BinasciiError)
    by (vm_compute; reflexivity).
  split; [exact prefix_fuzzy_choices|]. split; [exact Hrun|].
  exact (run_fails_only_in_recover sample_args sample_categories
           prefix_fuzzy_choices _ _ Hrun).
Defined.

Lemma recover_decodes_hex_digits_witness :
  Nat.even (length (lit "7a")) = true ∧
  Forall (fun c => is_Some (hexval c)) (lit "7a") ∧
  ∃ q, recover (hex_wrap (lit "7a")) = OK q ∧
       length (lit "7a") = (2 * length q)%nat ∧
       Forall (fun c => (c < 256)%N) q.
Proof.
  assert (Hhex : Forall (fun c => is_Some (hexval c)) (lit "7a")).
  { change (lit "7a") with [ch "7"; ch "a"].
    repeat constructor; vm_compute; by eexists. }
  split; [reflexivity|]. split; [exact Hhex|].
  exact (recover_decodes_hex_digits (lit "7a") eq_refl Hhex).
Defined.

Lemma recover_result_shape_witness :
  recover (lit "$HEX[41]") = OK (lit "A") ∧
  (lit "A" = lit "$HEX[41]"
   ∨ length (lit "$HEX[41]") = (6 + 2 * length (lit "A"))%nat
     ∧ Forall (fun c => (c < 256)%N) (lit "A")).
Proof.
  assert (Hrec : recover (lit "$HEX[41]") = OK (lit "A"))
    by (vm_compute; reflexivity).
  split; [exact Hrec|]. exact (recover_result_shape _ _ Hrec).
Defined.

Lemma progbar_prints_a_full_width_bar_witness :
  0 < 7 ∧ 0 ≤ 3 ≤ 7 ∧
  let frac := 3 * 100 / 7 in
  0 ≤ frac ≤ 100 ∧
  progbar 3 7 40 (-1)
  = Some (frac, if frac =? -1 then None else Some (progbar_msg frac)) ∧
  length (progbar_msg frac) = 60%nat ∧
  length (List.filter (N.eqb (ch "#")) (progbar_msg frac))
  = Z.to_nat (frac * 40 / 100).
Proof.
  assert (H7 : 0 < 7) by lia. assert (H3 : 0 ≤ 3 ≤ 7) by lia.
  split; [exact H7|]. split; [exact H3|].
  exact (progbar_prints_a_full_width_bar 3 7 (-1) H7 H3).
Defined.

Lemma progbar_prints_at_most_101_messages_witness :
  0 < 3 ∧ Forall (fun c => 0 ≤ c ≤ 3) [1; 2; 3] ∧ ascending [1; 2; 3] ∧
  ∃ last' outs, progbar_calls [1; 2; 3] 3 (-1) = Some (last', outs) ∧
                (length outs ≤ 101)%nat.
Proof.
  assert (H3 : 0 < 3) by lia.
  assert (Hall : Forall (fun c => 0 ≤ c ≤ 3) [1; 2; 3])
    by (repeat constructor; lia).
  assert (Hasc : ascending [1; 2; 3])
    by (cbn [ascending]; repeat split; repeat constructor; lia).
  split; [exact H3|]. split; [exact Hall|]. split; [exact Hasc|].
  exact (progbar_prints_at_most_101_messages 3 (-1) [1; 2; 3] H3 Hall Hasc).
Defined.

Lemma progress_stays_within_total_witness :
  ∃ st st',
    process_lines sample_args sample_categories [lit "ab"]
      {| ctrs := empty_counters; progress := 0; valid_passwords := 0 |} = OK st ∧
    process_line sample_args sample_categories st (lit "user:") = OK st' ∧
    1 ≤ progress st' ≤ Z.of_nat (length ([lit "ab"] ++ lit "user:" :: [lit "c"])) ∧
    0 ≤ valid_passwords st' ≤ progress st'.
Proof.
  eexists _, _. split; [vm_compute; reflexivity|].
  split; [vm_compute; reflexivity|].
  eapply (progress_stays_within_total sample_args sample_categories
            empty_counters [lit "ab"] [lit "c"] (lit "user:")).
  - vm_compute. reflexivity.
  - vm_compute. reflexivity.
Defined.

Lemma charset_rules_mean_whole_password_witness :
  (newline ∉ (lit "abc")) ∧
  (  (rule_matches (lit "Has: All lowercase") (lit "abc")
   ↔ (lit "abc") ≠ [] ∧ Forall (in_set lower_items) (lit "abc")) ∧
  (rule_matches (lit "Has: All num") (lit "abc")
   ↔ (lit "abc") ≠ [] ∧ Forall (in_set digit_items) (lit "abc")) ∧
  (rule_matches (lit "Has: All uppercase") (lit "abc")
   ↔ (lit "abc") ≠ [] ∧ Forall (in_set upper_items) (lit "abc"))).
Proof.
  assert (Hn : newline ∉ (lit "abc")) by no_newline.
  split; [exact Hn|]. exact (charset_rules_mean_whole_password (lit "abc") Hn).
Defined.

Lemma sequence_rules_mean_runs_witness :
  (newline ∉ (lit "Abc1")) ∧
  (  (rule_matches (lit "Seq: 1 upper > lower > num or symbol") (lit "Abc1")
   ↔ ∃ x q, (lit "Abc1") = x :: q ∧ in_set upper_items x
            ∧ runs [lower_items; digit_items ++ symbol_class] q) ∧
  (rule_matches (lit "Seq: 1 upper > lower > num") (lit "Abc1")
   ↔ ∃ x q, (lit "Abc1") = x :: q ∧ in_set upper_items x
            ∧ runs [lower_items; digit_items] q) ∧
  (rule_matches (lit "Seq: aplha > num > alpha") (lit "Abc1")
   ↔ runs [alpha_items; digit_items; alpha_items] (lit "Abc1")) ∧
  (rule_matches (lit "Seq: aplha > num > symbol") (lit "Abc1")
   ↔ runs [alpha_items; digit_items; symbol_class] (lit "Abc1")) ∧
  (rule_matches (lit "Seq: aplha > num") (lit "Abc1")
   ↔ runs [alpha_items; digit_items] (lit "Abc1")) ∧
  (rule_matches (lit "Seq: aplha > symbol > num") (lit "Abc1")
   ↔ runs [alpha_items; symbol_class; digit_items] (lit "Abc1"))).
Proof.
  assert (Hn : newline ∉ (lit "Abc1")) by no_newline.
  split; [exact Hn|]. exact (sequence_rules_mean_runs (lit "Abc1") Hn).
Defined.

Lemma composition_rules_mean_classes_present_witness :
  (newline ∉ (lit "Abc1")) ∧
  (  (rule_matches (lit "Has: Upper + lower + num + symbol") (lit "Abc1")
   ↔ Forall (fun i => Exists (in_set i) (lit "Abc1"))
            [lower_items; upper_items; digit_items; symbol_class]) ∧
  (rule_matches (lit "Has: Lower + num + symbol") (lit "Abc1")
   ↔ Forall (fun i => Exists (in_set i) (lit "Abc1"))
            [lower_items; digit_items; symbol_class]
     ∧ Forall (in_set (lower_items ++ digit_items ++ symbol_class)) (lit "Abc1")) ∧
  (rule_matches (lit "Has: Upper + num + symbol") (lit "Abc1")
   ↔ Forall (fun i => Exists (in_set i) (lit "Abc1"))
            [upper_items; digit_items; symbol_class]
     ∧ Forall (in_set (upper_items ++ digit_items ++ symbol_class)) (lit "Abc1")) ∧
  (rule_matches (lit "Has: Upper + lower + num") (lit "Abc1")
   ↔ Forall (fun i => Exists (in_set i) (lit "Abc1"))
            [lower_items; upper_items; digit_items]
     ∧ Forall (in_set (alpha_items ++ digit_items)) (lit "Abc1")) ∧
  (rule_matches (lit "Has: Alpha + num") (lit "Abc1")
   ↔ Forall (fun i => Exists (in_set i) (lit "Abc1"))
            [lower_items ++ upper_items; digit_items]
     ∧ Forall (in_set (alpha_items ++ digit_items)) (lit "Abc1")) ∧
  (rule_matches (lit "Has: Alpha + symbol") (lit "Abc1")
   ↔ Forall (fun i => Exists (in_set i) (lit "Abc1"))
            [lower_items ++ upper_items; symbol_class]
     ∧ Forall (in_set (alpha_items ++ symbol_class)) (lit "Abc1")) ∧
  (rule_matches (lit "Has: Upper + lower + symbol") (lit "Abc1")
   ↔ Forall (fun i => Exists (in_set i) (lit "Abc1"))
            [lower_items; upper_items; symbol_class]
     ∧ Forall (in_set (alpha_items ++ symbol_class)) (lit "Abc1")) ∧
  (rule_matches (lit "Has: Upper + lower") (lit "Abc1")
   ↔ Forall (fun i => Exists (in_set i) (lit "Abc1")) [lower_items; upper_items]
     ∧ Forall (in_set alpha_items) (lit "Abc1"))).
Proof.
  assert (Hn : newline ∉ (lit "Abc1")) by no_newline.
  split; [exact Hn|]. exact (composition_rules_mean_classes_present (lit "Abc1") Hn).
Defined.

Lemma suffix_rules_mean_endings_witness :
  (newline ∉ (lit "abc2020")) ∧
  (  (rule_matches (lit "Has: Four digits at the end") (lit "abc2020")
   ↔ ∃ u w, (lit "abc2020") = u ++ w
            ∧ Forall2 single_ok [no_digit; a_digit; a_digit; a_digit; a_digit] w) ∧
  (rule_matches (lit "Has: Single digit at the end") (lit "abc2020")
   ↔ ∃ u w, (lit "abc2020") = u ++ w ∧ Forall2 single_ok [no_digit; a_digit] w) ∧
  (rule_matches (lit "Has: Three digits at the end") (lit "abc2020")
   ↔ ∃ u w, (lit "abc2020") = u ++ w ∧ Forall2 single_ok [no_digit; a_digit; a_digit; a_digit] w) ∧
  (rule_matches (lit "Has: Two digits at the end") (lit "abc2020")
   ↔ ∃ u w, (lit "abc2020") = u ++ w ∧ Forall2 single_ok [no_digit; a_digit; a_digit] w) ∧
  (rule_matches (lit "Last digit is '0'") (lit "abc2020")
   ↔ ∃ u w, (lit "abc2020") = u ++ w ∧ Forall2 single_ok [Lit (ch "0")] w) ∧
  (rule_matches (lit "Last digits are '020'") (lit "abc2020")
   ↔ ∃ u w, (lit "abc2020") = u ++ w
            ∧ Forall2 single_ok [Lit (ch "0"); Lit (ch "2"); Lit (ch "0")] w) ∧
  (rule_matches (lit "Last digits are '19xx'") (lit "abc2020")
   ↔ ∃ u w, (lit "abc2020") = u ++ w
            ∧ Forall2 single_ok [Lit (ch "1"); Lit (ch "9"); a_digit; a_digit] w) ∧
  (rule_matches (lit "Last digits are '20'") (lit "abc2020")
   ↔ ∃ u w, (lit "abc2020") = u ++ w ∧ Forall2 single_ok [Lit (ch "2"); Lit (ch "0")] w) ∧
  (rule_matches (lit "Last digits are '2020'") (lit "abc2020")
   ↔ ∃ u w, (lit "abc2020") = u ++ w
            ∧ Forall2 single_ok
                [Lit (ch "2"); Lit (ch "0"); Lit (ch "2"); Lit (ch "0")] w) ∧
  (rule_matches (lit "Last digits are '20xx'") (lit "abc2020")
   ↔ ∃ u w, (lit "abc2020") = u ++ w
            ∧ Forall2 single_ok [Lit (ch "2"); Lit (ch "0"); a_digit; a_digit] w)).
Proof.
  assert (Hn : newline ∉ (lit "abc2020")) by no_newline.
  split; [exact Hn|]. exact (suffix_rules_mean_endings (lit "abc2020") Hn).
Defined.

Lemma first_capital_rules_mean_first_and_last_witness :
  (newline ∉ (lit "Abc1")) ∧
  (  (rule_matches (lit "Has: First capital, last number") (lit "Abc1")
   ↔ ∃ x u y, (lit "Abc1") = x :: u ++ [y] ∧ in_set upper_items x ∧ in_set digit_items y) ∧
  (rule_matches (lit "Has: First capital, last symbol") (lit "Abc1")
   ↔ ∃ x u y, (lit "Abc1") = x :: u ++ [y] ∧ in_set upper_items x ∧ in_set symbol_class y)).
Proof.
  assert (Hn : newline ∉ (lit "Abc1")) by no_newline.
  split; [exact Hn|]. exact (first_capital_rules_mean_first_and_last (lit "Abc1") Hn).
Defined.

Lemma rules_overlap_witness :
  (newline ∉ (lit "Abc1")) ∧
  (  (rule_matches (lit "Seq: 1 upper > lower > num") (lit "Abc1") →
   rule_matches (lit "Seq: 1 upper > lower > num or symbol") (lit "Abc1") ∧
   rule_matches (lit "Seq: aplha > num") (lit "Abc1") ∧
   rule_matches (lit "Has: First capital, last number") (lit "Abc1") ∧
   rule_matches (lit "Has: Upper + lower + num") (lit "Abc1")) ∧
  (rule_matches (lit "Seq: aplha > num") (lit "Abc1") →
   rule_matches (lit "Has: Alpha + num") (lit "Abc1")) ∧
  (rule_matches (lit "Contains: 1234") (lit "Abc1") → rule_matches (lit "Contains: 123") (lit "Abc1")) ∧
  (rule_matches (lit "Last digits are '2020'") (lit "Abc1") →
   rule_matches (lit "Last digits are '020'") (lit "Abc1")) ∧
  (rule_matches (lit "Last digits are '020'") (lit "Abc1") →
   rule_matches (lit "Last digits are '20'") (lit "Abc1")) ∧
  (rule_matches (lit "Last digits are '20'") (lit "Abc1") →
   rule_matches (lit "Last digit is '0'") (lit "Abc1")) ∧
  ¬ (rule_matches (lit "Has: All lowercase") (lit "Abc1") ∧
     rule_matches (lit "Has: All uppercase") (lit "Abc1"))).
Proof.
  assert (Hn : newline ∉ (lit "Abc1")) by no_newline.
  split; [exact Hn|]. exact (rules_overlap (lit "Abc1") Hn).
Defined.

Lemma line_order_is_irrelevant_witness :
  all_lines [lit "ab" ++ [newline] ++ lit "c1"] ≡ₚ all_lines [lit "c1"; lit "ab"] ∧
  ∃ rs, run sample_args sample_categories [lit "ab" ++ [newline] ++ lit "c1"]
        = OK rs ∧
        run sample_args sample_categories [lit "c1"; lit "ab"] = OK rs.
Proof.
  assert (Hp : all_lines [lit "ab" ++ [newline] ++ lit "c1"]
               ≡ₚ all_lines [lit "c1"; lit "ab"])
    by (vm_compute; apply perm_swap).
  split; [exact Hp|].
  eexists. split; [vm_compute; reflexivity|].
  apply (line_order_is_irrelevant sample_args sample_categories _ _ _ Hp).
  vm_compute. reflexivity.
Defined.

Lemma letter_totals_add_up_witness :
  ∃ rs st,
    run sample_args sample_categories [lit "ab1!"] = OK rs ∧
    process_lines sample_args sample_categories [lit "x9"]
      {| ctrs := run_ctrs rs; progress := 0; valid_passwords := 0 |} = OK st ∧
    letters_consistent (ctrs st) ∧
    (freq sample_args = true →
     letters_counted (passwords (all_lines [lit "ab1!"] ++ [lit "x9"])) (ctrs st)).
Proof.
  eexists _, _. split; [vm_compute; reflexivity|].
  split; [vm_compute; reflexivity|].
  eapply (letter_totals_add_up sample_args sample_categories [lit "ab1!"] [lit "x9"]).
  - vm_compute. reflexivity.
  - vm_compute. reflexivity.
Defined.

(** The letter tables of the two passwords [ab1!] and [x9]. *)
Example letters_of_two_passwords :
  ∃ rs, run sample_args sample_categories [lit "ab1!" ++ [newline] ++ lit "x9"]
        = OK rs ∧
        get (cnt_alpha (run_ctrs rs)) (ch "a") = 1 ∧
        get (cnt_num (run_ctrs rs)) (ch "a") = 0 ∧
        get (cnt_symbol (run_ctrs rs)) (ch "a") = 0 ∧
        get (cnt_num (run_ctrs rs)) (ch "9") = 1 ∧
        get (cnt_symbol (run_ctrs rs)) (ch "!") = 1 ∧
        get (cnt_totals (run_ctrs rs)) (lit "chars") = 6.
Proof.
  eexists. split; [vm_compute; reflexivity|].
  repeat split; vm_compute; reflexivity.
Qed.
